(** * Tristate checkbox: the state-propagation algorithm of
      [tristate-checkbox.js] over a model of the DOM it traverses.

    The component never builds a tree of its own: every relation it uses
    (parent checkbox, immediate child checkboxes, descendants) is obtained
    by DOM queries ([closest], [parentElement], [querySelector],
    [querySelectorAll]).  The document is therefore modelled as a tree of
    tagged elements, an element is named by its position, and the two
    boolean properties of every checkbox live in a separate store that the
    methods of the class read and write. *)

From Stdlib Require Import String.
From Stdlib Require Import List Arith ZArith Lia Bool Permutation Sorted.
Import ListNotations.

Set Warnings "-register-all".

(* ================================================================== *)
(** ** The document                                                     *)
(* ================================================================== *)

Module Dom.

(** Element kinds the selectors of the component tell apart.  [INPUT] is
    [input[type="checkbox"]]; [OTHER] is any other element (label, span,
    div, ...). *)
Inductive tag := UL | LI | INPUT | OTHER.

Definition tag_eqb (a b : tag) : bool :=
  match a, b with
  | UL, UL | LI, LI | INPUT, INPUT | OTHER, OTHER => true
  | _, _ => false
  end.

Inductive elem := Elem (t : tag) (kids : list elem).

Definition tagName (e : elem) : tag := let 'Elem t _ := e in t.
Definition children (e : elem) : list elem := let 'Elem _ ks := e in ks.

(** An element reference: the child indices on the way from the element up
    to the document element, innermost first.  [i :: p] is child number [i]
    of [p], and [[]] is the document element. *)
Definition path := list nat.

Fixpoint path_eqb (p q : path) : bool :=
  match p, q with
  | [], [] => true
  | i :: p', j :: q' => Nat.eqb i j && path_eqb p' q'
  | _, _ => false
  end.

Fixpoint node_at (doc : elem) (p : path) : option elem :=
  match p with
  | [] => Some doc
  | i :: q =>
      match node_at doc q with
      | Some e => nth_error (children e) i
      | None => None
      end
  end.

(** [element.matches(t)] for the simple selectors in use. *)
Definition matches (doc : elem) (t : tag) (p : path) : bool :=
  match node_at doc p with
  | Some e => tag_eqb (tagName e) t
  | None => false
  end.

(** [element.parentElement]; [None] is [null]. *)
Definition parentElement (p : path) : option path :=
  match p with
  | [] => None
  | _ :: q => Some q
  end.

(** [element.closest(t)]: the element itself or its nearest ancestor that
    matches. *)
Fixpoint closest (doc : elem) (t : tag) (p : path) : option path :=
  if matches doc t p then Some p
  else match p with
       | [] => None
       | _ :: q => closest doc t q
       end.

(** [element.children], in document order. *)
Definition children_of (doc : elem) (p : path) : list path :=
  match node_at doc p with
  | Some e => map (fun i => i :: p) (seq 0 (length (children e)))
  | None => []
  end.

(** Positions of the descendants of [e] relative to [e], in document
    (pre-)order; [descendants_from i ks] lists those below the children
    [ks], the first of which has index [i]. *)
Fixpoint rel_descendants (e : elem) : list path :=
  match e with
  | Elem _ ks =>
      (fix from (i : nat) (l : list elem) {struct l} : list path :=
         match l with
         | [] => []
         | k :: l' =>
             ([i] :: map (fun d => d ++ [i]) (rel_descendants k))
               ++ from (S i) l'
         end) 0 ks
  end.

Fixpoint descendants_from (i : nat) (l : list elem) : list path :=
  match l with
  | [] => []
  | k :: l' =>
      ([i] :: map (fun d => d ++ [i]) (rel_descendants k))
        ++ descendants_from (S i) l'
  end.

Definition descendants (doc : elem) (p : path) : list path :=
  match node_at doc p with
  | Some e => map (fun d => d ++ p) (rel_descendants e)
  | None => []
  end.

(** The selectors the component passes to [querySelector(All)]. *)
Inductive selector :=
| Sel (t : tag)                      (* 'ul', 'input[type="checkbox"]' *)
| ScopeChild (t : tag)               (* ':scope > ul', ':scope > input[...]' *)
| ScopeGrandchild (t1 t2 : tag).     (* ':scope > li > input[...]' *)

Definition querySelectorAll (doc : elem) (s : selector) (p : path) : list path :=
  match s with
  | Sel t => filter (matches doc t) (descendants doc p)
  | ScopeChild t => filter (matches doc t) (children_of doc p)
  | ScopeGrandchild t1 t2 =>
      flat_map (fun c => filter (matches doc t2) (children_of doc c))
               (filter (matches doc t1) (children_of doc p))
  end.

Definition querySelector (doc : elem) (s : selector) (p : path) : option path :=
  head (querySelectorAll doc s p).

End Dom.
Export Dom.

(* ================================================================== *)
(** ** Checkbox state and the page                                      *)
(* ================================================================== *)

Record checkbox := { checked : bool; indeterminate : bool }.

Definition store := path -> checkbox.

(** Identity of a change handler (each call of [_createChangeHandler]
    allocates a new closure). *)
Definition handler := nat.

(** What the methods of the class act on: the checkbox properties, the
    record of the property writes the component performed (oldest first),
    the registered 'change' listeners, and the lines sent to
    [console.error]. *)
Record page := {
  cbs : store;
  log : list (path * checkbox);
  listeners : list (path * handler);
  console : list string;
  next_handler : handler
}.

(** The component assigns [checked] and [indeterminate] of a checkbox
    together; one such pair of assignments is one entry of the log. *)
Definition write (p : path) (v : checkbox) (s : page) : page :=
  {| cbs := fun q => if path_eqb q p then v else cbs s q;
     log := log s ++ [(p, v)];
     listeners := listeners s;
     console := console s;
     next_handler := next_handler s |}.

(** [checkbox.checked = v] done from outside the component, the way the
    test-suite and the benchmark drive it before dispatching 'change'. *)
Definition assign_checked (p : path) (v : bool) (s : page) : page :=
  {| cbs := fun q => if path_eqb q p
                     then {| checked := v; indeterminate := indeterminate (cbs s q) |}
                     else cbs s q;
     log := log s;
     listeners := listeners s;
     console := console s;
     next_handler := next_handler s |}.

(** What the host does to a checkbox the user clicks, before it fires
    'change': the checkbox gets the new value and its [indeterminate] flag
    is cleared.  The component takes no part in it. *)
Definition user_flip (p : path) (v : bool) (s : page) : page :=
  {| cbs := fun q => if path_eqb q p
                     then {| checked := v; indeterminate := false |}
                     else cbs s q;
     log := log s;
     listeners := listeners s;
     console := console s;
     next_handler := next_handler s |}.

(* ================================================================== *)
(** ** class TristateCheckbox: propagation                              *)
(* ================================================================== *)

Section Propagation.

Variable doc : elem.

Definition _findChildCheckboxes (parentCheckbox : path) : list path :=
  match closest doc LI parentCheckbox with
  | None => []
  | Some li =>
      match querySelector doc (ScopeChild UL) li with
      | None => []
      | Some ul => querySelectorAll doc (ScopeGrandchild LI INPUT) ul
      end
  end.

Definition _findParentCheckbox (checkbox : path) : option path :=
  match closest doc LI checkbox with
  | None => None
  | Some li =>
      match parentElement li with
      | None => None
      | Some above =>
          match closest doc LI above with
          | None => None
          | Some parentLi => querySelector doc (ScopeChild INPUT) parentLi
          end
      end
  end.

(** The two counters of [_updateParentState], as the [forEach] over the
    children advances them. *)
Definition count_child (st : store) (acc : nat * nat) (c : path) : nat * nat :=
  let '(checkedCount, indeterminateCount) := acc in
  if indeterminate (st c) then (checkedCount, S indeterminateCount)
  else if checked (st c) then (S checkedCount, indeterminateCount)
  else (checkedCount, indeterminateCount).

Definition parent_value (checkedCount indeterminateCount len : nat) : checkbox :=
  if (0 <? indeterminateCount) || ((0 <? checkedCount) && (checkedCount <? len))
  then {| checked := false; indeterminate := true |}
  else if checkedCount =? len
       then {| checked := true; indeterminate := false |}
       else {| checked := false; indeterminate := false |}.

Definition _updateParentState (parentCheckbox : path) (s : page) : page :=
  let childCheckboxes := _findChildCheckboxes parentCheckbox in
  if length childCheckboxes =? 0 then s
  else
    let '(checkedCount, indeterminateCount) :=
      fold_left (count_child (cbs s)) childCheckboxes (0, 0) in
    write parentCheckbox
          (parent_value checkedCount indeterminateCount (length childCheckboxes)) s.

Definition _setChildCheckboxes (parentCheckbox : path) (isChecked : bool)
    (s : page) : page :=
  match closest doc LI parentCheckbox with
  | None => s
  | Some li =>
      match querySelector doc (Sel UL) li with
      | None => s
      | Some ul =>
          fold_left
            (fun s' c => write c {| checked := isChecked; indeterminate := false |} s')
            (querySelectorAll doc (Sel INPUT) ul) s
      end
  end.

(** The [while (parent = _findParentCheckbox(current))] loop; [fuel] bounds
    the number of iterations. *)
Fixpoint ancestors_loop (fuel : nat) (currentCheckbox : path) (s : page) : page :=
  match fuel with
  | 0 => s
  | S fuel' =>
      match _findParentCheckbox currentCheckbox with
      | Some parent =>
          ancestors_loop fuel' parent (_updateParentState parent s)
      | None => s
      end
  end.

(** Every iteration but possibly the first moves to a strictly shorter
    position, so one more than the length of the start is enough fuel. *)
Definition _updateAncestorCheckboxes (checkbox : path) (s : page) : page :=
  ancestors_loop (S (length checkbox)) checkbox s.

(** The closure returned by [_createChangeHandler(checkbox)]. *)
Definition _createChangeHandler (checkbox : path) (s : page) : page :=
  let isChecked := checked (cbs s checkbox) in
  _updateAncestorCheckboxes checkbox (_setChildCheckboxes checkbox isChecked s).

(** A toggle as the test-suite performs it:
    [checkbox.checked = v; checkbox.dispatchEvent(new Event('change'))]
    with the handler of this checkbox attached. *)
Definition onToggle (checkbox : path) (v : bool) (s : page) : page :=
  _createChangeHandler checkbox (assign_checked checkbox v s).

(** A toggle by the user: the flip of the checkbox to [v], then the
    handler the component has attached to it. *)
Definition userToggle (checkbox : path) (v : bool) (s : page) : page :=
  _createChangeHandler checkbox (user_flip checkbox v s).

(** [_getElementDepth]: the loop follows [parentElement] to the document
    element and counts the steps. *)
Fixpoint depth_loop (depth : nat) (current : path) : nat :=
  match current with
  | [] => depth
  | _ :: above => depth_loop (S depth) above
  end.

Definition _getElementDepth (element : path) : nat := depth_loop 0 element.

(** [Array.prototype.sort] with a comparator: a stable sort.  [x] goes in
    front of the first element it does not have to follow. *)
Fixpoint sort_insert (cmp : path -> path -> Z) (x : path) (l : list path)
    : list path :=
  match l with
  | [] => [x]
  | y :: l' => if (cmp x y <=? 0)%Z then x :: l else y :: sort_insert cmp x l'
  end.

Definition array_sort (cmp : path -> path -> Z) (l : list path) : list path :=
  fold_right (sort_insert cmp) [] l.

Definition deepest_first (a b : path) : Z :=
  (Z.of_nat (_getElementDepth b) - Z.of_nat (_getElementDepth a))%Z.

Definition sortedUls (root : path) : list path :=
  array_sort deepest_first (querySelectorAll doc (Sel UL) root).

(** The body of [sortedUls.forEach].  Every [ul] found below a root has a
    parent element, so the [None] branch is never taken. *)
Definition update_level (s : page) (ul : path) : page :=
  match parentElement ul with
  | None => s
  | Some above =>
      fold_left (fun s' c => _updateParentState c s')
                (querySelectorAll doc (ScopeChild INPUT) above) s
  end.

Definition _initializeState (root : path) (s : page) : page :=
  fold_left update_level (sortedUls root) s.

End Propagation.

(* ================================================================== *)
(** ** class TristateCheckbox: construction and teardown                *)
(* ================================================================== *)

Inductive result (A : Type) :=
| Ok (a : A)
| Throw (error : string).
Arguments Ok {A} a.
Arguments Throw {A} error.

(** The argument of the constructor. *)
Inductive selector_arg :=
| ByString (css : string)
| ByElement (e : path)
| ByList (es : list path)        (* NodeList or array *)
| ByOther.                       (* anything else *)

(** [this]: [_handlers] is [None] while the property is undefined. *)
Record instance := {
  roots : list path;
  _handlers : option (list (path * handler))
}.

(** [Map.prototype.set]: an existing key keeps its place and gets the new
    value. *)
Fixpoint map_set (k : path) (h : handler) (m : list (path * handler))
    : list (path * handler) :=
  match m with
  | [] => [(k, h)]
  | (k', h') :: m' =>
      if path_eqb k' k then (k', h) :: m' else (k', h') :: map_set k h m'
  end.

Definition addEventListener (target : path) (h : handler) (s : page) : page :=
  {| cbs := cbs s; log := log s;
     listeners := listeners s ++ [(target, h)];
     console := console s;
     next_handler := next_handler s |}.

Definition removeEventListener (target : path) (h : handler) (s : page) : page :=
  {| cbs := cbs s; log := log s;
     listeners :=
       filter (fun l => negb (path_eqb (fst l) target && Nat.eqb (snd l) h))
              (listeners s);
     console := console s;
     next_handler := next_handler s |}.

Definition console_error (msg : string) (s : page) : page :=
  {| cbs := cbs s; log := log s; listeners := listeners s;
     console := console s ++ [msg];
     next_handler := next_handler s |}.

Definition new_closure (s : page) : handler * page :=
  (next_handler s,
   {| cbs := cbs s; log := log s; listeners := listeners s;
      console := console s;
      next_handler := S (next_handler s) |}).

Definition no_elements : string :=
  "TristateCheckbox: No elements found with the provided selector".

Definition undefined_handlers : string :=
  "TypeError: Cannot read properties of undefined (reading 'forEach')".

Section Component.

Variable doc : elem.

(** [document.querySelectorAll(css)] for a selector string: the CSS engine
    of the host, not part of the component. *)
Variable resolve : string -> list path.

Definition _getElements (sel : selector_arg) : list path :=
  match sel with
  | ByString css => resolve css
  | ByElement e => [e]
  | ByList es => es
  | ByOther => []
  end.

Definition attach (acc : list (path * handler) * page) (checkbox : path)
    : list (path * handler) * page :=
  let '(handlers, s) := acc in
  let '(h, s1) := new_closure s in
  (map_set checkbox h handlers, addEventListener checkbox h s1).

Definition _init (rs : list path) (acc : list (path * handler) * page)
    : list (path * handler) * page :=
  fold_left
    (fun acc root =>
       let '(handlers, s) :=
         fold_left attach (querySelectorAll doc (Sel INPUT) root) acc in
       (handlers, _initializeState doc root s))
    rs acc.

Definition constructor (sel : selector_arg) (s : page) : result (instance * page) :=
  let rs := _getElements sel in
  if length rs =? 0
  then Ok ({| roots := rs; _handlers := None |}, console_error no_elements s)
  else
    let '(handlers, s') := _init rs ([], s) in
    Ok ({| roots := rs; _handlers := Some handlers |}, s').

Definition destroy (this : instance) (s : page) : result (instance * page) :=
  match _handlers this with
  | None => Throw undefined_handlers
  | Some handlers =>
      Ok ({| roots := roots this; _handlers := Some [] |},
          fold_left (fun s' kh => removeEventListener (fst kh) (snd kh) s')
                    handlers s)
  end.

(** [target.dispatchEvent(new Event('change'))]: the listeners registered
    on the target run in registration order; the closure a listener holds
    was made for the checkbox it is registered on. *)
Definition dispatchChange (target : path) (s : page) : page :=
  fold_left
    (fun s' l => if path_eqb (fst l) target
                 then _createChangeHandler doc (fst l) s' else s')
    (listeners s) s.

End Component.

(* ================================================================== *)
(** ** The structural contract and the vocabulary of the properties     *)
(* ================================================================== *)

(** An element with no list, item or checkbox in it (label, span, ...). *)
Fixpoint plain (e : elem) : bool :=
  match e with
  | Elem t ks => tag_eqb t OTHER && forallb plain ks
  end.

Definition count_tag (t : tag) (ks : list elem) : nat :=
  length (filter (fun k => tag_eqb (tagName k) t) ks).

(** A tree level is a list of items; an item holds exactly one checkbox,
    at most one nested list, and otherwise plain elements. *)
Fixpoint wf_list (e : elem) : bool :=
  match e with
  | Elem UL items =>
      forallb
        (fun item =>
           match item with
           | Elem LI ks =>
               (count_tag INPUT ks =? 1) && (count_tag UL ks <=? 1) &&
               forallb
                 (fun k =>
                    match k with
                    | Elem INPUT ks' => match ks' with [] => true | _ => false end
                    | Elem UL _ => wf_list k
                    | Elem LI _ => false
                    | Elem OTHER _ => plain k
                    end) ks
           | _ => false
           end) items
  | _ => false
  end.

Definition wf_part (k : elem) : bool :=
  match k with
  | Elem INPUT ks' => match ks' with [] => true | _ => false end
  | Elem UL _ => wf_list k
  | Elem LI _ => false
  | Elem OTHER _ => plain k
  end.

Definition wf_item (item : elem) : bool :=
  match item with
  | Elem LI ks =>
      (count_tag INPUT ks =? 1) && (count_tag UL ks <=? 1) && forallb wf_part ks
  | _ => false
  end.

(** [within root p]: [p] is [root] or lies below it. *)
Definition within (root p : path) : bool :=
  path_eqb (skipn (length p - length root) p) root.

(** [p] is a well-formed list. *)
Definition list_ok (doc : elem) (p : path) : bool :=
  match node_at doc p with
  | Some r => wf_list r
  | None => false
  end.

(** The root container is a well-formed list that no item encloses. *)
Definition structure_ok (doc : elem) (root : path) : bool :=
  list_ok doc root
  && match closest doc LI root with
     | None => true
     | Some _ => false
     end.

(** The nodes of the tree under [root]: its checkboxes. *)
Definition is_node (doc : elem) (root N : path) : bool :=
  matches doc INPUT N && within root N.

(** [D] is a descendant of [N]: reachable from [N] through the
    immediate-children relation. *)
Inductive descendant (doc : elem) : path -> path -> Prop :=
| descendant_child D N :
    In D (_findChildCheckboxes doc N) -> descendant doc D N
| descendant_below D M N :
    In D (_findChildCheckboxes doc M) -> descendant doc M N ->
    descendant doc D N.

(** The parent-from-children rule, in the words of the specification. *)
Definition all_checked (st : store) (cs : list path) : Prop :=
  forall c, In c cs -> checked (st c) = true /\ indeterminate (st c) = false.

Definition some_indeterminate (st : store) (cs : list path) : Prop :=
  exists c, In c cs /\ indeterminate (st c) = true.

Definition partly_checked (st : store) (cs : list path) : Prop :=
  (exists c, In c cs /\ checked (st c) = true) /\
  (exists c, In c cs /\ checked (st c) = false).

Definition parent_from_children (st : store) (N : path) (cs : list path) : Prop :=
  (checked (st N) = true <-> all_checked st cs) /\
  (indeterminate (st N) = true <-> some_indeterminate st cs \/ partly_checked st cs).

Definition consistent (doc : elem) (st : store) (N : path) : Prop :=
  _findChildCheckboxes doc N <> [] ->
  parent_from_children st N (_findChildCheckboxes doc N).

Definition globally_consistent (doc : elem) (root : path) (st : store) : Prop :=
  forall N, is_node doc root N = true -> consistent doc st N.

Definition exclusive (v : checkbox) : Prop :=
  ~ (checked v = true /\ indeterminate v = true).

(** The value the code computes for a parent, as a function of the states
    of its children, and the executable form of consistency. *)
Definition rule (st : store) (cs : list path) : checkbox :=
  let '(checkedCount, indeterminateCount) := fold_left (count_child st) cs (0, 0) in
  parent_value checkedCount indeterminateCount (length cs).

(** What the two counters count. *)
Definition is_ind (st : store) (c : path) : bool := indeterminate (st c).
Definition is_chk (st : store) (c : path) : bool :=
  negb (indeterminate (st c)) && checked (st c).

Definition checkbox_eqb (a b : checkbox) : bool :=
  Bool.eqb (checked a) (checked b) && Bool.eqb (indeterminate a) (indeterminate b).

Definition consistentb (doc : elem) (st : store) (N : path) : bool :=
  match _findChildCheckboxes doc N with
  | [] => true
  | cs => checkbox_eqb (st N) (rule st cs)
  end.

Definition tree_consistentb (doc : elem) (root : path) (st : store) : bool :=
  forallb (consistentb doc st) (querySelectorAll doc (Sel INPUT) root).

(** The chain of checkboxes [_updateAncestorCheckboxes] walks through. *)
Fixpoint ancestors (doc : elem) (fuel : nat) (c : path) : list path :=
  match fuel with
  | 0 => []
  | S fuel' =>
      match _findParentCheckbox doc c with
      | Some parent => parent :: ancestors doc fuel' parent
      | None => []
      end
  end.

(** The checkboxes [_setChildCheckboxes] writes, in the order it does. *)
Definition forced (doc : elem) (N : path) : list path :=
  match closest doc LI N with
  | None => []
  | Some li =>
      match querySelector doc (Sel UL) li with
      | None => []
      | Some ul => querySelectorAll doc (Sel INPUT) ul
      end
  end.

(** [bottom_up doc root N chain]: [chain] lists the ancestors of [N] from
    its immediate parent upwards, one level at a time, and ends at a
    checkbox that is nobody's child. *)
Inductive bottom_up (doc : elem) (root : path) : path -> list path -> Prop :=
| bottom_up_end N :
    (forall P, is_node doc root P = true -> ~ In N (_findChildCheckboxes doc P)) ->
    bottom_up doc root N []
| bottom_up_next N P rest :
    is_node doc root P = true -> In N (_findChildCheckboxes doc P) ->
    bottom_up doc root P rest ->
    bottom_up doc root N (P :: rest).

(** [_updateParentState] applied to a sequence of checkboxes in turn. *)
Definition update_all (doc : elem) (L : list path) (s : page) : page :=
  fold_left (fun s' c => _updateParentState doc c s') L s.

(** The checkboxes [_initializeState] recomputes, in the order it does:
    for every list, the checkboxes that are children of its parent. *)
Definition owners (doc : elem) (uls : list path) : list path :=
  flat_map
    (fun ul => match parentElement ul with
               | None => []
               | Some above => querySelectorAll doc (ScopeChild INPUT) above
               end) uls.

(** Distance of an element from the root of its tree. *)
Definition depth_in_tree (root p : path) : nat := length p - length root.

Definition deeper_first (root : path) (a b : path) : Prop :=
  depth_in_tree root b <= depth_in_tree root a.

(** The listeners [_init] registers for the checkboxes [cs] when the next
    closure is number [n]. *)
Definition attached (cs : list path) (n : handler) : list (path * handler) :=
  combine cs (seq n (length cs)).

Definition same_listener (a b : path * handler) : bool :=
  path_eqb (fst a) (fst b) && Nat.eqb (snd a) (snd b).

(* ================================================================== *)
(** ** Sample documents                                                 *)
(* ================================================================== *)

Definition label : elem := Elem OTHER [].
Definition box : elem := Elem INPUT [].
Definition leaf_item : elem := Elem LI [box; label].

(** The markup of the test-suite: one parent with two children, inside a
    container [div]. *)
Definition two_level : elem :=
  Elem OTHER
    [Elem UL [Elem LI [box; label; Elem UL [leaf_item; leaf_item]]]].

(** A parent with two children, the first of which has two children of
    its own. *)
Definition three_level : elem :=
  Elem OTHER
    [Elem UL
       [Elem LI [box; label;
                 Elem UL [Elem LI [box; label; Elem UL [leaf_item; leaf_item]];
                          leaf_item]]]].

Definition tree_root : path := [0].
Definition top_box : path := [0; 0; 0].
Definition child1 : path := [0; 0; 2; 0; 0].
Definition child2 : path := [0; 1; 2; 0; 0].
Definition grandchild1 : path := [0; 0; 2; 0; 2; 0; 0].
Definition grandchild2 : path := [0; 1; 2; 0; 2; 0; 0].

Definition unchecked : checkbox := {| checked := false; indeterminate := false |}.
Definition ticked : checkbox := {| checked := true; indeterminate := false |}.
Definition mixed : checkbox := {| checked := false; indeterminate := true |}.

Definition blank : page :=
  {| cbs := fun _ => unchecked; log := []; listeners := []; console := [];
     next_handler := 0 |}.

Definition with_cbs (st : store) : page :=
  {| cbs := st; log := []; listeners := []; console := []; next_handler := 0 |}.

(** First child ticked, second not, parent indeterminate. *)
Definition half_checked : page :=
  with_cbs (fun p => if path_eqb p top_box then mixed
                     else if path_eqb p child1 then ticked
                     else unchecked).

(** Two lists side by side in one container, each a tree of its own. *)
Definition two_trees : elem :=
  Elem OTHER
    [Elem UL [Elem LI [box; label; Elem UL [leaf_item; leaf_item]]];
     Elem UL [Elem LI [box; label; Elem UL [leaf_item]]; leaf_item]].

Definition both_trees (css : string) : list path := [[0]; [1]].

Definition no_match (css : string) : list path := [].
Definition one_match (css : string) : list path := [tree_root].

(* ================================================================== *)
(** ** Positions and DOM queries                                        *)
(* ================================================================== *)

Lemma path_eqb_spec (p q : path) : reflect (p = q) (path_eqb p q).
Proof.
  revert q; induction p as [|i p IH]; intros [|j q]; simpl;
    try (constructor; congruence).
  destruct (Nat.eqb_spec i j) as [->|Hij]; simpl.
  - destruct (IH q) as [->|Hpq]; constructor; congruence.
  - constructor; congruence.
Qed.

Lemma path_eqb_refl (p : path) : path_eqb p p = true.
Proof. destruct (path_eqb_spec p p); congruence. Qed.

Lemma path_eqb_neq (p q : path) : p <> q -> path_eqb p q = false.
Proof. destruct (path_eqb_spec p q); congruence. Qed.

Lemma path_eq_dec (p q : path) : {p = q} + {p <> q}.
Proof. destruct (path_eqb_spec p q); [left | right]; assumption. Defined.

Lemma tag_eqb_eq (a b : tag) : tag_eqb a b = true <-> a = b.
Proof. destruct a, b; simpl; split; congruence. Qed.

Lemma app_length_neq (d p : path) : d <> [] -> d ++ p <> p.
Proof.
  intros Hd Heq. apply (f_equal (@length nat)) in Heq.
  rewrite length_app in Heq. destruct d; [congruence | simpl in Heq; lia].
Qed.

Lemma node_at_app (doc : elem) (d p : path) :
  node_at doc (d ++ p) =
  match node_at doc p with
  | Some e => node_at e d
  | None => None
  end.
Proof.
  induction d as [|i d IH]; simpl.
  - destruct (node_at doc p); reflexivity.
  - rewrite IH. destruct (node_at doc p); reflexivity.
Qed.

Lemma node_at_parent (doc : elem) (i : nat) (p : path) (e : elem) :
  node_at doc (i :: p) = Some e ->
  exists pe, node_at doc p = Some pe /\ nth_error (children pe) i = Some e.
Proof.
  simpl. destruct (node_at doc p) as [pe|]; [|discriminate].
  intros H. exists pe. split; [reflexivity | assumption].
Qed.

Lemma matches_tag (doc : elem) (t : tag) (p : path) :
  matches doc t p = true <->
  exists e, node_at doc p = Some e /\ tagName e = t.
Proof.
  unfold matches. destruct (node_at doc p) as [e|].
  - rewrite tag_eqb_eq. split.
    + intros H. exists e. split; [reflexivity | assumption].
    + intros [e' [He' Ht]]. congruence.
  - split; [discriminate | intros [e [He _]]; discriminate].
Qed.

Lemma matches_unique (doc : elem) (t t' : tag) (p : path) :
  matches doc t p = true -> matches doc t' p = true -> t = t'.
Proof.
  rewrite !matches_tag. intros [e [He Ht]] [e' [He' Ht']]. congruence.
Qed.

Lemma in_children_of (doc : elem) (p c : path) :
  In c (children_of doc p) <->
  exists i, c = i :: p /\ node_at doc c <> None.
Proof.
  unfold children_of. split.
  - destruct (node_at doc p) as [e|] eqn:He; [|intros []].
    rewrite in_map_iff. intros [i [<- Hi]]. rewrite in_seq in Hi.
    exists i. split; [reflexivity|]. simpl. rewrite He.
    apply nth_error_Some. lia.
  - intros [i [-> Hc]]. simpl in Hc.
    destruct (node_at doc p) as [e|]; [|congruence].
    apply (in_map (fun j => j :: p)), in_seq.
    apply nth_error_Some in Hc. lia.
Qed.

Lemma in_scope_child (doc : elem) (t : tag) (p c : path) :
  In c (querySelectorAll doc (ScopeChild t) p) <->
  exists i, c = i :: p /\ matches doc t c = true.
Proof.
  simpl. rewrite filter_In, in_children_of. split.
  - intros [[i [-> _]] Hm]. exists i. split; [reflexivity | assumption].
  - intros [i [-> Hm]]. split; [|assumption].
    exists i. split; [reflexivity|].
    unfold matches in Hm. destruct (node_at doc (i :: p)); congruence.
Qed.

Lemma in_scope_grandchild (doc : elem) (t1 t2 : tag) (p c : path) :
  In c (querySelectorAll doc (ScopeGrandchild t1 t2) p) <->
  exists j a, c = j :: a :: p /\ matches doc t1 (a :: p) = true /\
              matches doc t2 c = true.
Proof.
  simpl. rewrite in_flat_map. split.
  - intros [m [Hm Hc]].
    apply (in_scope_child doc t1 p m) in Hm. destruct Hm as [a [-> Ha]].
    apply (in_scope_child doc t2 (a :: p) c) in Hc. destruct Hc as [j [-> Hj]].
    exists j, a. auto.
  - intros [j [a [-> [Ha Hj]]]]. exists (a :: p). split.
    + apply (in_scope_child doc t1 p). exists a. auto.
    + apply (in_scope_child doc t2 (a :: p)). exists j. auto.
Qed.

Lemma rel_descendants_unfold (t : tag) (ks : list elem) :
  rel_descendants (Elem t ks) = descendants_from 0 ks.
Proof.
  simpl. generalize 0. induction ks as [|k ks IH]; intros i; simpl.
  - reflexivity.
  - rewrite IH. reflexivity.
Qed.

Lemma elem_induction (P : elem -> Prop) :
  (forall t ks, Forall P ks -> P (Elem t ks)) -> forall e, P e.
Proof.
  intros H. fix IH 1. intros [t ks]. apply H.
  induction ks as [|k ks IHks]; constructor; [apply IH | exact IHks].
Qed.

Lemma in_descendants_from (ks : list elem) :
  Forall (fun k => forall d, In d (rel_descendants k) <->
                             d <> [] /\ node_at k d <> None) ks ->
  forall i d,
    In d (descendants_from i ks) <->
    exists j k, nth_error ks j = Some k /\
                (d = [i + j] \/
                 exists d', d' <> [] /\ node_at k d' <> None /\ d = d' ++ [i + j]).
Proof.
  induction 1 as [|k ks Hk _ IH]; intros i d; simpl.
  - split; [intros [] | intros [[|j] [k [Hj _]]]; discriminate].
  - rewrite in_app_iff, in_map_iff, IH. split.
    + intros [Hd | [[d' [<- Hd']] | [j [k' [Hj Hd]]]]].
      * exists 0, k. rewrite Nat.add_0_r. split; [reflexivity | left; congruence].
      * exists 0, k. rewrite Nat.add_0_r. split; [reflexivity|].
        right. exists d'. apply Hk in Hd'. tauto.
      * exists (S j), k'. replace (i + S j) with (S i + j) by lia.
        split; assumption.
    + intros [[|j] [k' [Hj Hd]]]; simpl in Hj.
      * injection Hj as <-. rewrite Nat.add_0_r in Hd.
        destruct Hd as [-> | [d' [Hne [Hn ->]]]]; [left; reflexivity|].
        right; left. exists d'. split; [reflexivity|]. apply Hk. tauto.
      * right; right. exists j, k'. replace (S i + j) with (i + S j) by lia.
        split; assumption.
Qed.

Lemma in_rel_descendants (e : elem) (d : path) :
  In d (rel_descendants e) <-> d <> [] /\ node_at e d <> None.
Proof.
  revert d. induction e as [t ks IH] using elem_induction. intros d.
  rewrite rel_descendants_unfold, (in_descendants_from ks IH 0 d). simpl.
  split.
  - intros [j [k [Hj [-> | [d' [Hne [Hn ->]]]]]]].
    + split; [discriminate|]. simpl. rewrite Hj. discriminate.
    + split; [destruct d'; discriminate|].
      rewrite node_at_app. simpl. rewrite Hj. assumption.
  - intros [Hne Hn].
    destruct (exists_last Hne) as [d' [j ->]].
    rewrite node_at_app in Hn. simpl in Hn.
    destruct (nth_error ks j) as [k|] eqn:Hj; [|congruence].
    exists j, k. split; [assumption|].
    destruct d' as [|x d']; [left; reflexivity|].
    right. exists (x :: d'). split; [discriminate|]. split; [assumption | reflexivity].
Qed.

Lemma in_descendants (doc : elem) (p x : path) :
  In x (descendants doc p) <->
  exists d, d <> [] /\ x = d ++ p /\ node_at doc x <> None.
Proof.
  unfold descendants. split.
  - destruct (node_at doc p) as [e|] eqn:He; [|intros []].
    rewrite in_map_iff. intros [d [<- Hd]]. apply in_rel_descendants in Hd.
    exists d. rewrite node_at_app, He. tauto.
  - intros [d [Hne [-> Hn]]]. rewrite node_at_app in Hn.
    destruct (node_at doc p) as [e|]; [|congruence].
    apply (in_map (fun d' => d' ++ p)), in_rel_descendants. tauto.
Qed.

Lemma in_sel (doc : elem) (t : tag) (p x : path) :
  In x (querySelectorAll doc (Sel t) p) <->
  exists d, d <> [] /\ x = d ++ p /\ matches doc t x = true.
Proof.
  simpl. rewrite filter_In, in_descendants. split.
  - intros [[d [Hne [-> _]]] Hm]. exists d. auto.
  - intros [d [Hne [-> Hm]]]. split; [|assumption].
    exists d. split; [assumption|]. split; [reflexivity|].
    unfold matches in Hm. destruct (node_at doc (d ++ p)); congruence.
Qed.

Lemma closest_self (doc : elem) (t : tag) (p : path) :
  matches doc t p = true -> closest doc t p = Some p.
Proof. intros H. destruct p; simpl; rewrite H; reflexivity. Qed.

Lemma closest_step (doc : elem) (t : tag) (i : nat) (p : path) :
  matches doc t (i :: p) = false -> closest doc t (i :: p) = closest doc t p.
Proof. intros H. simpl closest. rewrite H. reflexivity. Qed.

Lemma closest_found (doc : elem) (t : tag) (p q : path) :
  closest doc t p = Some q ->
  matches doc t q = true /\ exists d, p = d ++ q.
Proof.
  induction p as [|i p IH]; simpl.
  - destruct (matches doc t []) eqn:Hm; [|discriminate].
    intros [= <-]. split; [assumption | exists []; reflexivity].
  - destruct (matches doc t (i :: p)) eqn:Hm.
    + intros [= <-]. split; [assumption | exists []; reflexivity].
    + intros H. destruct (IH H) as [Hq [d ->]].
      split; [assumption | exists (i :: d); reflexivity].
Qed.

Lemma closest_length (doc : elem) (t : tag) (p q : path) :
  closest doc t p = Some q -> length q <= length p.
Proof.
  intros H. apply closest_found in H. destruct H as [_ [d ->]].
  rewrite length_app. lia.
Qed.

Lemma closest_other_tag (doc : elem) (t t' : tag) (i : nat) (p : path) :
  matches doc t' (i :: p) = true -> t' <> t ->
  closest doc t (i :: p) = closest doc t p.
Proof.
  intros Hm Hne. apply closest_step.
  destruct (matches doc t (i :: p)) eqn:H; [|reflexivity].
  exfalso. apply Hne. exact (matches_unique _ _ _ _ Hm H).
Qed.

Lemma head_in {A : Type} (l : list A) (x : A) : head l = Some x -> In x l.
Proof. destruct l; simpl; [discriminate | intros [= ->]; left; reflexivity]. Qed.

(* ================================================================== *)
(** ** Immediate children                                               *)
(* ================================================================== *)

Section Relations.

Variable doc : elem.

Lemma in_findChildCheckboxes (N c : path) :
  In c (_findChildCheckboxes doc N) ->
  exists li k a j,
    closest doc LI N = Some li /\ c = j :: a :: k :: li /\
    matches doc UL (k :: li) = true /\
    matches doc LI (a :: k :: li) = true /\
    matches doc INPUT c = true.
Proof.
  unfold _findChildCheckboxes.
  destruct (closest doc LI N) as [li|]; [|intros []].
  destruct (querySelector doc (ScopeChild UL) li) as [ul|] eqn:Hul; [|intros []].
  apply head_in, in_scope_child in Hul. destruct Hul as [k [-> Hk]].
  intros Hc. apply in_scope_grandchild in Hc. destruct Hc as [j [a [-> [Ha Hj]]]].
  exists li, k, a, j. auto.
Qed.

(** A checkbox is never among its own immediate children. *)
Lemma findChildCheckboxes_irrefl (N : path) :
  ~ In N (_findChildCheckboxes doc N).
Proof.
  intros H. apply in_findChildCheckboxes in H.
  destruct H as [li [k [a [j [Hli [-> [_ [Ha Hj]]]]]]]].
  rewrite (closest_other_tag doc LI INPUT j _ Hj) in Hli by discriminate.
  rewrite (closest_self _ _ _ Ha) in Hli. injection Hli as Hli.
  apply (f_equal (@length nat)) in Hli. simpl in Hli. lia.
Qed.

Lemma findChildCheckboxes_length (N c : path) :
  In c (_findChildCheckboxes doc N) -> length c <= 3 + length N.
Proof.
  intros H. apply in_findChildCheckboxes in H.
  destruct H as [li [k [a [j [Hli [-> _]]]]]].
  apply closest_length in Hli. simpl. lia.
Qed.

End Relations.

(* ================================================================== *)
(** ** Writes                                                           *)
(* ================================================================== *)

Lemma cbs_write (p q : path) (v : checkbox) (s : page) :
  cbs (write p v s) q = if path_eqb q p then v else cbs s q.
Proof. reflexivity. Qed.

Lemma cbs_write_same (p : path) (v : checkbox) (s : page) :
  cbs (write p v s) p = v.
Proof. rewrite cbs_write, path_eqb_refl. reflexivity. Qed.

Lemma cbs_write_other (p q : path) (v : checkbox) (s : page) :
  q <> p -> cbs (write p v s) q = cbs s q.
Proof. intros H. rewrite cbs_write, path_eqb_neq by assumption. reflexivity. Qed.

Lemma count_child_ext (st st' : store) (cs : list path) (acc : nat * nat) :
  (forall c, In c cs -> st c = st' c) ->
  fold_left (count_child st) cs acc = fold_left (count_child st') cs acc.
Proof.
  revert acc. induction cs as [|c cs IH]; intros acc H; simpl; [reflexivity|].
  unfold count_child at 2 4. rewrite (H c) by (left; reflexivity).
  apply IH. intros c' Hc'. apply H. right. assumption.
Qed.

Lemma rule_ext (st st' : store) (cs : list path) :
  (forall c, In c cs -> st c = st' c) -> rule st cs = rule st' cs.
Proof. intros H. unfold rule. rewrite (count_child_ext st st' cs _ H). reflexivity. Qed.

Section UpdateParent.

Variable doc : elem.

Lemma updateParentState_leaf (N : path) (s : page) :
  _findChildCheckboxes doc N = [] -> _updateParentState doc N s = s.
Proof. intros H. unfold _updateParentState. rewrite H. reflexivity. Qed.

Lemma updateParentState_write (N : path) (s : page) :
  _findChildCheckboxes doc N <> [] ->
  _updateParentState doc N s =
  write N (rule (cbs s) (_findChildCheckboxes doc N)) s.
Proof.
  intros H. unfold _updateParentState, rule.
  destruct (_findChildCheckboxes doc N) as [|c cs]; [congruence|].
  cbn [length Nat.eqb].
  destruct (fold_left (count_child (cbs s)) (c :: cs) (0, 0)). reflexivity.
Qed.

Lemma updateParentState_other (N q : path) (s : page) :
  q <> N -> cbs (_updateParentState doc N s) q = cbs s q.
Proof.
  intros Hq. destruct (_findChildCheckboxes doc N) as [|c cs] eqn:Hcs.
  - rewrite updateParentState_leaf by assumption. reflexivity.
  - rewrite updateParentState_write by congruence.
    apply cbs_write_other. assumption.
Qed.

Lemma updateParentState_self (N : path) (s : page) :
  _findChildCheckboxes doc N <> [] ->
  cbs (_updateParentState doc N s) N = rule (cbs s) (_findChildCheckboxes doc N).
Proof.
  intros H. rewrite updateParentState_write by assumption.
  apply cbs_write_same.
Qed.

Lemma updateParentState_children (N c : path) (s : page) :
  In c (_findChildCheckboxes doc N) ->
  cbs (_updateParentState doc N s) c = cbs s c.
Proof.
  intros Hc. apply updateParentState_other. intros ->.
  exact (findChildCheckboxes_irrefl doc N Hc).
Qed.

End UpdateParent.

(* ================================================================== *)
(** ** The parent-state rule                                            *)
(* ================================================================== *)

Section Rule.

Variable st : store.


Lemma count_child_totals (cs : list path) (c0 i0 : nat) :
  fold_left (count_child st) cs (c0, i0) =
  (c0 + length (filter (is_chk st) cs), i0 + length (filter (is_ind st) cs)).
Proof.
  revert c0 i0. induction cs as [|c cs IH]; intros c0 i0; simpl.
  - f_equal; lia.
  - unfold is_chk at 1, is_ind at 1.
    destruct (indeterminate (st c)); [|destruct (checked (st c))];
      simpl; rewrite IH; f_equal; simpl; lia.
Qed.

Lemma rule_counts (cs : list path) :
  rule st cs =
  parent_value (length (filter (is_chk st) cs)) (length (filter (is_ind st) cs)) (length cs).
Proof. unfold rule. rewrite count_child_totals. reflexivity. Qed.

Lemma filter_none {A : Type} (f : A -> bool) (l : list A) :
  length (filter f l) = 0 <-> forall x, In x l -> f x = false.
Proof.
  induction l as [|a l IH]; simpl.
  - split; [intros _ x [] | reflexivity].
  - destruct (f a) eqn:Ha; simpl.
    + split; [discriminate | intros H; specialize (H a (or_introl eq_refl)); congruence].
    + rewrite IH. split.
      * intros H x [<- | Hx]; [assumption | apply H; assumption].
      * intros H x Hx. apply H. right. assumption.
Qed.

Lemma filter_every {A : Type} (f : A -> bool) (l : list A) :
  length (filter f l) = length l <-> forall x, In x l -> f x = true.
Proof.
  induction l as [|a l IH]; simpl.
  - split; [intros _ x [] | reflexivity].
  - pose proof (filter_length_le f l) as Hle.
    destruct (f a) eqn:Ha; simpl.
    + split.
      * intros H x [<- | Hx]; [assumption|]. apply IH; [lia | assumption].
      * intros H. f_equal. apply IH. intros x Hx. apply H. right. assumption.
    + split; [lia | intros H; specialize (H a (or_introl eq_refl)); congruence].
Qed.

Lemma filter_some {A : Type} (f : A -> bool) (l : list A) :
  0 < length (filter f l) <-> exists x, In x l /\ f x = true.
Proof.
  split.
  - intros H. destruct (filter f l) as [|x l'] eqn:E; [simpl in H; lia|].
    exists x. apply filter_In. rewrite E. left. reflexivity.
  - intros [x Hx]. apply filter_In in Hx.
    destruct (filter f l); [destruct Hx | simpl; lia].
Qed.

Lemma filter_not_every {A : Type} (f : A -> bool) (l : list A) :
  length (filter f l) < length l <-> exists x, In x l /\ f x = false.
Proof.
  split.
  - induction l as [|a l IH]; simpl; [lia|].
    destruct (f a) eqn:Ha; simpl.
    + intros H. destruct IH as [x [Hx Hf]]; [lia|]. exists x. auto.
    + intros _. exists a. auto.
  - intros [x [Hx Hf]]. pose proof (filter_length_le f l) as Hle.
    destruct (Nat.eq_dec (length (filter f l)) (length l)) as [E|E]; [|lia].
    rewrite filter_every in E. rewrite (E x Hx) in Hf. discriminate.
Qed.

Lemma all_checked_count (cs : list path) :
  length (filter (is_chk st) cs) = length cs <-> all_checked st cs.
Proof.
  rewrite filter_every. unfold all_checked, is_chk. split; intros H c Hc.
  - specialize (H c Hc). destruct (indeterminate (st c)), (checked (st c));
      simpl in H; try discriminate. auto.
  - destruct (H c Hc) as [-> ->]. reflexivity.
Qed.

Lemma some_indeterminate_count (cs : list path) :
  0 < length (filter (is_ind st) cs) <-> some_indeterminate st cs.
Proof. rewrite filter_some. reflexivity. Qed.

Lemma partly_checked_count (cs : list path) :
  length (filter (is_ind st) cs) = 0 ->
  (0 < length (filter (is_chk st) cs) /\ length (filter (is_chk st) cs) < length cs
   <-> partly_checked st cs).
Proof.
  intros Hi. rewrite filter_none in Hi. unfold is_ind in Hi.
  rewrite filter_some, filter_not_every. unfold partly_checked, is_chk.
  split; intros [[c [Hc H1]] [c' [Hc' H2]]]; (split; [exists c | exists c']);
    (split; [assumption|]).
  - rewrite (Hi c Hc) in H1. exact H1.
  - rewrite (Hi c' Hc') in H2. exact H2.
  - rewrite (Hi c Hc). exact H1.
  - rewrite (Hi c' Hc'). exact H2.
Qed.

(** The value the code computes is the one the rule of the specification
    describes. *)
Lemma rule_meaning (cs : list path) :
  cs <> [] ->
  (checked (rule st cs) = true <-> all_checked st cs) /\
  (indeterminate (rule st cs) = true <->
   some_indeterminate st cs \/ partly_checked st cs).
Proof.
  intros Hne. rewrite rule_counts. unfold parent_value.
  pose proof (all_checked_count cs) as Hall.
  pose proof (some_indeterminate_count cs) as Hsome.
  pose proof (partly_checked_count cs) as Hpart.
  assert (Hlen : 0 < length cs) by (destruct cs; [congruence | simpl; lia]).
  set (nc := length (filter (is_chk st) cs)) in *.
  set (ni := length (filter (is_ind st) cs)) in *.
  assert (Hexcl : all_checked st cs ->
                  some_indeterminate st cs \/ partly_checked st cs -> False).
  { intros Ha [[c [Hc Hi]] | [_ [c [Hc Hu]]]]; destruct (Ha c Hc); congruence. }
  destruct (0 <? ni) eqn:Hni; simpl.
  - apply Nat.ltb_lt in Hni.
    split; split; try discriminate; try reflexivity.
    + intros Ha. exfalso. apply (Hexcl Ha). left. apply Hsome. assumption.
    + intros _. left. apply Hsome. assumption.
  - apply Nat.ltb_ge in Hni. assert (Hz : ni = 0) by lia. specialize (Hpart Hz).
    assert (Hnosome : ~ some_indeterminate st cs) by (rewrite <- Hsome; lia).
    destruct ((0 <? nc) && (nc <? length cs)) eqn:Hmid.
    + apply andb_true_iff in Hmid. destruct Hmid as [H1 H2].
      apply Nat.ltb_lt in H1, H2. simpl.
      split; split; try discriminate; try reflexivity.
      * intros Ha. exfalso. apply (Hexcl Ha). right. apply Hpart. lia.
      * intros _. right. apply Hpart. lia.
    + assert (Hnopart : ~ partly_checked st cs).
      { rewrite <- Hpart. intros [H1 H2].
        apply Nat.ltb_lt in H1, H2. rewrite H1, H2 in Hmid. discriminate. }
      destruct (nc =? length cs) eqn:Heq; simpl.
      * apply Nat.eqb_eq in Heq. split; split; try discriminate; try reflexivity.
        -- intros _. apply Hall. assumption.
        -- tauto.
      * apply Nat.eqb_neq in Heq. split; split; try discriminate.
        -- intros Ha. apply Hall in Ha. contradiction.
        -- tauto.
Qed.

Lemma rule_correct (N : path) (cs : list path) :
  cs <> [] -> st N = rule st cs -> parent_from_children st N cs.
Proof.
  intros Hne HN. unfold parent_from_children. rewrite HN.
  apply rule_meaning. assumption.
Qed.

Lemma rule_unique (N : path) (cs : list path) :
  cs <> [] -> parent_from_children st N cs -> st N = rule st cs.
Proof.
  intros Hne [Hc Hi]. destruct (rule_meaning cs Hne) as [Hc' Hi'].
  rewrite <- Hc in Hc'. rewrite <- Hi in Hi'.
  destruct (st N) as [c i], (rule st cs) as [c' i']. simpl in *.
  f_equal.
  - destruct c, c'; try reflexivity; [symmetry|]; tauto.
  - destruct i, i'; try reflexivity; [symmetry|]; tauto.
Qed.

Lemma rule_exclusive (cs : list path) : exclusive (rule st cs).
Proof.
  rewrite rule_counts. unfold parent_value, exclusive.
  destruct (_ || _); [|destruct (_ =? _)]; simpl; intros [H1 H2]; discriminate.
Qed.

End Rule.

(* ================================================================== *)
(** ** Consequences of the structural contract                          *)
(* ================================================================== *)

Lemma within_spec (root p : path) :
  within root p = true <-> exists d, p = d ++ root.
Proof.
  unfold within. split.
  - intros H. destruct (path_eqb_spec (skipn (length p - length root) p) root) as [E|]; [|discriminate].
    exists (firstn (length p - length root) p).
    rewrite <- E at 2. symmetry. apply firstn_skipn.
  - intros [d ->]. rewrite length_app.
    replace (length d + length root - length root) with (length d) by lia.
    rewrite skipn_app, skipn_all, Nat.sub_diag. simpl. apply path_eqb_refl.
Qed.

Lemma within_cons (root p : path) (i : nat) :
  within root p = true -> within root (i :: p) = true.
Proof.
  rewrite !within_spec. intros [d ->]. exists (i :: d). reflexivity.
Qed.

Lemma within_length (root p : path) :
  within root p = true -> length root <= length p.
Proof. rewrite within_spec. intros [d ->]. rewrite length_app. lia. Qed.

Lemma wf_list_items (t : tag) (items : list elem) :
  wf_list (Elem t items) = true -> t = UL /\ forallb wf_item items = true.
Proof. destruct t; simpl; try discriminate. intros H. split; [reflexivity | exact H]. Qed.

Lemma wf_item_parts (t : tag) (ks : list elem) :
  wf_item (Elem t ks) = true ->
  t = LI /\ count_tag INPUT ks = 1 /\ count_tag UL ks <= 1 /\
  forallb wf_part ks = true.
Proof.
  destruct t; simpl; try discriminate. intros H.
  apply andb_true_iff in H. destruct H as [H H3].
  apply andb_true_iff in H. destruct H as [H1 H2].
  apply Nat.eqb_eq in H1. apply Nat.leb_le in H2. auto.
Qed.

Lemma plain_parts (t : tag) (ks : list elem) :
  plain (Elem t ks) = true -> t = OTHER /\ forallb plain ks = true.
Proof.
  simpl. intros H. apply andb_true_iff in H. destruct H as [H1 H2].
  apply tag_eqb_eq in H1. auto.
Qed.

Lemma forallb_nth {A : Type} (f : A -> bool) (l : list A) (i : nat) (x : A) :
  forallb f l = true -> nth_error l i = Some x -> f x = true.
Proof.
  intros H Hi. rewrite forallb_forall in H. apply H.
  exact (nth_error_In l i Hi).
Qed.

Lemma plain_below (e : elem) (d : path) (x : elem) :
  plain e = true -> node_at e d = Some x -> plain x = true.
Proof.
  intros He. revert x. induction d as [|i d IH]; simpl; intros x.
  - intros [= <-]. assumption.
  - destruct (node_at e d) as [pe|]; [|discriminate]. intros Hx.
    specialize (IH pe eq_refl). destruct pe as [t ks].
    apply plain_parts in IH. destruct IH as [_ Hks].
    exact (forallb_nth _ _ _ _ Hks Hx).
Qed.

Lemma leaf_no_descendants (t : tag) (d : path) (x : elem) :
  node_at (Elem t []) d = Some x -> d = [].
Proof.
  revert x. induction d as [|a d IH]; intros x Hx; [reflexivity|].
  apply node_at_parent in Hx. destruct Hx as [pe [Hpe Ha]].
  specialize (IH pe Hpe). subst d. simpl in Hpe. injection Hpe as <-.
  destruct a; discriminate.
Qed.

(** The number of children of [p] that match [t] is the number of
    [t]-tagged entries of its child list. *)
Lemma scope_child_count_from (doc : elem) (t : tag) (p : path) (ks all : list elem)
    (i : nat) :
  (forall j, nth_error ks j = nth_error all (i + j)) ->
  (exists t0, node_at doc p = Some (Elem t0 all)) ->
  length (filter (matches doc t) (map (fun j => j :: p) (seq i (length ks))))
  = count_tag t ks.
Proof.
  intros Hnth [t0 Hp]. revert i Hnth.
  induction ks as [|k ks IH]; intros i Hnth; [reflexivity|].
  unfold count_tag in *. cbn [length seq map filter].
  assert (Hk : matches doc t (i :: p) = tag_eqb (tagName k) t).
  { unfold matches. simpl. rewrite Hp. simpl.
    specialize (Hnth 0). rewrite Nat.add_0_r in Hnth. simpl in Hnth.
    rewrite <- Hnth. reflexivity. }
  rewrite Hk.
  assert (IH' := IH (S i)).
  destruct (tag_eqb (tagName k) t); cbn [length]; rewrite IH'; try reflexivity;
    intros j; specialize (Hnth (S j)); simpl in Hnth;
    rewrite Hnth; f_equal; lia.
Qed.

Lemma scope_child_count (doc : elem) (t t0 : tag) (p : path) (ks : list elem) :
  node_at doc p = Some (Elem t0 ks) ->
  length (querySelectorAll doc (ScopeChild t) p) = count_tag t ks.
Proof.
  intros Hp. simpl. unfold children_of. rewrite Hp. simpl.
  apply (scope_child_count_from doc t p ks ks 0).
  - intros j. reflexivity.
  - exists t0. assumption.
Qed.

Lemma at_most_one {A : Type} (l : list A) (x : A) :
  length l <= 1 -> In x l -> l = [x].
Proof.
  destruct l as [|a [|b l]]; simpl; intros Hl Hx.
  - destruct Hx.
  - destruct Hx as [-> | []]. reflexivity.
  - lia.
Qed.

Section Tree.

Variable doc : elem.
Variable root : path.
Hypothesis Hok : list_ok doc root = true.

Lemma root_list : exists r, node_at doc root = Some r /\ wf_list r = true.
Proof.
  unfold list_ok in Hok.
  destruct (node_at doc root) as [r|]; [|discriminate]. exists r. auto.
Qed.

Lemma root_is_list : matches doc UL root = true.
Proof.
  destruct root_list as [r [Hr Hwf]]. apply matches_tag. exists r.
  split; [assumption|]. destruct r as [t items].
  apply wf_list_items in Hwf. destruct Hwf as [-> _]. reflexivity.
Qed.

(** Below the root the tag of an element tells its shape. *)
Lemma kind_at (d : path) (e : elem) :
  node_at doc (d ++ root) = Some e ->
  match tagName e with
  | UL => wf_list e = true
  | LI => wf_item e = true
  | INPUT => e = Elem INPUT []
  | OTHER => plain e = true
  end.
Proof.
  revert e. induction d as [|i d IH]; intros e He.
  - simpl in He. destruct root_list as [r [Hr Hwf]].
    rewrite Hr in He. injection He as <-. destruct r as [t items].
    destruct (wf_list_items _ _ Hwf) as [-> _]. exact Hwf.
  - apply node_at_parent in He. destruct He as [pe [Hpe Hi]].
    specialize (IH pe Hpe). destruct pe as [pt ks]. cbn [tagName children] in Hi, IH.
    destruct pt.
    + apply wf_list_items in IH. destruct IH as [_ Hitems].
      pose proof (forallb_nth _ _ _ _ Hitems Hi) as Hwf.
      destruct e as [t ks']. destruct (wf_item_parts _ _ Hwf) as [-> _]. exact Hwf.
    + apply wf_item_parts in IH. destruct IH as [_ [_ [_ Hparts]]].
      pose proof (forallb_nth _ _ _ _ Hparts Hi) as Hwf.
      destruct e as [[] ks']; simpl in *; try assumption; try discriminate.
      destruct ks'; [reflexivity | discriminate].
    + injection IH as ->. destruct i; discriminate.
    + apply plain_parts in IH. destruct IH as [_ Hks].
      pose proof (forallb_nth _ _ _ _ Hks Hi) as Hpl.
      destruct e as [t ks']. destruct (plain_parts _ _ Hpl) as [-> _]. exact Hpl.
Qed.

(** What the parent of an element below the root can be. *)
Lemma parent_tag (i : nat) (d : path) (e pe : elem) :
  node_at doc (d ++ root) = Some pe ->
  nth_error (children pe) i = Some e ->
  match tagName e with
  | UL => tagName pe = LI
  | LI => tagName pe = UL
  | INPUT => tagName pe = LI
  | OTHER => tagName pe = LI \/ tagName pe = OTHER
  end.
Proof.
  intros Hpe Hi. pose proof (kind_at d pe Hpe) as Hk.
  destruct pe as [pt ks]. cbn [tagName children] in Hi, Hk |- *. destruct pt.
  - apply wf_list_items in Hk. destruct Hk as [_ Hitems].
    pose proof (forallb_nth _ _ _ _ Hitems Hi) as Hwf.
    destruct e as [t ks']. destruct (wf_item_parts _ _ Hwf) as [-> _]. reflexivity.
  - apply wf_item_parts in Hk. destruct Hk as [_ [_ [_ Hparts]]].
    pose proof (forallb_nth _ _ _ _ Hparts Hi) as Hwf.
    destruct e as [[] ks']; simpl in *; auto; discriminate.
  - injection Hk as ->. destruct i; discriminate.
  - apply plain_parts in Hk. destruct Hk as [_ Hks].
    pose proof (forallb_nth _ _ _ _ Hks Hi) as Hpl.
    destruct e as [t ks']. destruct (plain_parts _ _ Hpl) as [-> _].
    simpl. auto.
Qed.

Lemma step_up (t : tag) (x : path) :
  within root x = true -> x <> root -> matches doc t x = true ->
  exists i l e pe,
    x = i :: l /\ within root l = true /\
    node_at doc l = Some pe /\ nth_error (children pe) i = Some e /\
    tagName e = t.
Proof.
  intros Hw Hne Hm. apply within_spec in Hw. destruct Hw as [d ->].
  destruct d as [|i d]; [exfalso; apply Hne; reflexivity|].
  apply matches_tag in Hm. destruct Hm as [e [He Ht]].
  destruct (node_at_parent _ _ _ _ He) as [pe [Hpe Hi]].
  exists i, (d ++ root), e, pe. repeat split; try assumption.
  apply within_spec. exists d. reflexivity.
Qed.

Lemma not_root (t : tag) (x : path) :
  matches doc t x = true -> t <> UL -> x <> root.
Proof.
  intros Hm Ht ->. apply Ht. exact (matches_unique _ _ _ _ Hm root_is_list).
Qed.

Lemma box_item (x : path) :
  within root x = true -> matches doc INPUT x = true ->
  exists i l, x = i :: l /\ matches doc LI l = true /\ within root l = true.
Proof.
  intros Hw Hm.
  destruct (step_up INPUT x Hw (not_root _ _ Hm ltac:(discriminate)) Hm)
    as [i [l [e [pe [-> [Hl [Hpe [Hi Ht]]]]]]]].
  exists i, l. repeat split; try assumption.
  apply within_spec in Hl. destruct Hl as [d ->].
  pose proof (parent_tag i d e pe Hpe Hi) as Hp. rewrite Ht in Hp.
  apply matches_tag. exists pe. auto.
Qed.

Lemma item_list (l : path) :
  within root l = true -> matches doc LI l = true ->
  exists a u, l = a :: u /\ matches doc UL u = true /\ within root u = true.
Proof.
  intros Hw Hm.
  destruct (step_up LI l Hw (not_root _ _ Hm ltac:(discriminate)) Hm)
    as [a [u [e [pe [-> [Hu [Hpe [Hi Ht]]]]]]]].
  exists a, u. repeat split; try assumption.
  apply within_spec in Hu. destruct Hu as [d ->].
  pose proof (parent_tag a d e pe Hpe Hi) as Hp. rewrite Ht in Hp.
  apply matches_tag. exists pe. auto.
Qed.

Lemma list_item (u : path) :
  within root u = true -> matches doc UL u = true -> u <> root ->
  exists k l, u = k :: l /\ matches doc LI l = true /\ within root l = true.
Proof.
  intros Hw Hm Hne.
  destruct (step_up UL u Hw Hne Hm) as [k [l [e [pe [-> [Hl [Hpe [Hi Ht]]]]]]]].
  exists k, l. repeat split; try assumption.
  apply within_spec in Hl. destruct Hl as [d ->].
  pose proof (parent_tag k d e pe Hpe Hi) as Hp. rewrite Ht in Hp.
  apply matches_tag. exists pe. auto.
Qed.

Lemma item_parts (l : path) :
  within root l = true -> matches doc LI l = true ->
  exists ks, node_at doc l = Some (Elem LI ks) /\
             count_tag INPUT ks = 1 /\ count_tag UL ks <= 1 /\
             forallb wf_part ks = true.
Proof.
  intros Hw Hm. apply within_spec in Hw. destruct Hw as [d ->].
  apply matches_tag in Hm. destruct Hm as [e [He Ht]].
  pose proof (kind_at d e He) as Hk. rewrite Ht in Hk.
  destruct e as [t ks]. destruct (wf_item_parts _ _ Hk) as [-> H].
  exists ks. split; [assumption | exact H].
Qed.

(** An item has exactly one checkbox of its own ... *)
Lemma item_checkbox (l : path) :
  within root l = true -> matches doc LI l = true ->
  exists i, querySelectorAll doc (ScopeChild INPUT) l = [i :: l] /\
            matches doc INPUT (i :: l) = true.
Proof.
  intros Hw Hm. destruct (item_parts l Hw Hm) as [ks [Hl [H1 _]]].
  pose proof (scope_child_count doc INPUT LI l ks Hl) as Hlen. rewrite H1 in Hlen.
  destruct (querySelectorAll doc (ScopeChild INPUT) l) as [|x [|y rest]] eqn:E;
    try discriminate.
  assert (Hx : In x (querySelectorAll doc (ScopeChild INPUT) l))
    by (rewrite E; left; reflexivity).
  apply in_scope_child in Hx. destruct Hx as [i [-> Hi]]. exists i. auto.
Qed.

Lemma item_checkbox_unique (l : path) (i : nat) :
  within root l = true -> matches doc LI l = true ->
  matches doc INPUT (i :: l) = true ->
  querySelectorAll doc (ScopeChild INPUT) l = [i :: l].
Proof.
  intros Hw Hm Hi. destruct (item_parts l Hw Hm) as [ks [Hl [H1 _]]].
  pose proof (scope_child_count doc INPUT LI l ks Hl) as Hlen. rewrite H1 in Hlen.
  apply at_most_one; [lia|]. apply in_scope_child. exists i. auto.
Qed.

(** ... and at most one list. *)
Lemma item_sublist_unique (l : path) (k : nat) :
  within root l = true -> matches doc LI l = true ->
  matches doc UL (k :: l) = true ->
  querySelectorAll doc (ScopeChild UL) l = [k :: l].
Proof.
  intros Hw Hm Hk. destruct (item_parts l Hw Hm) as [ks [Hl [_ [H2 _]]]].
  pose proof (scope_child_count doc UL LI l ks Hl) as Hlen.
  apply at_most_one; [lia|]. apply in_scope_child. exists k. auto.
Qed.

(** Every list below the root is a well-formed list in its own right. *)
Lemma sublist_ok (u : path) :
  within root u = true -> matches doc UL u = true -> list_ok doc u = true.
Proof.
  intros Hw Hm. apply within_spec in Hw. destruct Hw as [d ->].
  apply matches_tag in Hm. destruct Hm as [e [He Ht]].
  pose proof (kind_at d e He) as Hk. rewrite Ht in Hk.
  unfold list_ok. rewrite He. exact Hk.
Qed.

Lemma closest_of_box (i : nat) (l : path) :
  matches doc INPUT (i :: l) = true -> matches doc LI l = true ->
  closest doc LI (i :: l) = Some l.
Proof.
  intros Hi Hl. rewrite (closest_other_tag doc LI INPUT i l Hi) by discriminate.
  apply closest_self. assumption.
Qed.

Lemma closest_of_list (k : nat) (l : path) :
  matches doc UL (k :: l) = true -> matches doc LI l = true ->
  closest doc LI (k :: l) = Some l.
Proof.
  intros Hk Hl. rewrite (closest_other_tag doc LI UL k l Hk) by discriminate.
  apply closest_self. assumption.
Qed.

End Tree.

Lemma structure_ok_list (doc : elem) (root : path) :
  structure_ok doc root = true -> list_ok doc root = true.
Proof. unfold structure_ok. intros H. apply andb_true_iff in H. apply H. Qed.

Lemma root_not_enclosed (doc : elem) (root : path) :
  structure_ok doc root = true -> closest doc LI root = None.
Proof.
  unfold structure_ok. intros H. apply andb_true_iff in H. destruct H as [_ H].
  destruct (closest doc LI root); [discriminate | reflexivity].
Qed.

(* ================================================================== *)
(** ** The first list below an item                                     *)
(* ================================================================== *)

Lemma filter_nothing {A : Type} (f : A -> bool) (l : list A) :
  (forall x, In x l -> f x = false) -> filter f l = [].
Proof.
  induction l as [|a l IH]; intros H; simpl; [reflexivity|].
  rewrite (H a) by (left; reflexivity). apply IH.
  intros x Hx. apply H. right. assumption.
Qed.

Lemma head_map {A B : Type} (f : A -> B) (l : list A) :
  head (map f l) = option_map f (head l).
Proof. destruct l; reflexivity. Qed.

(** In document order the first element matching [t] below a node is
    its first child matching [t], as long as no other child has such an
    element inside it. *)
Lemma first_match_from (t : tag) (P : path -> bool) (ks : list elem) :
  forall i,
    (forall j k, nth_error ks j = Some k -> P [i + j] = tag_eqb (tagName k) t) ->
    (forall j k d', nth_error ks j = Some k -> tag_eqb (tagName k) t = false ->
                    In d' (rel_descendants k) -> P (d' ++ [i + j]) = false) ->
    head (filter P (descendants_from i ks)) =
    head (filter P (map (fun j => [j]) (seq i (length ks)))).
Proof.
  induction ks as [|k ks IH]; intros i H1 H2; [reflexivity|].
  cbn [descendants_from length seq map].
  rewrite <- app_comm_cons. cbn [filter].
  pose proof (H1 0 k eq_refl) as Hk. rewrite Nat.add_0_r in Hk. rewrite Hk.
  destruct (tag_eqb (tagName k) t) eqn:Ht; [reflexivity|].
  rewrite filter_app, (filter_nothing P (map _ _)).
  - simpl. apply IH.
    + intros j k' Hj. replace (S i + j) with (i + S j) by lia. apply H1. exact Hj.
    + intros j k' d' Hj. replace (S i + j) with (i + S j) by lia.
      apply (H2 (S j) k' d'). exact Hj.
  - intros x Hx. apply in_map_iff in Hx. destruct Hx as [d' [<- Hd']].
    pose proof (H2 0 k d' eq_refl Ht Hd') as Hf.
    rewrite Nat.add_0_r in Hf. exact Hf.
Qed.

(* ================================================================== *)
(** ** Parents, children and descendants in a well-formed tree          *)
(* ================================================================== *)

Section TreeRelations.

Variable doc : elem.
Variable root : path.
Hypothesis Hok : structure_ok doc root = true.

Lemma is_node_parts (N : path) :
  is_node doc root N = true <->
  matches doc INPUT N = true /\ within root N = true.
Proof. unfold is_node. apply andb_true_iff. Qed.

Lemma node_shape (N : path) :
  is_node doc root N = true ->
  exists i l, N = i :: l /\ matches doc LI l = true /\ within root l = true /\
              closest doc LI N = Some l.
Proof.
  rewrite is_node_parts. intros [Hm Hw].
  destruct (box_item doc root (structure_ok_list doc root Hok) N Hw Hm) as [i [l [-> [Hl Hwl]]]].
  exists i, l. repeat split; try assumption.
  apply closest_of_box; assumption.
Qed.

Lemma node_item (i : nat) (l : path) :
  is_node doc root (i :: l) = true ->
  matches doc INPUT (i :: l) = true /\ matches doc LI l = true /\
  within root l = true /\ closest doc LI (i :: l) = Some l.
Proof.
  intros HN. pose proof HN as HN'. apply is_node_parts in HN'. destruct HN' as [Hm _].
  destruct (node_shape _ HN) as [i' [l' [E [Hl [Hw Hc]]]]].
  injection E as -> ->. auto.
Qed.

Lemma first_list_is_child (l : path) :
  within root l = true -> matches doc LI l = true ->
  querySelector doc (Sel UL) l = querySelector doc (ScopeChild UL) l.
Proof.
  intros Hw Hm. destruct (item_parts doc root (structure_ok_list doc root Hok) l Hw Hm) as [ks [Hl [_ [_ Hparts]]]].
  unfold querySelector, querySelectorAll, descendants, children_of.
  rewrite Hl. cbn [children].
  rewrite rel_descendants_unfold.
  replace (map (fun i => i :: l) (seq 0 (length ks)))
    with (map (fun d => d ++ l) (map (fun j => [j]) (seq 0 (length ks))))
    by (rewrite map_map; reflexivity).
  do 2 rewrite filter_map_swap. rewrite !head_map. f_equal.
  apply (first_match_from UL).
  - intros j k Hj. unfold matches. simpl. rewrite Hl. simpl. rewrite Hj. reflexivity.
  - intros j k d' Hj Ht Hd'. rewrite <- app_assoc. cbn [app Nat.add].
    unfold matches. rewrite node_at_app. cbn [node_at]. rewrite Hl.
    cbn [children]. rewrite Hj.
    apply in_rel_descendants in Hd'. destruct Hd' as [Hne Hn].
    destruct (node_at k d') as [x|] eqn:Hx; [|reflexivity].
    pose proof (forallb_nth _ _ _ _ Hparts Hj) as Hk.
    destruct k as [[] ks']; cbn [tagName tag_eqb] in Ht; unfold wf_part in Hk;
      try discriminate.
    + destruct ks'; [|discriminate].
      exfalso. apply Hne. exact (leaf_no_descendants _ _ _ Hx).
    + pose proof (plain_below _ _ _ Hk Hx) as Hpx. destruct x as [t0 ks0].
      destruct (plain_parts _ _ Hpx) as [-> _]. reflexivity.
Qed.

Lemma children_iff (i : nat) (l c : path) :
  is_node doc root (i :: l) = true ->
  (In c (_findChildCheckboxes doc (i :: l)) <->
   exists j a k, c = j :: a :: k :: l /\ matches doc UL (k :: l) = true /\
                 matches doc LI (a :: k :: l) = true /\
                 matches doc INPUT c = true).
Proof.
  intros HN. destruct (node_item i l HN) as [Hm [Hl [Hw Hc]]]. split.
  - intros H. apply in_findChildCheckboxes in H.
    destruct H as [li [k [a [j [Hli [-> [Hk [Ha Hj]]]]]]]].
    rewrite Hc in Hli. injection Hli as <-. exists j, a, k. auto.
  - intros [j [a [k [-> [Hk [Ha Hj]]]]]].
    unfold _findChildCheckboxes. rewrite Hc. unfold querySelector.
    rewrite (item_sublist_unique doc root (structure_ok_list doc root Hok) l k Hw Hl Hk). simpl head.
    apply in_scope_grandchild. exists j, a. auto.
Qed.

Lemma child_is_node (N c : path) :
  is_node doc root N = true -> In c (_findChildCheckboxes doc N) ->
  is_node doc root c = true.
Proof.
  intros HN Hc. destruct (node_shape N HN) as [i [l [-> [Hl [Hw _]]]]].
  apply (children_iff i l c HN) in Hc. destruct Hc as [j [a [k [-> [_ [_ Hj]]]]]].
  apply is_node_parts. split; [assumption|]. repeat apply within_cons. assumption.
Qed.

Lemma child_length (N c : path) :
  is_node doc root N = true -> In c (_findChildCheckboxes doc N) ->
  length c = 2 + length N.
Proof.
  intros HN Hc. destruct (node_shape N HN) as [i [l [-> _]]].
  apply (children_iff i l c HN) in Hc. destruct Hc as [j [a [k [-> _]]]].
  reflexivity.
Qed.

Lemma parent_of_child (N c : path) :
  is_node doc root N = true -> In c (_findChildCheckboxes doc N) ->
  _findParentCheckbox doc c = Some N.
Proof.
  intros HN Hc. destruct (node_shape N HN) as [i [l [-> [Hl [Hw _]]]]].
  destruct (node_item i l HN) as [Hm _].
  apply (children_iff i l c HN) in Hc. destruct Hc as [j [a [k [-> [Hk [Ha Hj]]]]]].
  unfold _findParentCheckbox.
  rewrite (closest_of_box doc j _ Hj Ha). cbn [parentElement].
  rewrite (closest_of_list doc k l Hk Hl). unfold querySelector.
  rewrite (item_checkbox_unique doc root (structure_ok_list doc root Hok) l i Hw Hl Hm). reflexivity.
Qed.

Lemma child_of_parent (c P : path) :
  is_node doc root c = true -> _findParentCheckbox doc c = Some P ->
  is_node doc root P = true /\ In c (_findChildCheckboxes doc P).
Proof.
  intros Hc HP. destruct (node_shape c Hc) as [j [lc [-> [Hlc [Hwc Hcl]]]]].
  destruct (node_item j lc Hc) as [Hj _].
  destruct (item_list doc root (structure_ok_list doc root Hok) lc Hwc Hlc) as [a [u [-> [Hu Hwu]]]].
  unfold _findParentCheckbox in HP. rewrite Hcl in HP. cbn [parentElement] in HP.
  destruct (path_eq_dec u root) as [->|Hne].
  - rewrite (root_not_enclosed doc root Hok) in HP. discriminate.
  - destruct (list_item doc root (structure_ok_list doc root Hok) u Hwu Hu Hne) as [k [l [-> [Hl Hwl]]]].
    rewrite (closest_of_list doc k l Hu Hl) in HP.
    apply head_in, in_scope_child in HP. destruct HP as [i [-> Hi]].
    assert (HN : is_node doc root (i :: l) = true).
    { apply is_node_parts. split; [assumption | apply within_cons; assumption]. }
    split; [assumption|]. apply (children_iff i l _ HN). exists j, a, k. auto.
Qed.

(** A top-level checkbox has no parent. *)
Lemma top_level_no_parent (j a : nat) :
  is_node doc root (j :: a :: root) = true ->
  _findParentCheckbox doc (j :: a :: root) = None.
Proof.
  intros Hc. destruct (node_item j _ Hc) as [_ [_ [_ Hcl]]].
  unfold _findParentCheckbox. rewrite Hcl. cbn [parentElement].
  rewrite (root_not_enclosed doc root Hok). reflexivity.
Qed.

Lemma parent_shorter (c P : path) :
  is_node doc root c = true -> _findParentCheckbox doc c = Some P ->
  length c = 2 + length P.
Proof.
  intros Hc HP. destruct (child_of_parent c P Hc HP) as [HN Hin].
  apply child_length; assumption.
Qed.

End TreeRelations.

(* ================================================================== *)
(** ** Recomputing a sequence of parents                                *)
(* ================================================================== *)

Section Schedule.

Variable doc : elem.

Lemma update_all_cons (x : path) (L : list path) (s : page) :
  update_all doc (x :: L) s = update_all doc L (_updateParentState doc x s).
Proof. reflexivity. Qed.

Lemma update_all_app (L1 L2 : list path) (s : page) :
  update_all doc (L1 ++ L2) s = update_all doc L2 (update_all doc L1 s).
Proof. unfold update_all. apply fold_left_app. Qed.

Lemma update_all_other (L : list path) (s : page) (q : path) :
  ~ In q L -> cbs (update_all doc L s) q = cbs s q.
Proof.
  revert s. induction L as [|x L IH]; intros s Hq; [reflexivity|].
  rewrite update_all_cons, IH by (intros H; apply Hq; right; assumption).
  apply updateParentState_other. intros ->. apply Hq. left. reflexivity.
Qed.

(** If the sequence never comes back to a child of a checkbox after that
    checkbox (deepest first), every checkbox of the sequence ends up
    computed from the final states of its children. *)
Lemma update_all_consistent (L : list path) (s : page) :
  (forall N c, In N L -> In c (_findChildCheckboxes doc N) -> length N < length c) ->
  StronglySorted (fun a b => length b <= length a) L ->
  forall N, In N L -> consistent doc (cbs (update_all doc L s)) N.
Proof.
  revert s. induction L as [|x L IH]; intros s Hlen Hsorted N HN; [destruct HN|].
  apply StronglySorted_inv in Hsorted. destruct Hsorted as [Hs Hx].
  rewrite update_all_cons.
  destruct (in_dec path_eq_dec N L) as [Hin | Hnotin].
  - apply IH; try assumption. intros N' c HN'. apply Hlen. right. assumption.
  - destruct HN as [-> | HN]; [|contradiction].
    intros Hne. apply rule_correct; [assumption|].
    rewrite update_all_other by assumption.
    rewrite updateParentState_self by assumption.
    apply rule_ext. intros c Hc. symmetry.
    rewrite update_all_other.
    + apply updateParentState_children. assumption.
    + intros Hin. rewrite Forall_forall in Hx. specialize (Hx c Hin).
      specialize (Hlen N c (or_introl eq_refl) Hc). lia.
Qed.

(** Recomputing checkboxes that already satisfy the rule changes nothing. *)
Lemma update_all_fixed (L : list path) (st : store) (s : page) :
  (forall N, In N L -> consistent doc st N) ->
  (forall p, cbs s p = st p) ->
  forall p, cbs (update_all doc L s) p = st p.
Proof.
  revert s. induction L as [|x L IH]; intros s Hcons Heq p; [apply Heq|].
  rewrite update_all_cons. apply IH.
  - intros N HN. apply Hcons. right. assumption.
  - intros q. destruct (path_eq_dec q x) as [->|Hq].
    + destruct (_findChildCheckboxes doc x) as [|c cs] eqn:Hcs.
      * rewrite updateParentState_leaf by assumption. apply Heq.
      * rewrite updateParentState_self by congruence. rewrite Hcs.
        rewrite (rule_ext (cbs s) st) by (intros; apply Heq).
        symmetry. apply rule_unique; [discriminate|].
        rewrite <- Hcs. apply Hcons; [left; reflexivity | congruence].
    + rewrite updateParentState_other by assumption. apply Heq.
Qed.

Lemma fold_left_flat_map {A B S : Type} (f : S -> B -> S) (g : A -> list B)
    (l : list A) (s : S) :
  fold_left f (flat_map g l) s = fold_left (fun s' x => fold_left f (g x) s') l s.
Proof.
  revert s. induction l as [|a l IH]; intros s; simpl; [reflexivity|].
  rewrite fold_left_app. apply IH.
Qed.

Lemma fold_left_same {A S : Type} (f g : S -> A -> S) (l : list A) (s : S) :
  (forall s' x, f s' x = g s' x) -> fold_left f l s = fold_left g l s.
Proof.
  intros H. revert s. induction l as [|a l IH]; intros s; simpl; [reflexivity|].
  rewrite H. apply IH.
Qed.

Lemma initializeState_owners (root : path) (s : page) :
  _initializeState doc root s = update_all doc (owners doc (sortedUls doc root)) s.
Proof.
  unfold _initializeState, update_all, owners. rewrite fold_left_flat_map.
  apply fold_left_same. intros s' ul. unfold update_level.
  destruct (parentElement ul); reflexivity.
Qed.

Lemma ancestors_loop_update_all (fuel : nat) (c : path) (s : page) :
  ancestors_loop doc fuel c s = update_all doc (ancestors doc fuel c) s.
Proof.
  revert c s. induction fuel as [|fuel IH]; intros c s; simpl; [reflexivity|].
  destruct (_findParentCheckbox doc c) as [P|]; [|reflexivity].
  rewrite update_all_cons. apply IH.
Qed.

End Schedule.

(* ================================================================== *)
(** ** Depth and the order of initialization                            *)
(* ================================================================== *)

Lemma depth_loop_length (n : nat) (p : path) : depth_loop n p = n + length p.
Proof.
  revert n. induction p as [|i p IH]; intros n; simpl; [lia|].
  rewrite IH. lia.
Qed.

Lemma getElementDepth_length (p : path) : _getElementDepth p = length p.
Proof. unfold _getElementDepth. rewrite depth_loop_length. reflexivity. Qed.

Lemma deepest_first_le (x y : path) :
  (deepest_first x y <=? 0)%Z = (length y <=? length x).
Proof.
  unfold deepest_first. rewrite !getElementDepth_length.
  destruct (length y <=? length x) eqn:E.
  - apply Nat.leb_le in E. apply Z.leb_le. lia.
  - apply Nat.leb_gt in E. apply Z.leb_gt. lia.
Qed.

Lemma sort_insert_perm (cmp : path -> path -> Z) (x : path) (l : list path) :
  Permutation (sort_insert cmp x l) (x :: l).
Proof.
  induction l as [|y l IH]; simpl; [reflexivity|].
  destruct (cmp x y <=? 0)%Z; [reflexivity|].
  rewrite IH. apply perm_swap.
Qed.

Lemma array_sort_perm (cmp : path -> path -> Z) (l : list path) :
  Permutation (array_sort cmp l) l.
Proof.
  induction l as [|x l IH]; simpl; [reflexivity|].
  rewrite sort_insert_perm. apply perm_skip. exact IH.
Qed.

Lemma sort_insert_sorted (x : path) (l : list path) :
  StronglySorted (fun a b => length b <= length a) l ->
  StronglySorted (fun a b => length b <= length a) (sort_insert deepest_first x l).
Proof.
  induction 1 as [|y l Hs IH Hy]; simpl.
  - constructor; constructor.
  - rewrite deepest_first_le. destruct (length y <=? length x) eqn:E.
    + apply Nat.leb_le in E. constructor.
      * constructor; assumption.
      * constructor; [assumption|].
        rewrite Forall_forall in Hy |- *. intros z Hz. specialize (Hy z Hz). lia.
    + apply Nat.leb_gt in E. constructor; [assumption|].
      apply (Permutation_Forall (x := x :: l)).
      * symmetry. apply sort_insert_perm.
      * constructor; [lia | assumption].
Qed.

Lemma array_sort_sorted (l : list path) :
  StronglySorted (fun a b => length b <= length a) (array_sort deepest_first l).
Proof.
  induction l as [|x l IH]; simpl; [constructor|].
  apply sort_insert_sorted. exact IH.
Qed.

(** Equal keys keep their order: the sort is stable. *)
Lemma sort_insert_stable (x : path) (l : list path) :
  Forall (fun y => length y <= length x) l ->
  sort_insert deepest_first x l = x :: l.
Proof.
  destruct l as [|y l]; [reflexivity|]. intros H. simpl.
  rewrite deepest_first_le. apply Forall_inv in H.
  apply Nat.leb_le in H. rewrite H. reflexivity.
Qed.

Lemma sorted_app (R : path -> path -> Prop) (l1 l2 : list path) :
  StronglySorted R l1 -> StronglySorted R l2 ->
  (forall a b, In a l1 -> In b l2 -> R a b) ->
  StronglySorted R (l1 ++ l2).
Proof.
  induction 1 as [|a l1 Hs IH Ha]; intros H2 H12; simpl; [assumption|].
  constructor.
  - apply IH; [assumption|]. intros a' b Ha' Hb. apply H12; [right|]; assumption.
  - apply Forall_app. split; [assumption|].
    apply Forall_forall. intros b Hb. apply H12; [left; reflexivity | assumption].
Qed.

Lemma same_length_sorted (n : nat) (l : list path) :
  (forall a, In a l -> length a = n) ->
  StronglySorted (fun a b => length b <= length a) l.
Proof.
  induction l as [|a l IH]; intros H; constructor.
  - apply IH. intros b Hb. apply H. right. assumption.
  - apply Forall_forall. intros b Hb.
    rewrite (H a (or_introl eq_refl)), (H b (or_intror Hb)). lia.
Qed.

Section Owners.

Variable doc : elem.

Lemma in_owners (uls : list path) (b : path) :
  In b (owners doc uls) <->
  exists k above i, In (k :: above) uls /\ b = i :: above /\
                    matches doc INPUT b = true.
Proof.
  unfold owners. rewrite in_flat_map. split.
  - intros [ul [Hul Hb]]. destruct ul as [|k above]; [destruct Hb|].
    cbn [parentElement] in Hb. apply in_scope_child in Hb.
    destruct Hb as [i [-> Hi]]. exists k, above, i. auto.
  - intros [k [above [i [Hul [-> Hi]]]]]. exists (k :: above).
    split; [assumption|]. cbn [parentElement]. apply in_scope_child.
    exists i. auto.
Qed.

Lemma owners_sorted (uls : list path) :
  StronglySorted (fun a b => length b <= length a) uls ->
  StronglySorted (fun a b => length b <= length a) (owners doc uls).
Proof.
  induction 1 as [|u uls Hs IH Hu]; [constructor|].
  replace (owners doc (u :: uls)) with (owners doc [u] ++ owners doc uls)
    by (unfold owners; simpl; rewrite app_nil_r; reflexivity).
  assert (Hsame : forall a, In a (owners doc [u]) -> length a = length u).
  { intros a Ha. apply in_owners in Ha.
    destruct Ha as [k [above [i [[Hu' | []] [-> _]]]]]. subst u. reflexivity. }
  apply sorted_app.
  - apply (same_length_sorted (length u)). exact Hsame.
  - exact IH.
  - intros a b Ha Hb. rewrite (Hsame a Ha).
    apply in_owners in Hb. destruct Hb as [k [above [i [Hul [-> _]]]]].
    rewrite Forall_forall in Hu. specialize (Hu _ Hul). simpl in *. lia.
Qed.

End Owners.

(* ================================================================== *)
(** ** Initialization of a well-formed tree                             *)
(* ================================================================== *)

Lemma all_lists_iff (doc : elem) (root u : path) :
  In u (querySelectorAll doc (Sel UL) root) <->
  u <> root /\ within root u = true /\ matches doc UL u = true.
Proof.
  rewrite in_sel, within_spec. split.
  - intros [d [Hne [-> Hm]]]. split; [apply app_length_neq; assumption|].
    split; [exists d; reflexivity | assumption].
  - intros [Hne [[d ->] Hm]]. exists d. split; [|auto].
    intros ->. apply Hne. reflexivity.
Qed.

Section Initialization.

Variable doc : elem.
Variable root : path.
Hypothesis Hok : structure_ok doc root = true.

Lemma in_sortedUls (u : path) :
  In u (sortedUls doc root) <->
  u <> root /\ within root u = true /\ matches doc UL u = true.
Proof.
  rewrite <- all_lists_iff. unfold sortedUls. split; intros H.
  - exact (Permutation_in u (array_sort_perm _ _) H).
  - exact (Permutation_in u (Permutation_sym (array_sort_perm _ _)) H).
Qed.

Lemma owner_is_node (N : path) :
  In N (owners doc (sortedUls doc root)) -> is_node doc root N = true.
Proof.
  intros H. apply in_owners in H. destruct H as [k [above [i [Hul [-> Hi]]]]].
  apply in_sortedUls in Hul. destruct Hul as [Hne [Hw Hu]].
  destruct (list_item doc root (structure_ok_list doc root Hok) _ Hw Hu Hne) as [k' [l [E [_ Hwl]]]].
  injection E as <- <-.
  apply is_node_parts. split; [assumption | apply within_cons; assumption].
Qed.

Lemma internal_node_owned (N : path) :
  is_node doc root N = true -> _findChildCheckboxes doc N <> [] ->
  In N (owners doc (sortedUls doc root)).
Proof.
  intros HN Hne. destruct (node_shape doc root Hok N HN) as [i [l [-> [Hl [Hw _]]]]].
  destruct (node_item doc root Hok i l HN) as [Hm _].
  destruct (_findChildCheckboxes doc (i :: l)) as [|c cs] eqn:Hcs; [congruence|].
  assert (Hc : In c (_findChildCheckboxes doc (i :: l))) by (rewrite Hcs; left; reflexivity).
  apply (children_iff doc root Hok i l c HN) in Hc.
  destruct Hc as [j [a [k [_ [Hk _]]]]].
  apply in_owners. exists k, l, i. split; [|auto].
  apply in_sortedUls. split; [|split; [apply within_cons; assumption | assumption]].
  intros E. apply within_length in Hw. rewrite <- E in Hw. simpl in Hw. lia.
Qed.

Lemma initializeState_consistent (s : page) :
  globally_consistent doc root (cbs (_initializeState doc root s)).
Proof.
  intros N HN Hne. rewrite initializeState_owners.
  apply update_all_consistent; try assumption.
  - intros M c HM Hc. apply owner_is_node in HM.
    rewrite (child_length doc root Hok M c HM Hc). lia.
  - apply owners_sorted. apply array_sort_sorted.
  - apply internal_node_owned; assumption.
Qed.

Lemma initializeState_idempotent (s : page) (p : path) :
  cbs (_initializeState doc root (_initializeState doc root s)) p =
  cbs (_initializeState doc root s) p.
Proof.
  rewrite (initializeState_owners doc root (_initializeState doc root s)).
  apply update_all_fixed; [|reflexivity].
  intros N HN. apply initializeState_consistent. apply owner_is_node. assumption.
Qed.

End Initialization.

(* ================================================================== *)
(** ** Downward propagation                                             *)
(* ================================================================== *)

Lemma write_all_in (val : checkbox) (L : list path) (s : page) (x : path) :
  In x L -> cbs (fold_left (fun s' c => write c val s') L s) x = val.
Proof.
  revert s. induction L as [|c L IH]; intros s Hx; [destruct Hx|]. simpl.
  destruct (in_dec path_eq_dec x L) as [Hin | Hnotin]; [apply IH; assumption|].
  destruct Hx as [-> | Hx]; [|contradiction].
  clear IH. revert Hnotin. generalize (write x val s) (cbs_write_same x val s).
  induction L as [|c L IH]; intros s' Hs' Hn; [exact Hs'|]. simpl.
  apply IH.
  - rewrite cbs_write_other; [assumption|]. intros ->. apply Hn. left. reflexivity.
  - intros H. apply Hn. right. assumption.
Qed.

Lemma write_all_out (val : checkbox) (L : list path) (s : page) (x : path) :
  ~ In x L -> cbs (fold_left (fun s' c => write c val s') L s) x = cbs s x.
Proof.
  revert s. induction L as [|c L IH]; intros s Hx; [reflexivity|]. simpl.
  rewrite IH by (intros H; apply Hx; right; assumption).
  apply cbs_write_other. intros ->. apply Hx. left. reflexivity.
Qed.

Lemma write_all_log (val : checkbox) (L : list path) (s : page) :
  log (fold_left (fun s' c => write c val s') L s) =
  log s ++ map (fun c => (c, val)) L.
Proof.
  revert s. induction L as [|c L IH]; intros s; simpl.
  - rewrite app_nil_r. reflexivity.
  - rewrite IH. simpl. rewrite <- app_assoc. reflexivity.
Qed.

Lemma setChildCheckboxes_forced (doc : elem) (N : path) (v : bool) (s : page) :
  _setChildCheckboxes doc N v s =
  fold_left (fun s' c => write c {| checked := v; indeterminate := false |} s')
            (forced doc N) s.
Proof.
  unfold _setChildCheckboxes, forced.
  destruct (closest doc LI N) as [li|]; [|reflexivity].
  destruct (querySelector doc (Sel UL) li); reflexivity.
Qed.

Lemma rule_uniform (st : store) (cs : list path) (v : bool) :
  cs <> [] ->
  (forall c, In c cs -> st c = {| checked := v; indeterminate := false |}) ->
  rule st cs = {| checked := v; indeterminate := false |}.
Proof.
  intros Hne H. rewrite rule_counts.
  assert (Hi : length (filter (is_ind st) cs) = 0).
  { apply filter_none. intros c Hc. unfold is_ind. rewrite (H c Hc). reflexivity. }
  assert (Hlen : 0 < length cs) by (destruct cs; [congruence | simpl; lia]).
  rewrite Hi. unfold parent_value. destruct v.
  - assert (Hc : length (filter (is_chk st) cs) = length cs).
    { apply filter_every. intros c Hc. unfold is_chk. rewrite (H c Hc). reflexivity. }
    rewrite Hc, (Nat.ltb_irrefl (length cs)), Nat.eqb_refl.
    destruct (0 <? length cs); reflexivity.
  - assert (Hc : length (filter (is_chk st) cs) = 0).
    { apply filter_none. intros c Hc. unfold is_chk. rewrite (H c Hc). reflexivity. }
    rewrite Hc. simpl. destruct (length cs); [lia | reflexivity].
Qed.

Lemma consistent_ext (doc : elem) (st st' : store) (M : path) :
  st M = st' M ->
  (forall c, In c (_findChildCheckboxes doc M) -> st c = st' c) ->
  consistent doc st M -> consistent doc st' M.
Proof.
  intros HM Hcs Hcons Hne. apply rule_correct; [assumption|].
  rewrite <- HM, <- (rule_ext st st' _ Hcs).
  apply rule_unique; [assumption | apply Hcons; assumption].
Qed.

Section Downward.

Variable doc : elem.
Variable root : path.
Hypothesis Hok : structure_ok doc root = true.

(** What [_setChildCheckboxes] reaches: the checkboxes inside the list of
    the item of [N]. *)
Lemma forced_iff (i : nat) (l x : path) :
  is_node doc root (i :: l) = true ->
  (In x (forced doc (i :: l)) <->
   exists k, matches doc UL (k :: l) = true /\ within (k :: l) x = true /\
             matches doc INPUT x = true).
Proof.
  intros HN. destruct (node_item doc root Hok i l HN) as [Hm [Hl [Hw Hc]]].
  unfold forced. rewrite Hc.
  rewrite (first_list_is_child doc root Hok l Hw Hl). split.
  - destruct (querySelector doc (ScopeChild UL) l) as [ul|] eqn:Hul; [|intros []].
    apply head_in, in_scope_child in Hul. destruct Hul as [k [-> Hk]].
    intros Hx. apply in_sel in Hx. destruct Hx as [d [_ [-> Hx]]].
    exists k. split; [assumption|]. split; [|assumption].
    apply within_spec. exists d. reflexivity.
  - intros [k [Hk [Hwx Hx]]]. unfold querySelector.
    rewrite (item_sublist_unique doc root (structure_ok_list doc root Hok) l k Hw Hl Hk).
    simpl head. apply in_sel. apply within_spec in Hwx. destruct Hwx as [d ->].
    exists d. split; [|auto]. intros ->.
    simpl in Hx. discriminate (matches_unique _ _ _ _ Hx Hk).
Qed.

Lemma forced_is_node (N x : path) :
  is_node doc root N = true -> In x (forced doc N) ->
  is_node doc root x = true /\ length N < length x.
Proof.
  intros HN Hx. destruct (node_shape doc root Hok N HN) as [i [l [-> [Hl [Hw _]]]]].
  apply (forced_iff i l x HN) in Hx. destruct Hx as [k [Hk [Hwx Hx]]].
  apply within_spec in Hwx. destruct Hwx as [d ->].
  destruct d as [|j d]; [discriminate (matches_unique _ _ _ _ Hx Hk)|].
  split.
  - apply is_node_parts. split; [assumption|].
    apply within_spec in Hw. destruct Hw as [d0 ->].
    apply within_spec. exists ((j :: d) ++ k :: d0).
    rewrite <- app_assoc. reflexivity.
  - simpl. rewrite length_app. simpl. lia.
Qed.

Lemma child_forced (N c : path) :
  is_node doc root N = true -> In c (_findChildCheckboxes doc N) ->
  In c (forced doc N).
Proof.
  intros HN Hc. destruct (node_shape doc root Hok N HN) as [i [l [-> _]]].
  apply (children_iff doc root Hok i l c HN) in Hc.
  destruct Hc as [j [a [k [-> [Hk [_ Hj]]]]]].
  apply (forced_iff i l _ HN). exists k. split; [assumption|]. split; [|assumption].
  apply within_spec. exists [j; a]. reflexivity.
Qed.

Lemma forced_closed (N M c : path) :
  is_node doc root N = true -> In M (forced doc N) ->
  In c (_findChildCheckboxes doc M) -> In c (forced doc N).
Proof.
  intros HN HM Hc. destruct (forced_is_node N M HN HM) as [HMn _].
  destruct (node_shape doc root Hok N HN) as [i [l [-> _]]].
  apply (forced_iff i l M HN) in HM. destruct HM as [k [Hk [HwM HMi]]].
  destruct (node_shape doc root Hok M HMn) as [i' [l' [-> _]]].
  apply (children_iff doc root Hok i' l' c HMn) in Hc.
  destruct Hc as [j [a [k' [-> [_ [_ Hj]]]]]].
  apply (forced_iff i l _ HN). exists k. split; [assumption|]. split; [|assumption].
  apply within_spec in HwM. destruct HwM as [d E].
  destruct d as [|x d].
  - simpl in E. rewrite E in HMi. discriminate (matches_unique _ _ _ _ HMi Hk).
  - injection E as -> ->. apply within_spec. exists (j :: a :: k' :: d). reflexivity.
Qed.

Lemma descendant_forced (N D : path) :
  is_node doc root N = true -> descendant doc D N -> In D (forced doc N).
Proof.
  intros HN H. induction H as [D N Hc | D M N Hc HM IH].
  - apply child_forced; assumption.
  - apply (forced_closed N M D HN); [apply IH; assumption | assumption].
Qed.

Lemma within_list_descendant (i : nat) (l : path) (k : nat) :
  is_node doc root (i :: l) = true -> matches doc UL (k :: l) = true ->
  forall n D, length D <= n -> within (k :: l) D = true ->
              matches doc INPUT D = true -> descendant doc D (i :: l).
Proof.
  intros HN Hk. destruct (node_item doc root Hok i l HN) as [Hm [Hl [Hw Hc]]].
  assert (Hsub : list_ok doc (k :: l) = true).
  { apply (sublist_ok doc root (structure_ok_list doc root Hok));
      [apply within_cons|]; assumption. }
  assert (Hup : forall x, within (k :: l) x = true -> within root x = true).
  { intros x Hx. apply within_spec in Hx. destruct Hx as [d ->].
    apply within_spec in Hw. destruct Hw as [d0 ->].
    apply within_spec. exists (d ++ k :: d0). rewrite <- app_assoc. reflexivity. }
  induction n as [|n IH]; intros D Hlen HwD HD.
  - destruct D; [|simpl in Hlen; lia].
    apply within_length in HwD. simpl in HwD. lia.
  - destruct (box_item doc (k :: l) Hsub D HwD HD) as [j [lD [-> [HlD HwlD]]]].
    destruct (item_list doc (k :: l) Hsub lD HwlD HlD) as [a [u [-> [Hu Hwu]]]].
    destruct (path_eq_dec u (k :: l)) as [-> | Hne].
    + apply descendant_child. apply (children_iff doc root Hok i l _ HN).
      exists j, a, k. auto.
    + destruct (list_item doc (k :: l) Hsub u Hwu Hu Hne) as [k' [l' [-> [Hl' Hwl']]]].
      destruct (item_checkbox doc (k :: l) Hsub l' Hwl' Hl') as [i' [_ Hi']].
      assert (HM : is_node doc root (i' :: l') = true).
      { apply is_node_parts. split; [assumption|]. apply Hup, within_cons. assumption. }
      apply (descendant_below doc _ (i' :: l')).
      * apply (children_iff doc root Hok i' l' _ HM). exists j, a, k'. auto.
      * apply IH; [simpl in *; lia | apply within_cons; assumption | assumption].
Qed.

Lemma forced_descendant (N D : path) :
  is_node doc root N = true -> In D (forced doc N) -> descendant doc D N.
Proof.
  intros HN HD. destruct (node_shape doc root Hok N HN) as [i [l [-> _]]].
  apply (forced_iff i l D HN) in HD. destruct HD as [k [Hk [Hw HD]]].
  apply (within_list_descendant i l k HN Hk (length D) D); auto.
Qed.

Lemma descendant_is_node (N D : path) :
  is_node doc root N = true -> descendant doc D N ->
  is_node doc root D = true /\ length N < length D.
Proof.
  intros HN H. apply forced_is_node; [assumption|].
  apply descendant_forced; assumption.
Qed.

End Downward.

(* ================================================================== *)
(** ** Upward propagation                                               *)
(* ================================================================== *)

Section LoopFuel.

Variable doc : elem.

Lemma findParentCheckbox_top : _findParentCheckbox doc [] = None.
Proof.
  unfold _findParentCheckbox. simpl. destruct (matches doc LI []); reflexivity.
Qed.

Lemma findParentCheckbox_found (c P : path) :
  _findParentCheckbox doc c = Some P ->
  matches doc INPUT P = true /\ length P <= length c /\
  (matches doc LI c = false -> length P < length c).
Proof.
  unfold _findParentCheckbox.
  destruct (closest doc LI c) as [li|] eqn:Hli; [|discriminate].
  destruct li as [|x above]; [discriminate|]. cbn [parentElement].
  destruct (closest doc LI above) as [parentLi|] eqn:Hp; [|discriminate].
  intros HP. apply head_in, in_scope_child in HP. destruct HP as [i [-> Hi]].
  apply closest_length in Hp. pose proof (closest_length _ _ _ _ Hli) as Hle.
  simpl in *. split; [assumption|]. split; [lia|].
  intros Hc. destruct c as [|y c']; [simpl in Hle; lia|].
  rewrite (closest_step doc LI y c' Hc) in Hli.
  apply closest_length in Hli. simpl in *. lia.
Qed.

(** Once the loop is at a checkbox, the length of its position bounds the
    iterations left. *)
Lemma ancestors_enough (fuel : nat) :
  forall c fuel', matches doc LI c = false -> length c <= fuel -> fuel <= fuel' ->
                  ancestors doc fuel' c = ancestors doc fuel c.
Proof.
  induction fuel as [|fuel IH]; intros c fuel' Hc Hlen Hf.
  - destruct c; [|simpl in Hlen; lia].
    destruct fuel'; simpl; [reflexivity|]. rewrite findParentCheckbox_top. reflexivity.
  - destruct fuel' as [|fuel']; [lia|]. simpl.
    destruct (_findParentCheckbox doc c) as [P|] eqn:HP; [|reflexivity].
    destruct (findParentCheckbox_found c P HP) as [HPi [_ Hlt]].
    specialize (Hlt Hc). f_equal. apply IH; try lia.
    destruct (matches doc LI P) eqn:E; [|reflexivity].
    discriminate (matches_unique _ _ _ _ HPi E).
Qed.

(** The fuel [_updateAncestorCheckboxes] starts with is never used up:
    more iterations would change nothing, for any document and any start. *)
Lemma ancestors_fuel (c : path) (fuel : nat) :
  S (length c) <= fuel ->
  ancestors doc fuel c = ancestors doc (S (length c)) c.
Proof.
  intros Hf. destruct fuel as [|fuel]; [lia|]. simpl.
  destruct (_findParentCheckbox doc c) as [P|] eqn:HP; [|reflexivity].
  destruct (findParentCheckbox_found c P HP) as [HPi [Hle _]].
  f_equal.
  assert (HnotLI : matches doc LI P = false).
  { destruct (matches doc LI P) eqn:E; [|reflexivity].
    discriminate (matches_unique _ _ _ _ HPi E). }
  rewrite (ancestors_enough (length c) P fuel HnotLI Hle) by lia.
  reflexivity.
Qed.

Lemma ancestors_loop_fuel (c : path) (fuel : nat) (s : page) :
  S (length c) <= fuel ->
  ancestors_loop doc fuel c s = _updateAncestorCheckboxes doc c s.
Proof.
  intros Hf. unfold _updateAncestorCheckboxes.
  rewrite !ancestors_loop_update_all, (ancestors_fuel c fuel Hf). reflexivity.
Qed.

End LoopFuel.

Section Upward.

Variable doc : elem.
Variable root : path.
Hypothesis Hok : structure_ok doc root = true.

Lemma ancestors_nodes (fuel : nat) :
  forall c P, is_node doc root c = true -> In P (ancestors doc fuel c) ->
              is_node doc root P = true /\ length P < length c /\
              descendant doc c P.
Proof.
  induction fuel as [|fuel IH]; intros c P Hc HP; [destruct HP|].
  simpl in HP. destruct (_findParentCheckbox doc c) as [P0|] eqn:HP0; [|destruct HP].
  destruct (child_of_parent doc root Hok c P0 Hc HP0) as [HN0 Hin].
  pose proof (child_length doc root Hok P0 c HN0 Hin) as Hlen.
  destruct HP as [<- | HP].
  - split; [assumption|]. split; [lia|]. apply descendant_child. assumption.
  - destruct (IH P0 P HN0 HP) as [HPn [Hlt Hd]].
    split; [assumption|]. split; [lia|].
    clear - Hin Hd. induction Hd as [D N Hc | D M N Hc HM IHd].
    + apply (descendant_below doc c D N); [assumption|].
      apply descendant_child. assumption.
    + apply (descendant_below doc c D N); [assumption|].
      apply (descendant_below doc D M N); assumption.
Qed.

Lemma ancestors_sorted (fuel : nat) :
  forall c, is_node doc root c = true ->
            StronglySorted (fun a b => length b <= length a) (ancestors doc fuel c).
Proof.
  induction fuel as [|fuel IH]; intros c Hc; [constructor|]. simpl.
  destruct (_findParentCheckbox doc c) as [P0|] eqn:HP0; [|constructor].
  destruct (child_of_parent doc root Hok c P0 Hc HP0) as [HN0 _].
  constructor; [apply IH; assumption|].
  apply Forall_forall. intros P HP.
  destruct (ancestors_nodes fuel P0 P HN0 HP) as [_ [Hlt _]]. lia.
Qed.

Lemma ancestors_closed (fuel : nat) :
  forall c X P, is_node doc root c = true -> length c < fuel ->
                X = c \/ In X (ancestors doc fuel c) ->
                _findParentCheckbox doc X = Some P ->
                In P (ancestors doc fuel c).
Proof.
  induction fuel as [|fuel IH]; intros c X P Hc Hlen HX HP; [lia|]. simpl.
  destruct HX as [-> | HX].
  - rewrite HP. left. reflexivity.
  - simpl in HX. destruct (_findParentCheckbox doc c) as [P0|] eqn:HP0; [|destruct HX].
    destruct (child_of_parent doc root Hok c P0 Hc HP0) as [HN0 Hin].
    pose proof (child_length doc root Hok P0 c HN0 Hin) as Hl.
    right. apply (IH P0 X P HN0); [lia | | assumption].
    destruct HX as [<- | HX]; [left; reflexivity | right; assumption].
Qed.

Lemma ancestors_bottom_up (fuel : nat) :
  forall c, is_node doc root c = true -> length c < fuel ->
            bottom_up doc root c (ancestors doc fuel c).
Proof.
  induction fuel as [|fuel IH]; intros c Hc Hlen; [lia|]. simpl.
  destruct (_findParentCheckbox doc c) as [P0|] eqn:HP0.
  - destruct (child_of_parent doc root Hok c P0 Hc HP0) as [HN0 Hin].
    pose proof (child_length doc root Hok P0 c HN0 Hin) as Hl.
    apply bottom_up_next; try assumption. apply IH; [assumption | lia].
  - apply bottom_up_end. intros P HPn Hin.
    rewrite (parent_of_child doc root Hok P c HPn Hin) in HP0. discriminate.
Qed.

End Upward.

(* ================================================================== *)
(** ** The change handler                                               *)
(* ================================================================== *)

Lemma createChangeHandler_unfold (doc : elem) (N : path) (s : page) :
  _createChangeHandler doc N s =
  update_all doc (ancestors doc (S (length N)) N)
    (fold_left
       (fun s' c => write c {| checked := checked (cbs s N); indeterminate := false |} s')
       (forced doc N) s).
Proof.
  unfold _createChangeHandler, _updateAncestorCheckboxes.
  rewrite ancestors_loop_update_all, setChildCheckboxes_forced. reflexivity.
Qed.

(** The handler writes nothing but the checkboxes it forces and the chain
    of parents it walks. *)
Lemma createChangeHandler_frame (doc : elem) (N x : path) (s : page) :
  ~ In x (forced doc N) -> ~ In x (ancestors doc (S (length N)) N) ->
  cbs (_createChangeHandler doc N s) x = cbs s x.
Proof.
  intros Hf Ha. rewrite createChangeHandler_unfold.
  rewrite update_all_other by assumption. apply write_all_out. assumption.
Qed.

Section Handler.

Variable doc : elem.
Variable root : path.
Hypothesis Hok : structure_ok doc root = true.

Variable N : path.
Hypothesis HN : is_node doc root N = true.

Lemma forced_not_ancestor (x : path) :
  In x (forced doc N) -> ~ In x (ancestors doc (S (length N)) N).
Proof.
  intros Hf Ha.
  destruct (forced_is_node doc root Hok N x HN Hf) as [_ H1].
  destruct (ancestors_nodes doc root Hok _ N x HN Ha) as [_ [H2 _]]. lia.
Qed.

Lemma self_not_forced : ~ In N (forced doc N).
Proof.
  intros Hf. destruct (forced_is_node doc root Hok N N HN Hf) as [_ H]. lia.
Qed.

Lemma self_not_ancestor : ~ In N (ancestors doc (S (length N)) N).
Proof.
  intros Ha. destruct (ancestors_nodes doc root Hok _ N N HN Ha) as [_ [H _]]. lia.
Qed.

Lemma createChangeHandler_self (s : page) :
  cbs (_createChangeHandler doc N s) N = cbs s N.
Proof.
  apply createChangeHandler_frame; [apply self_not_forced | apply self_not_ancestor].
Qed.

Lemma createChangeHandler_forced (s : page) (x : path) :
  In x (forced doc N) ->
  cbs (_createChangeHandler doc N s) x =
  {| checked := checked (cbs s N); indeterminate := false |}.
Proof.
  intros Hf. rewrite createChangeHandler_unfold.
  rewrite update_all_other by (apply forced_not_ancestor; assumption).
  apply write_all_in. assumption.
Qed.

(** A child of a checkbox outside the chain is itself outside the chain. *)
Lemma child_not_ancestor (M c : path) :
  is_node doc root M = true -> In c (_findChildCheckboxes doc M) ->
  ~ In M (ancestors doc (S (length N)) N) ->
  c <> N /\ ~ In c (ancestors doc (S (length N)) N).
Proof.
  intros HM Hc HMa.
  pose proof (parent_of_child doc root Hok M c HM Hc) as Hp.
  split.
  - intros ->. apply HMa.
    apply (ancestors_closed doc root Hok _ N N M HN); [lia | left; reflexivity | assumption].
  - intros Hca. apply HMa.
    apply (ancestors_closed doc root Hok _ N c M HN); [lia | right; assumption | assumption].
Qed.

(** A child of a checkbox that is neither [N] nor below [N] is not below
    [N] either. *)
Lemma child_not_forced (M c : path) :
  is_node doc root M = true -> In c (_findChildCheckboxes doc M) ->
  M <> N -> ~ In M (forced doc N) -> ~ In c (forced doc N).
Proof.
  intros HM Hc HMN HMf Hcf.
  pose proof (parent_of_child doc root Hok M c HM Hc) as Hp.
  apply (forced_descendant doc root Hok N c HN) in Hcf.
  inversion Hcf as [D N' Hin | D M' N' Hin HM']; subst.
  - rewrite (parent_of_child doc root Hok N c HN Hin) in Hp. congruence.
  - destruct (descendant_is_node doc root Hok N M' HN HM') as [HM'n _].
    rewrite (parent_of_child doc root Hok M' c HM'n Hin) in Hp.
    injection Hp as ->. apply HMf.
    apply (descendant_forced doc root Hok); assumption.
Qed.

(** After the handler, started from a state that differs from a consistent
    one at most in the toggled checkbox, every node satisfies the rule; for
    the toggled checkbox itself, which the handler does not write, this
    needs its [indeterminate] flag to be clear if it has children. *)
Lemma createChangeHandler_consistent_at (s0 s : page) (M : path) :
  globally_consistent doc root (cbs s0) ->
  (forall x, x <> N -> cbs s x = cbs s0 x) ->
  is_node doc root M = true ->
  (M = N -> _findChildCheckboxes doc N <> [] -> indeterminate (cbs s N) = false) ->
  consistent doc (cbs (_createChangeHandler doc N s)) M.
Proof.
  intros Hcons Hagree HM Hclear.
  set (A := ancestors doc (S (length N)) N).
  set (v := checked (cbs s N)).
  destruct (in_dec path_eq_dec M A) as [HMa | HMa].
  - rewrite createChangeHandler_unfold. apply update_all_consistent.
    + intros P c HP Hc.
      destruct (ancestors_nodes doc root Hok _ N P HN HP) as [HPn _].
      rewrite (child_length doc root Hok P c HPn Hc). lia.
    + apply (ancestors_sorted doc root Hok). assumption.
    + assumption.
  - assert (Hkids : forall c, In c (_findChildCheckboxes doc M) ->
                              c <> N /\ ~ In c A).
    { intros c Hc. apply (child_not_ancestor M c HM Hc HMa). }
    destruct (path_eq_dec M N) as [-> | HMN];
      [|destruct (in_dec path_eq_dec M (forced doc N)) as [HMf | HMf]].
    + intros Hne. apply rule_correct; [assumption|].
      rewrite createChangeHandler_self.
      rewrite (rule_uniform _ _ v Hne).
      * specialize (Hclear eq_refl Hne). subst v.
        destruct (cbs s N) as [c i]. simpl in *. subst. reflexivity.
      * intros c Hc. apply createChangeHandler_forced.
        apply (child_forced doc root Hok); assumption.
    + intros Hne. apply rule_correct; [assumption|].
      rewrite (createChangeHandler_forced s M HMf).
      symmetry. apply rule_uniform; [assumption|].
      intros c Hc. apply createChangeHandler_forced.
      apply (forced_closed doc root Hok N M c); assumption.
    + apply (consistent_ext doc (cbs s0)).
      * rewrite createChangeHandler_frame by assumption. symmetry. apply Hagree. assumption.
      * intros c Hc. destruct (Hkids c Hc) as [HcN Hca].
        rewrite createChangeHandler_frame;
          [symmetry; apply Hagree; assumption | | assumption].
        apply (child_not_forced M c); assumption.
      * apply Hcons. assumption.
Qed.

End Handler.

(* ================================================================== *)
(** ** Checking consistency by computation                              *)
(* ================================================================== *)

Lemma checkbox_eqb_eq (a b : checkbox) : checkbox_eqb a b = true -> a = b.
Proof.
  destruct a as [c i], b as [c' i']. unfold checkbox_eqb. simpl.
  intros H. apply andb_true_iff in H. destruct H as [H1 H2].
  apply Bool.eqb_prop in H1, H2. congruence.
Qed.

Lemma consistentb_sound (doc : elem) (st : store) (N : path) :
  consistentb doc st N = true -> consistent doc st N.
Proof.
  unfold consistentb. intros H Hne. apply rule_correct; [assumption|].
  destruct (_findChildCheckboxes doc N); [congruence|].
  apply checkbox_eqb_eq. assumption.
Qed.

Lemma tree_consistentb_sound (doc : elem) (root : path) (st : store) :
  structure_ok doc root = true -> tree_consistentb doc root st = true ->
  globally_consistent doc root st.
Proof.
  intros Hok H N HN. apply consistentb_sound.
  unfold tree_consistentb in H. rewrite forallb_forall in H. apply H.
  apply is_node_parts in HN. destruct HN as [Hm Hw].
  apply in_sel. apply within_spec in Hw. destruct Hw as [d ->].
  exists d. split; [|auto]. intros ->.
  pose proof (root_is_list doc root (structure_ok_list doc root Hok)) as Hr.
  simpl in Hm. discriminate (matches_unique _ _ _ _ Hm Hr).
Qed.

Lemma not_consistent (doc : elem) (st : store) (N : path) :
  consistentb doc st N = false -> ~ consistent doc st N.
Proof.
  unfold consistentb. intros H Hc.
  destruct (_findChildCheckboxes doc N) as [|c cs] eqn:Hcs; [discriminate|].
  assert (Hne : c :: cs <> []) by discriminate.
  rewrite <- Hcs in Hne. specialize (Hc Hne). rewrite Hcs in Hc.
  apply rule_unique in Hc; [|discriminate].
  rewrite Hc in H. unfold checkbox_eqb in H.
  rewrite !Bool.eqb_reflx in H. discriminate.
Qed.

(* ================================================================== *)
(** ** The test-suite and the scenarios, run on the model               *)
(* ================================================================== *)

(** 'should check all children when parent is checked' *)
Example test_check_parent :
  let s := onToggle two_level top_box true blank in
  cbs s child1 = ticked /\ cbs s child2 = ticked /\ cbs s top_box = ticked.
Proof. repeat split. Qed.

(** 'should uncheck all children when parent is unchecked' *)
Example test_uncheck_parent :
  let s := onToggle two_level top_box false
             (onToggle two_level top_box true blank) in
  cbs s child1 = unchecked /\ cbs s child2 = unchecked.
Proof. repeat split. Qed.

(** Unchecking one child after checking the parent leaves the parent
    indeterminate and not checked. *)
Example scenario_uncheck_one_child :
  cbs (onToggle two_level child1 false (onToggle two_level top_box true blank))
      top_box = mixed.
Proof. reflexivity. Qed.

(** Three levels: one grandchild checked makes its parent and the root
    indeterminate; the second one makes the parent checked, and the root
    stays indeterminate over its other, unchecked child. *)
Example scenario_three_levels :
  let s1 := onToggle three_level grandchild1 true blank in
  let s2 := onToggle three_level grandchild2 true s1 in
  cbs s1 child1 = mixed /\ cbs s1 top_box = mixed /\
  cbs s2 child1 = ticked /\ cbs s2 top_box = mixed.
Proof. repeat split. Qed.

(** The constructor on the markup of the test-suite: one root, one
    listener per checkbox, nothing reported. *)
Example test_initialize :
  exists this s,
    constructor two_level one_match (ByString ".tristate") blank = Ok (this, s) /\
    length (roots this) = 1 /\
    listeners s = [(top_box, 0); (child1, 1); (child2, 2)] /\
    console s = [].
Proof. do 2 eexists. split; [reflexivity|]. repeat split. Qed.

(* ================================================================== *)
(** ** The properties of the specification                              *)
(* ================================================================== *)

(** C1. Whenever [_updateParentState] recomputes a checkbox [N] that has
    at least one immediate child checkbox (it is the only way a parent is
    recomputed, during initialization and during upward propagation), the
    children are left as they are and afterwards: [N] is checked iff every
    immediate child is checked and none is indeterminate; [N] is
    indeterminate iff some immediate child is indeterminate or the checked
    immediate children are a non-empty proper subset of the children;
    otherwise [N] is unchecked and not indeterminate. *)
Theorem C1_parent_state_from_children (doc : elem) (N : path) (s : page) :
  _findChildCheckboxes doc N <> [] ->
  let cs := _findChildCheckboxes doc N in
  let st' := cbs (_updateParentState doc N s) in
  (forall c, In c cs -> st' c = cbs s c) /\
  (checked (st' N) = true <-> all_checked st' cs) /\
  (indeterminate (st' N) = true <->
   some_indeterminate st' cs \/ partly_checked st' cs) /\
  (~ all_checked st' cs ->
   ~ (some_indeterminate st' cs \/ partly_checked st' cs) ->
   checked (st' N) = false /\ indeterminate (st' N) = false).
Proof.
  intros Hne cs st'.
  assert (Hkids : forall c, In c cs -> st' c = cbs s c).
  { intros c Hc. apply updateParentState_children. assumption. }
  assert (HP : parent_from_children st' N cs).
  { apply rule_correct; [assumption|]. unfold st'.
    rewrite updateParentState_self by assumption.
    apply rule_ext. intros c Hc. symmetry. apply Hkids. assumption. }
  destruct HP as [Hc Hi].
  split; [exact Hkids|]. split; [exact Hc|]. split; [exact Hi|].
  intros Hna Hnb. split.
  - destruct (checked (st' N)); [|reflexivity].
    exfalso. apply Hna, Hc. reflexivity.
  - destruct (indeterminate (st' N)); [|reflexivity].
    exfalso. apply Hnb, Hi. reflexivity.
Qed.

Lemma C1_witness :
  _findChildCheckboxes two_level top_box <> [] /\
  (indeterminate (cbs (_updateParentState two_level top_box half_checked) top_box) = true
   <-> some_indeterminate (cbs (_updateParentState two_level top_box half_checked))
                          (_findChildCheckboxes two_level top_box)
       \/ partly_checked (cbs (_updateParentState two_level top_box half_checked))
                         (_findChildCheckboxes two_level top_box)).
Proof.
  assert (H : _findChildCheckboxes two_level top_box <> [])
    by (vm_compute; discriminate).
  split; [exact H|].
  exact (proj1 (proj2 (proj2
           (C1_parent_state_from_children two_level top_box half_checked H)))).
Defined.

Lemma cbs_assign_checked_self (N : path) (v : bool) (s : page) :
  cbs (assign_checked N v s) N =
  {| checked := v; indeterminate := indeterminate (cbs s N) |}.
Proof. simpl. rewrite path_eqb_refl. reflexivity. Qed.

Lemma cbs_assign_checked_other (N x : path) (v : bool) (s : page) :
  x <> N -> cbs (assign_checked N v s) x = cbs s x.
Proof. intros H. simpl. rewrite path_eqb_neq by assumption. reflexivity. Qed.

(** C2. In a tree that meets the structural contract, after the user has
    set [N.checked] to [v] and the change handler of [N] has run, every
    descendant [D] of [N], at any depth, has [checked = v] and
    [indeterminate = false]. *)
Theorem C2_downward_force (doc : elem) (root N D : path) (v : bool) (s : page) :
  structure_ok doc root = true -> is_node doc root N = true ->
  descendant doc D N ->
  cbs (onToggle doc N v s) D = {| checked := v; indeterminate := false |}.
Proof.
  intros Hok HN HD. unfold onToggle.
  rewrite (createChangeHandler_forced doc root Hok N HN).
  - rewrite cbs_assign_checked_self. reflexivity.
  - apply (descendant_forced doc root Hok); assumption.
Qed.

Lemma C2_witness :
  structure_ok three_level tree_root = true /\
  is_node three_level tree_root top_box = true /\
  descendant three_level grandchild2 top_box /\
  cbs (onToggle three_level top_box true blank) grandchild2 = ticked.
Proof.
  assert (H1 : structure_ok three_level tree_root = true) by reflexivity.
  assert (H2 : is_node three_level tree_root top_box = true) by reflexivity.
  assert (H3 : descendant three_level grandchild2 top_box).
  { apply (descendant_below three_level grandchild2 child1 top_box).
    - vm_compute. right. left. reflexivity.
    - apply descendant_child. vm_compute. left. reflexivity. }
  split; [exact H1|]. split; [exact H2|]. split; [exact H3|].
  exact (C2_downward_force three_level tree_root top_box grandchild2 true blank H1 H2 H3).
Defined.

Lemma cbs_user_flip_self (N : path) (v : bool) (s : page) :
  cbs (user_flip N v s) N = {| checked := v; indeterminate := false |}.
Proof. simpl. rewrite path_eqb_refl. reflexivity. Qed.

Lemma cbs_user_flip_other (N x : path) (v : bool) (s : page) :
  x <> N -> cbs (user_flip N v s) x = cbs s x.
Proof. intros H. simpl. rewrite path_eqb_neq by assumption. reflexivity. Qed.

(** C3. In a tree that meets the structural contract and is globally
    consistent, after a single toggle of a node [N] by the user the whole
    tree is globally consistent again: every node with a non-empty set of
    immediate children, every ancestor of [N] in particular, satisfies the
    parent-from-children rule for the states its immediate children have
    after the toggle; no further pass is needed. *)
Theorem C3_toggle_keeps_tree_consistent (doc : elem) (root N : path) (v : bool)
    (s0 : page) :
  structure_ok doc root = true -> is_node doc root N = true ->
  globally_consistent doc root (cbs s0) ->
  globally_consistent doc root (cbs (userToggle doc N v s0)).
Proof.
  intros Hok HN Hcons M HM. unfold userToggle.
  apply (createChangeHandler_consistent_at doc root Hok N HN s0 (user_flip N v s0) M).
  - exact Hcons.
  - intros x Hx. apply cbs_user_flip_other. exact Hx.
  - exact HM.
  - intros _ _. rewrite cbs_user_flip_self. reflexivity.
Qed.

Lemma C3_toggle_witness :
  structure_ok two_level tree_root = true /\
  is_node two_level tree_root top_box = true /\
  globally_consistent two_level tree_root (cbs half_checked) /\
  globally_consistent two_level tree_root
    (cbs (userToggle two_level top_box true half_checked)).
Proof.
  assert (H1 : structure_ok two_level tree_root = true) by reflexivity.
  assert (H2 : is_node two_level tree_root top_box = true) by reflexivity.
  assert (H3 : globally_consistent two_level tree_root (cbs half_checked))
    by (apply tree_consistentb_sound; reflexivity).
  split; [exact H1|]. split; [exact H2|]. split; [exact H3|].
  exact (C3_toggle_keeps_tree_consistent two_level tree_root top_box true
           half_checked H1 H2 H3).
Defined.

Lemma sorted_weaken (R R' : path -> path -> Prop) (l : list path) :
  (forall a b, R a b -> R' a b) -> StronglySorted R l -> StronglySorted R' l.
Proof.
  intros H. induction 1 as [|a l Hs IH Ha]; constructor; [assumption|].
  apply Forall_forall. intros b Hb. rewrite Forall_forall in Ha. apply H, Ha, Hb.
Qed.

Lemma sorted_split (R : path -> path -> Prop) (L1 L2 : list path) (x : path) :
  StronglySorted R (L1 ++ x :: L2) -> Forall (R x) L2.
Proof.
  induction L1 as [|a L1 IH]; simpl; intros H; apply StronglySorted_inv in H.
  - apply H.
  - apply IH, H.
Qed.

(** C4. For a tree that meets the structural contract, [_initializeState]
    enumerates every list below the root (the groupings), orders them
    deepest first, depth being the number of ancestors, which exceeds the
    distance from the root of the tree by a constant; it recomputes, in
    that order, the one checkbox that owns each list from the checkboxes
    directly in that list, never returning to a child after its parent;
    and in the end every node with immediate children satisfies the
    parent-from-children rule. *)
Theorem C4_initialization_bottom_up (doc : elem) (root : path) (s : page) :
  structure_ok doc root = true ->
  let uls := sortedUls doc root in
  (forall u, In u uls <->
             u <> root /\ within root u = true /\ matches doc UL u = true) /\
  Permutation uls (querySelectorAll doc (Sel UL) root) /\
  (forall u, In u uls ->
             _getElementDepth u = length root + depth_in_tree root u) /\
  StronglySorted (deeper_first root) uls /\
  _initializeState doc root s = update_all doc (owners doc uls) s /\
  (forall u, In u uls ->
     exists N, owners doc [u] = [N] /\ is_node doc root N = true /\
               _findChildCheckboxes doc N =
               querySelectorAll doc (ScopeGrandchild LI INPUT) u) /\
  (forall N, is_node doc root N = true -> _findChildCheckboxes doc N <> [] ->
             In N (owners doc uls)) /\
  (forall L1 N L2 c, owners doc uls = L1 ++ N :: L2 ->
                     In c (_findChildCheckboxes doc N) -> ~ In c L2) /\
  globally_consistent doc root (cbs (_initializeState doc root s)).
Proof.
  intros Hok uls.
  pose proof (structure_ok_list doc root Hok) as Hlist.
  split; [intros u; apply (in_sortedUls doc root _)|].
  split; [apply array_sort_perm|].
  split.
  { intros u Hu. apply (in_sortedUls doc root _) in Hu.
    destruct Hu as [_ [Hw _]]. apply within_length in Hw.
    rewrite getElementDepth_length. unfold depth_in_tree. lia. }
  split.
  { apply (sorted_weaken (fun a b => length b <= length a)).
    - intros a b Hab. unfold deeper_first, depth_in_tree. lia.
    - apply array_sort_sorted. }
  split; [apply initializeState_owners|].
  split.
  { intros u Hu. apply (in_sortedUls doc root _) in Hu.
    destruct Hu as [Hne [Hw Hm]].
    destruct (list_item doc root Hlist u Hw Hm Hne) as [k [l [-> [Hl Hwl]]]].
    destruct (item_checkbox doc root Hlist l Hwl Hl) as [i [Hq Hi]].
    exists (i :: l).
    assert (HN : is_node doc root (i :: l) = true).
    { apply is_node_parts. split; [assumption | apply within_cons; assumption]. }
    split; [|split; [exact HN|]].
    - unfold owners. simpl. rewrite app_nil_r. exact Hq.
    - unfold _findChildCheckboxes, querySelector.
      rewrite (closest_of_box doc i l Hi Hl).
      rewrite (item_sublist_unique doc root Hlist l k Hwl Hl Hm). reflexivity. }
  split; [intros N; apply (internal_node_owned doc root Hok)|].
  split.
  { intros L1 N L2 c HL Hc Hin.
    assert (HNo : In N (owners doc uls)).
    { rewrite HL. apply in_or_app. right. left. reflexivity. }
    apply (owner_is_node doc root Hok) in HNo.
    pose proof (child_length doc root Hok N c HNo Hc) as Hlen.
    pose proof (owners_sorted doc uls (array_sort_sorted _)) as Hs.
    rewrite HL in Hs. apply sorted_split in Hs.
    rewrite Forall_forall in Hs. specialize (Hs c Hin). simpl in Hs. lia. }
  apply (initializeState_consistent doc root Hok).
Qed.

Lemma C4_witness :
  structure_ok three_level tree_root = true /\
  sortedUls three_level tree_root = [[2; 0; 2; 0; 0]; [2; 0; 0]] /\
  globally_consistent three_level tree_root
    (cbs (_initializeState three_level tree_root
            (assign_checked grandchild1 true blank))).
Proof.
  assert (H : structure_ok three_level tree_root = true) by reflexivity.
  split; [exact H|]. split; [reflexivity|].
  apply (C4_initialization_bottom_up three_level tree_root
           (assign_checked grandchild1 true blank) H).
Defined.

(** C9. For a tree that meets the structural contract, running
    [_initializeState] again right after it has run leaves every checkbox
    with the values the first run gave it. *)
Theorem C9_initialization_idempotent (doc : elem) (root : path) (s : page) :
  structure_ok doc root = true ->
  forall p,
    cbs (_initializeState doc root (_initializeState doc root s)) p =
    cbs (_initializeState doc root s) p.
Proof. intros Hok p. apply (initializeState_idempotent doc root Hok). Qed.

Lemma C9_witness :
  structure_ok three_level tree_root = true /\
  cbs (_initializeState three_level tree_root
         (_initializeState three_level tree_root
            (assign_checked grandchild1 true blank))) top_box
  = cbs (_initializeState three_level tree_root
           (assign_checked grandchild1 true blank)) top_box.
Proof.
  assert (H : structure_ok three_level tree_root = true) by reflexivity.
  split; [exact H|].
  apply (C9_initialization_idempotent three_level tree_root
           (assign_checked grandchild1 true blank) H).
Defined.

Lemma descendant_has_children (doc : elem) (D N : path) :
  descendant doc D N -> _findChildCheckboxes doc N <> [].
Proof.
  induction 1 as [D N Hc | D M N Hc HM IH]; [|assumption].
  intros E. rewrite E in Hc. destruct Hc.
Qed.

Lemma update_all_log (doc : elem) (L : list path) (s : page) :
  (forall P, In P L -> _findChildCheckboxes doc P <> []) ->
  exists ups, log (update_all doc L s) = log s ++ ups /\ map fst ups = L.
Proof.
  revert s. induction L as [|x L IH]; intros s H.
  - exists []. rewrite app_nil_r. split; reflexivity.
  - rewrite update_all_cons.
    destruct (IH (_updateParentState doc x s)) as [ups [Hlog Hfst]].
    { intros P HP. apply H. right. assumption. }
    rewrite updateParentState_write in Hlog by (apply H; left; reflexivity).
    exists ((x, rule (cbs s) (_findChildCheckboxes doc x)) :: ups).
    rewrite updateParentState_write by (apply H; left; reflexivity).
    rewrite Hlog. simpl. rewrite <- app_assoc, Hfst. split; reflexivity.
Qed.

Lemma ancestors_complete (doc : elem) (root N : path) :
  structure_ok doc root = true -> is_node doc root N = true ->
  forall P, is_node doc root P = true ->
            forall D, descendant doc D P ->
                      D = N \/ In D (ancestors doc (S (length N)) N) ->
                      In P (ancestors doc (S (length N)) N).
Proof.
  intros Hok HN P HP D HD. induction HD as [D P Hc | D M P Hc HM IH]; intros HDN.
  - apply (ancestors_closed doc root Hok _ N D P HN); [lia | assumption|].
    apply (parent_of_child doc root Hok); assumption.
  - destruct (descendant_is_node doc root Hok P M HP HM) as [HMn _].
    apply IH; [assumption|]. right.
    apply (ancestors_closed doc root Hok _ N D M HN); [lia | assumption|].
    apply (parent_of_child doc root Hok); assumption.
Qed.

(** C5. For a toggle of [N] to [v] in a tree that meets the structural
    contract, the writes of the handler are, in order: first the write of
    [(v, not indeterminate)] to every descendant of [N], and only then one
    write per ancestor of [N], starting with the immediate parent, each
    next one being the parent of the one before, up to a checkbox that has
    no parent; every ancestor is visited. *)
Theorem C5_toggle_order (doc : elem) (root N : path) (v : bool) (s : page) :
  structure_ok doc root = true -> is_node doc root N = true ->
  exists ups,
    log (onToggle doc N v s) =
      log s
      ++ map (fun d => (d, {| checked := v; indeterminate := false |})) (forced doc N)
      ++ ups /\
    (forall d, In d (forced doc N) <-> descendant doc d N) /\
    bottom_up doc root N (map fst ups) /\
    (forall P, is_node doc root P = true -> descendant doc N P ->
               In P (map fst ups)).
Proof.
  intros Hok HN. unfold onToggle. rewrite createChangeHandler_unfold.
  rewrite cbs_assign_checked_self. cbn [checked].
  set (A := ancestors doc (S (length N)) N).
  destruct (update_all_log doc A
              (fold_left
                 (fun s' c => write c {| checked := v; indeterminate := false |} s')
                 (forced doc N) (assign_checked N v s))) as [ups [Hlog Hfst]].
  { intros P HP.
    destruct (ancestors_nodes doc root Hok _ N P HN HP) as [_ [_ Hd]].
    exact (descendant_has_children doc N P Hd). }
  exists ups. rewrite Hlog, write_all_log, Hfst. split.
  - rewrite <- app_assoc. reflexivity.
  - split; [|split].
    + intros d. split.
      * apply (forced_descendant doc root Hok); assumption.
      * apply (descendant_forced doc root Hok); assumption.
    + apply (ancestors_bottom_up doc root Hok); [assumption | lia].
    + intros P HP Hd.
      apply (ancestors_complete doc root N Hok HN P HP N Hd). left. reflexivity.
Qed.

Lemma C5_witness :
  structure_ok three_level tree_root = true /\
  is_node three_level tree_root child1 = true /\
  exists ups,
    log (onToggle three_level child1 true blank) =
      log blank
      ++ map (fun d => (d, {| checked := true; indeterminate := false |}))
             (forced three_level child1)
      ++ ups /\
    (forall d, In d (forced three_level child1) <-> descendant three_level d child1) /\
    bottom_up three_level tree_root child1 (map fst ups) /\
    (forall P, is_node three_level tree_root P = true ->
               descendant three_level child1 P -> In P (map fst ups)).
Proof.
  assert (H1 : structure_ok three_level tree_root = true) by reflexivity.
  assert (H2 : is_node three_level tree_root child1 = true) by reflexivity.
  split; [exact H1|]. split; [exact H2|].
  exact (C5_toggle_order three_level tree_root child1 true blank H1 H2).
Defined.

Lemma update_all_exclusive (doc : elem) (L : list path) (s : page) (x : path) :
  exclusive (cbs s x) -> exclusive (cbs (update_all doc L s) x).
Proof.
  revert s. induction L as [|N L IH]; intros s H; [exact H|].
  rewrite update_all_cons. apply IH.
  destruct (path_eq_dec x N) as [->|Hx].
  - destruct (_findChildCheckboxes doc N) as [|c cs] eqn:Hcs.
    + rewrite updateParentState_leaf by assumption. exact H.
    + rewrite updateParentState_self by congruence. apply rule_exclusive.
  - rewrite updateParentState_other by assumption. exact H.
Qed.

Lemma write_all_exclusive (v : bool) (L : list path) (s : page) (x : path) :
  exclusive (cbs s x) ->
  exclusive (cbs (fold_left
                    (fun s' c => write c {| checked := v; indeterminate := false |} s')
                    L s) x).
Proof.
  intros H. destruct (in_dec path_eq_dec x L) as [Hin | Hout].
  - rewrite write_all_in by assumption. intros [_ E]. discriminate.
  - rewrite write_all_out by assumption. exact H.
Qed.

(** C6. [checked] and [indeterminate] exclude each other on every node,
    and the component keeps it so: if no checkbox has both flags set, none
    has after [_initializeState], and none has after a toggle by the user,
    the toggled checkbox included. *)
Theorem C6_checked_excludes_indeterminate (doc : elem) (root N : path) (v : bool)
    (s : page) :
  (forall x, exclusive (cbs s x)) ->
  (forall x, exclusive (cbs (_initializeState doc root s) x)) /\
  (forall x, exclusive (cbs (userToggle doc N v s) x)).
Proof.
  intros Hex. split.
  - intros x. rewrite initializeState_owners. apply update_all_exclusive, Hex.
  - intros x. unfold userToggle. rewrite createChangeHandler_unfold.
    apply update_all_exclusive, write_all_exclusive.
    destruct (path_eq_dec x N) as [->|Hx].
    + rewrite cbs_user_flip_self. intros [_ E]. discriminate.
    + rewrite cbs_user_flip_other by assumption. apply Hex.
Qed.

Lemma C6_exclusive_witness :
  (forall x, exclusive (cbs half_checked x)) /\
  (forall x, exclusive (cbs (_initializeState two_level tree_root half_checked) x)) /\
  (forall x, exclusive (cbs (userToggle two_level top_box true half_checked) x)).
Proof.
  assert (H : forall x, exclusive (cbs half_checked x)).
  { intros x [H1 H2]. unfold half_checked in H1, H2. simpl in H1, H2.
    destruct (path_eqb x top_box); [discriminate|].
    destruct (path_eqb x child1); discriminate. }
  split; [exact H|].
  exact (C6_checked_excludes_indeterminate two_level tree_root top_box true
           half_checked H).
Defined.

(** C10. In a tree that meets the structural contract the handler of [N]
    leaves [N] itself as it found it, leaves every checkbox that is
    neither a descendant nor an ancestor of [N] as it found it, and every
    write it performs goes to a descendant or to an ancestor of [N]. *)
Theorem C10_toggle_frame (doc : elem) (root N : path) (s : page) :
  structure_ok doc root = true -> is_node doc root N = true ->
  cbs (_createChangeHandler doc N s) N = cbs s N /\
  (forall M, ~ descendant doc M N -> ~ descendant doc N M ->
             cbs (_createChangeHandler doc N s) M = cbs s M) /\
  exists written,
    log (_createChangeHandler doc N s) = log s ++ written /\
    forall e, In e written ->
              descendant doc (fst e) N \/ descendant doc N (fst e).
Proof.
  intros Hok HN. split; [|split].
  - apply (createChangeHandler_self doc root Hok N HN).
  - intros M Hd Ha. apply createChangeHandler_frame.
    + intros H. apply Hd. apply (forced_descendant doc root Hok); assumption.
    + intros H. apply Ha.
      destruct (ancestors_nodes doc root Hok _ N M HN H) as [_ [_ HdN]]. exact HdN.
  - rewrite createChangeHandler_unfold.
    set (val := {| checked := checked (cbs s N); indeterminate := false |}).
    destruct (update_all_log doc (ancestors doc (S (length N)) N)
                (fold_left (fun s' c => write c val s') (forced doc N) s))
      as [ups [Hlog Hfst]].
    { intros P HP.
      destruct (ancestors_nodes doc root Hok _ N P HN HP) as [_ [_ Hd]].
      exact (descendant_has_children doc N P Hd). }
    exists (map (fun c => (c, val)) (forced doc N) ++ ups).
    rewrite Hlog, write_all_log, <- app_assoc. split; [reflexivity|].
    intros e He. apply in_app_or in He. destruct He as [He | He].
    + left. apply in_map_iff in He. destruct He as [c [<- Hc]]. simpl.
      apply (forced_descendant doc root Hok); assumption.
    + right. assert (Hin : In (fst e) (map fst ups)) by (apply in_map; assumption).
      rewrite Hfst in Hin.
      destruct (ancestors_nodes doc root Hok _ N (fst e) HN Hin) as [_ [_ Hd]].
      exact Hd.
Qed.

Lemma C10_witness :
  structure_ok three_level tree_root = true /\
  is_node three_level tree_root child1 = true /\
  cbs (_createChangeHandler three_level child1
         (assign_checked child1 true blank)) child1
  = cbs (assign_checked child1 true blank) child1.
Proof.
  assert (H1 : structure_ok three_level tree_root = true) by reflexivity.
  assert (H2 : is_node three_level tree_root child1 = true) by reflexivity.
  split; [exact H1|]. split; [exact H2|].
  exact (proj1 (C10_toggle_frame three_level tree_root child1
                  (assign_checked child1 true blank) H1 H2)).
Defined.

(* ================================================================== *)
(** ** Construction and teardown                                        *)
(* ================================================================== *)

Section Lifecycle.

Variable doc : elem.
Variable resolve : string -> list path.

Lemma listeners_write (p : path) (v : checkbox) (s : page) :
  listeners (write p v s) = listeners s /\
  next_handler (write p v s) = next_handler s /\
  console (write p v s) = console s.
Proof. repeat split. Qed.

Lemma listeners_updateParentState (N : path) (s : page) :
  listeners (_updateParentState doc N s) = listeners s /\
  next_handler (_updateParentState doc N s) = next_handler s /\
  console (_updateParentState doc N s) = console s.
Proof.
  destruct (_findChildCheckboxes doc N) as [|c cs] eqn:E.
  - rewrite updateParentState_leaf by assumption. repeat split.
  - rewrite updateParentState_write by congruence. apply listeners_write.
Qed.

Lemma listeners_update_all (L : list path) (s : page) :
  listeners (update_all doc L s) = listeners s /\
  next_handler (update_all doc L s) = next_handler s /\
  console (update_all doc L s) = console s.
Proof.
  revert s. induction L as [|x L IH]; intros s; [repeat split|].
  rewrite update_all_cons.
  destruct (IH (_updateParentState doc x s)) as [H1 [H2 H3]].
  destruct (listeners_updateParentState x s) as [G1 [G2 G3]].
  rewrite H1, H2, H3. auto.
Qed.

Lemma map_set_fresh (k : path) (h : handler) (m : list (path * handler)) :
  ~ In k (map fst m) -> map_set k h m = m ++ [(k, h)].
Proof.
  induction m as [|[k' h'] m IH]; simpl; intros H; [reflexivity|].
  rewrite path_eqb_neq by (intros ->; apply H; left; reflexivity).
  rewrite IH by (intros Hin; apply H; right; assumption). reflexivity.
Qed.

Lemma attached_cons (c : path) (cs : list path) (n : handler) :
  attached (c :: cs) n = (c, n) :: attached cs (S n).
Proof. reflexivity. Qed.

Lemma attached_app (cs1 cs2 : list path) (n : handler) :
  attached (cs1 ++ cs2) n = attached cs1 n ++ attached cs2 (n + length cs1).
Proof.
  revert n. induction cs1 as [|c cs1 IH]; intros n; simpl.
  - rewrite Nat.add_0_r. reflexivity.
  - rewrite !attached_cons, IH. simpl. do 3 f_equal. lia.
Qed.

Lemma attached_fst (cs : list path) (n : handler) :
  map fst (attached cs n) = cs.
Proof.
  revert n. induction cs as [|c cs IH]; intros n; [reflexivity|].
  rewrite attached_cons. simpl. rewrite IH. reflexivity.
Qed.

Lemma attached_fresh (cs : list path) (n : handler) (l : path * handler) :
  In l (attached cs n) -> n <= snd l.
Proof.
  revert n. induction cs as [|c cs IH]; intros n; [intros []|].
  rewrite attached_cons. intros [<- | H]; [simpl; lia|].
  apply IH in H. lia.
Qed.

Lemma attach_all (cs : list path) :
  forall hs s,
    listeners (snd (fold_left attach cs (hs, s)))
      = listeners s ++ attached cs (next_handler s) /\
    next_handler (snd (fold_left attach cs (hs, s)))
      = next_handler s + length cs /\
    console (snd (fold_left attach cs (hs, s))) = console s /\
    (NoDup (map fst hs ++ cs) ->
     fst (fold_left attach cs (hs, s)) = hs ++ attached cs (next_handler s)).
Proof.
  induction cs as [|c cs IH]; intros hs s.
  - simpl. rewrite !app_nil_r, Nat.add_0_r. auto.
  - cbn [fold_left attach new_closure]. cbn [attach].
    match goal with |- context [fold_left attach cs (?h, ?p)] =>
      destruct (IH h p) as [H1 [H2 [H3 H4]]] end.
    rewrite H1, H2, H3. cbn [listeners next_handler console addEventListener length].
    rewrite attached_cons, <- !app_assoc. cbn [app].
    split; [reflexivity|]. split; [lia|]. split; [reflexivity|].
    intros Hnd.
    assert (Hc : ~ In c (map fst hs)).
    { intros Hin. apply NoDup_remove_2 in Hnd. apply Hnd.
      apply in_or_app. left. assumption. }
    rewrite H4.
    + rewrite (map_set_fresh c _ hs Hc), <- app_assoc. reflexivity.
    + rewrite (map_set_fresh c _ hs Hc), map_app. simpl.
      rewrite <- app_assoc. exact Hnd.
Qed.

Lemma init_all (rs : list path) :
  forall hs s,
    listeners (snd (_init doc rs (hs, s)))
      = listeners s
        ++ attached (flat_map (querySelectorAll doc (Sel INPUT)) rs) (next_handler s) /\
    next_handler (snd (_init doc rs (hs, s)))
      = next_handler s + length (flat_map (querySelectorAll doc (Sel INPUT)) rs) /\
    console (snd (_init doc rs (hs, s))) = console s /\
    (NoDup (map fst hs ++ flat_map (querySelectorAll doc (Sel INPUT)) rs) ->
     fst (_init doc rs (hs, s))
       = hs ++ attached (flat_map (querySelectorAll doc (Sel INPUT)) rs)
                        (next_handler s)).
Proof.
  induction rs as [|r rs IH]; intros hs s.
  - simpl. rewrite !app_nil_r, Nat.add_0_r. auto.
  - unfold _init. cbn [fold_left flat_map].
    destruct (attach_all (querySelectorAll doc (Sel INPUT) r) hs s)
      as [A1 [A2 [A3 A4]]].
    destruct (fold_left attach (querySelectorAll doc (Sel INPUT) r) (hs, s))
      as [hs1 s1] eqn:E. cbn [fst snd] in A1, A2, A3, A4.
    fold (_init doc rs (hs1, _initializeState doc r s1)).
    destruct (IH hs1 (_initializeState doc r s1)) as [H1 [H2 [H3 H4]]].
    rewrite initializeState_owners in H1, H2, H3, H4 |- *.
    destruct (listeners_update_all (owners doc (sortedUls doc r)) s1)
      as [U1 [U2 U3]].
    rewrite U1, U2 in H1. rewrite U2 in H2. rewrite U3 in H3. rewrite U2 in H4.
    rewrite H1, H2, H3, A1, A2, A3, attached_app, length_app, <- app_assoc.
    split; [reflexivity|]. split; [lia|]. split; [reflexivity|].
    intros Hnd. rewrite app_assoc in Hnd.
    assert (Hhs1 : hs1 = hs ++ attached (querySelectorAll doc (Sel INPUT) r)
                                        (next_handler s)).
    { apply A4. apply NoDup_app_remove_r in Hnd. exact Hnd. }
    rewrite H4.
    + rewrite Hhs1, A2, <- app_assoc. reflexivity.
    + rewrite Hhs1, map_app, attached_fst. exact Hnd.
Qed.

Lemma filter_twice {A : Type} (f g : A -> bool) (l : list A) :
  filter f (filter g l) = filter (fun x => g x && f x) l.
Proof.
  induction l as [|a l IH]; simpl; [reflexivity|].
  destruct (g a); simpl; [destruct (f a)|]; rewrite IH; reflexivity.
Qed.

Lemma remove_all (hs : list (path * handler)) :
  forall s,
    listeners (fold_left (fun s' kh => removeEventListener (fst kh) (snd kh) s') hs s)
    = filter (fun l => negb (existsb (same_listener l) hs)) (listeners s).
Proof.
  induction hs as [|kh hs IH]; intros s.
  - simpl. symmetry. apply filter_true.
  - cbn [fold_left]. rewrite IH. cbn [listeners removeEventListener].
    rewrite filter_twice. apply filter_ext. intros l. cbn beta. cbn [existsb].
    rewrite negb_orb. reflexivity.
Qed.

Lemma same_listener_refl (l : path * handler) : same_listener l l = true.
Proof. unfold same_listener. rewrite path_eqb_refl, Nat.eqb_refl. reflexivity. Qed.

Lemma same_listener_eq (a b : path * handler) :
  same_listener a b = true -> a = b.
Proof.
  unfold same_listener. intros H. apply andb_true_iff in H. destruct H as [H1 H2].
  destruct (path_eqb_spec (fst a) (fst b)); [|discriminate].
  apply Nat.eqb_eq in H2. destruct a, b. simpl in *. congruence.
Qed.

(** [destroy] on an instance whose construction went through: it succeeds,
    takes off every listener recorded in [_handlers], empties the map, and
    a second call changes neither the instance nor the page. *)
Lemma destroy_attached (this : instance) (hs : list (path * handler)) (s : page) :
  _handlers this = Some hs ->
  exists this' s',
    destroy this s = Ok (this', s') /\
    _handlers this' = Some [] /\ roots this' = roots this /\
    listeners s'
      = filter (fun l => negb (existsb (same_listener l) hs)) (listeners s) /\
    (forall l, In l hs -> ~ In l (listeners s')) /\
    destroy this' s' = Ok (this', s').
Proof.
  intros H. unfold destroy. rewrite H.
  eexists. eexists. split; [reflexivity|].
  split; [reflexivity|]. split; [reflexivity|].
  split; [apply remove_all|]. split; [|reflexivity].
  intros l Hl Hin. rewrite remove_all in Hin. apply filter_In in Hin.
  destruct Hin as [_ Hf]. apply negb_true_iff in Hf.
  assert (Ht : existsb (same_listener l) hs = true).
  { apply existsb_exists. exists l. split; [assumption | apply same_listener_refl]. }
  congruence.
Qed.

(** When no checkbox lies under two of the roots, the instance records
    every listener it registers, and [destroy] puts the listeners of the
    page back to what they were before the construction. *)
Lemma destroy_detaches (sel : selector_arg) (s : page) :
  _getElements resolve sel <> [] ->
  NoDup (flat_map (querySelectorAll doc (Sel INPUT)) (_getElements resolve sel)) ->
  (forall l, In l (listeners s) -> snd l < next_handler s) ->
  exists this s1 this' s2,
    constructor doc resolve sel s = Ok (this, s1) /\
    destroy this s1 = Ok (this', s2) /\
    listeners s2 = listeners s.
Proof.
  intros Hne Hnd Hold. unfold constructor.
  destruct (_getElements resolve sel) as [|r rs] eqn:Hrs; [congruence|].
  cbn [length Nat.eqb].
  destruct (init_all (r :: rs) [] s) as [H1 [_ [_ H4]]].
  specialize (H4 Hnd).
  destruct (_init doc (r :: rs) ([], s)) as [hs s1] eqn:E.
  cbn [fst snd] in H1, H4. simpl in H4.
  destruct (destroy_attached {| roots := r :: rs; _handlers := Some hs |} hs s1 eq_refl)
    as [this' [s2 [Hd [_ [_ [Hl _]]]]]].
  exists {| roots := r :: rs; _handlers := Some hs |}, s1, this', s2.
  split; [reflexivity|]. split; [exact Hd|].
  rewrite Hl, H1, H4, filter_app.
  rewrite (filter_nothing _ (attached _ _)).
  - rewrite app_nil_r. apply forallb_filter_id. apply forallb_forall.
    intros l Hin. apply negb_true_iff.
    destruct (existsb _ _) eqn:Hex; [|reflexivity].
    apply existsb_exists in Hex. destruct Hex as [l' [Hl' Heq]].
    apply same_listener_eq in Heq. subst l'.
    apply attached_fresh in Hl'. specialize (Hold l Hin). lia.
  - intros l Hin. apply negb_false_iff, existsb_exists.
    exists l. split; [assumption | apply same_listener_refl].
Qed.

(** Without listeners on the target nothing runs on a 'change'. *)
Lemma dispatchChange_no_listener (target : path) (s : page) :
  (forall l, In l (listeners s) -> fst l <> target) ->
  dispatchChange doc target s = s.
Proof.
  unfold dispatchChange. generalize (listeners s) at 1 2.
  intros ls. revert s. induction ls as [|l ls IH]; intros s H; [reflexivity|].
  simpl. rewrite path_eqb_neq by (apply H; left; reflexivity).
  apply IH. intros l' Hl'. apply H. right. assumption.
Qed.

End Lifecycle.

(** After the teardown of an instance built on a page without listeners,
    over roots that share no checkbox, a 'change' on any element runs no
    handler: no propagation takes place. *)
Lemma no_propagation_after_destroy (doc : elem) (resolve : string -> list path)
    (sel : selector_arg) (s : page) (target : path) :
  _getElements resolve sel <> [] ->
  NoDup (flat_map (querySelectorAll doc (Sel INPUT)) (_getElements resolve sel)) ->
  listeners s = [] ->
  exists this s1 this' s2,
    constructor doc resolve sel s = Ok (this, s1) /\
    destroy this s1 = Ok (this', s2) /\
    destroy this' s2 = Ok (this', s2) /\
    dispatchChange doc target s2 = s2.
Proof.
  intros Hne Hnd Hnone.
  destruct (destroy_detaches doc resolve sel s Hne Hnd) as [this [s1 [this' [s2 [Hc [Hd Hl]]]]]].
  { rewrite Hnone. intros l []. }
  exists this, s1, this', s2. split; [exact Hc|]. split; [exact Hd|].
  split.
  - unfold destroy in Hd. destruct (_handlers this) as [hs|]; [|discriminate].
    injection Hd as <- <-. reflexivity.
  - apply dispatchChange_no_listener. rewrite Hl, Hnone. intros l [].
Qed.

(** Roots that overlap make [_init] register two listeners on a shared
    checkbox while [_handlers] keeps only the later one: the earlier ones
    stay registered after [destroy]. *)
Lemma overlapping_roots_keep_listeners :
  exists this s1 this' s2,
    constructor two_level no_match (ByList [tree_root; [2; 0; 0]]) blank
      = Ok (this, s1) /\
    destroy this s1 = Ok (this', s2) /\
    listeners s2 = [(child1, 1); (child2, 2)].
Proof. do 4 eexists. split; [reflexivity|]. split; reflexivity. Qed.

(** C7. When the argument of the constructor resolves to no container,
    the constructor returns normally: the instance has an empty root set
    and no handler map, one line has been sent to [console.error], and no
    listener has been registered, no closure created and no checkbox
    read or written. *)
Theorem C7_no_containers (doc : elem) (resolve : string -> list path)
    (sel : selector_arg) (s : page) :
  _getElements resolve sel = [] ->
  exists this s',
    constructor doc resolve sel s = Ok (this, s') /\
    roots this = [] /\ _handlers this = None /\
    console s' = console s ++ [no_elements] /\
    listeners s' = listeners s /\ next_handler s' = next_handler s /\
    log s' = log s /\ cbs s' = cbs s.
Proof.
  intros H. unfold constructor. rewrite H. simpl.
  eexists. eexists. split; [reflexivity|]. repeat split.
Qed.

Lemma C7_witness :
  _getElements no_match (ByString ".missing") = [] /\
  exists this s',
    constructor two_level no_match (ByString ".missing") blank = Ok (this, s') /\
    roots this = [] /\ _handlers this = None /\
    console s' = console blank ++ [no_elements] /\
    listeners s' = listeners blank /\ next_handler s' = next_handler blank /\
    log s' = log blank /\ cbs s' = cbs blank.
Proof.
  assert (H : _getElements no_match (ByString ".missing") = []) by reflexivity.
  split; [exact H|].
  exact (C7_no_containers two_level no_match (ByString ".missing") blank H).
Defined.

(** C8 at the instance the failed construction of C7 returns: the
    constructor has left [_handlers] undefined, and [destroy], which reads
    it without a test, throws on the first call already. *)
Theorem C8_destroy_inert_instance_throws :
  exists this s',
    constructor two_level no_match (ByString ".missing") blank = Ok (this, s') /\
    roots this = [] /\
    destroy this s' = Throw undefined_handlers.
Proof. do 2 eexists. split; [reflexivity|]. split; reflexivity. Qed.

(* ================================================================== *)
(** ** Further properties of the code                                   *)
(* ================================================================== *)

Lemma sort_insert_depth (x : path) (l : list path) (d : nat) :
  filter (fun u => _getElementDepth u =? d) (sort_insert deepest_first x l) =
  filter (fun u => _getElementDepth u =? d) (x :: l).
Proof.
  induction l as [|y l IH]; [reflexivity|].
  cbn [sort_insert]. rewrite deepest_first_le.
  destruct (length y <=? length x) eqn:E; [reflexivity|].
  apply Nat.leb_gt in E.
  cbn [filter] in IH |- *. rewrite IH. rewrite !getElementDepth_length.
  destruct (length x =? d) eqn:Ex; [|reflexivity].
  apply Nat.eqb_eq in Ex.
  destruct (length y =? d) eqn:Ey; [|reflexivity].
  apply Nat.eqb_eq in Ey. lia.
Qed.

(** X1. The lists [_initializeState] works through are the lists below
    the root sorted deepest first, and among lists of one and the same
    depth the sort keeps the document order of [querySelectorAll]. *)
Theorem X1_sortedUls_keeps_document_order (doc : elem) (root : path) (d : nat) :
  filter (fun u => _getElementDepth u =? d) (sortedUls doc root) =
  filter (fun u => _getElementDepth u =? d) (querySelectorAll doc (Sel UL) root).
Proof.
  unfold sortedUls. induction (querySelectorAll doc (Sel UL) root) as [|x l IH];
    [reflexivity|].
  cbn [array_sort fold_right]. fold (array_sort deepest_first l).
  rewrite sort_insert_depth. cbn [filter]. rewrite IH. reflexivity.
Qed.

(** X2. For any document, recomputing a parent changes no checkbox other
    than that parent, and recomputing it a second time right away changes
    nothing at all: a checkbox is never among its own children. *)
Theorem X2_updateParentState_idempotent (doc : elem) (N : path) (s : page) :
  (forall q, q <> N -> cbs (_updateParentState doc N s) q = cbs s q) /\
  (forall q, cbs (_updateParentState doc N (_updateParentState doc N s)) q =
             cbs (_updateParentState doc N s) q).
Proof.
  split; [intros q Hq; apply updateParentState_other; assumption|].
  intros q. destruct (path_eq_dec q N) as [->|Hq].
  - destruct (_findChildCheckboxes doc N) as [|c cs] eqn:Hcs.
    + rewrite !updateParentState_leaf by assumption. reflexivity.
    + rewrite !updateParentState_self by congruence.
      apply rule_ext. intros x Hx. apply updateParentState_children. exact Hx.
  - apply updateParentState_other. assumption.
Qed.

(** X3. In a tree that meets the structural contract, [_findParentCheckbox]
    and [_findChildCheckboxes] describe one relation: [P] is the parent
    found for [c] exactly when [c] is among the children found for [P]. *)
Theorem X3_parent_child_inverse (doc : elem) (root c P : path) :
  structure_ok doc root = true ->
  is_node doc root c = true -> is_node doc root P = true ->
  (_findParentCheckbox doc c = Some P <-> In c (_findChildCheckboxes doc P)).
Proof.
  intros Hok Hc HP. split.
  - intros H. apply (child_of_parent doc root Hok c P Hc H).
  - intros H. apply (parent_of_child doc root Hok P c HP H).
Qed.

Lemma X3_witness :
  structure_ok three_level tree_root = true /\
  is_node three_level tree_root grandchild1 = true /\
  is_node three_level tree_root child1 = true /\
  (_findParentCheckbox three_level grandchild1 = Some child1 <->
   In grandchild1 (_findChildCheckboxes three_level child1)).
Proof.
  assert (H1 : structure_ok three_level tree_root = true) by reflexivity.
  assert (H2 : is_node three_level tree_root grandchild1 = true) by reflexivity.
  assert (H3 : is_node three_level tree_root child1 = true) by reflexivity.
  split; [exact H1|]. split; [exact H2|]. split; [exact H3|].
  exact (X3_parent_child_inverse three_level tree_root grandchild1 child1 H1 H2 H3).
Defined.

(** X4. For any document and any start, every parent the upward walk finds
    is a checkbox that is no deeper than the element it was found from,
    and strictly higher once the walk is at a checkbox; so the loop of
    [_updateAncestorCheckboxes] ends within one more iteration than the
    depth of its start, and allowing it more changes nothing. *)
Theorem X4_ancestor_walk_terminates (doc : elem) (c : path) (fuel : nat) (s : page) :
  S (length c) <= fuel ->
  (forall x P, _findParentCheckbox doc x = Some P ->
               matches doc INPUT P = true /\ length P <= length x /\
               (matches doc INPUT x = true -> length P < length x)) /\
  ancestors_loop doc fuel c s = _updateAncestorCheckboxes doc c s.
Proof.
  intros Hf. split; [|apply ancestors_loop_fuel; assumption].
  intros x P HP. destruct (findParentCheckbox_found doc x P HP) as [H1 [H2 H3]].
  split; [assumption|]. split; [assumption|].
  intros Hx. apply H3. destruct (matches doc LI x) eqn:E; [|reflexivity].
  discriminate (matches_unique _ _ _ _ Hx E).
Qed.

Lemma X4_witness :
  S (length grandchild1) <= 100 /\
  ancestors_loop three_level 100 grandchild1 blank =
  _updateAncestorCheckboxes three_level grandchild1 blank.
Proof.
  assert (H : S (length grandchild1) <= 100) by (simpl; lia).
  split; [exact H|].
  exact (proj2 (X4_ancestor_walk_terminates three_level grandchild1 100 blank H)).
Defined.

Lemma update_all_ext (doc : elem) (L : list path) (s t : page) :
  (forall p, cbs s p = cbs t p) ->
  forall p, cbs (update_all doc L s) p = cbs (update_all doc L t) p.
Proof.
  revert s t. induction L as [|x L IH]; intros s t H p; [apply H|].
  rewrite !update_all_cons. apply IH. intros q.
  destruct (path_eq_dec q x) as [->|Hq].
  - destruct (_findChildCheckboxes doc x) as [|c cs] eqn:Hcs.
    + rewrite !updateParentState_leaf by assumption. apply H.
    + rewrite !updateParentState_self by congruence.
      apply rule_ext. intros; apply H.
  - rewrite !updateParentState_other by assumption. apply H.
Qed.

(** X5. In a tree that meets the structural contract, running the change
    handler of a checkbox a second time, with nothing changed in between,
    leaves every checkbox as the first run left it. *)
Theorem X5_handler_idempotent (doc : elem) (root N : path) (s : page) :
  structure_ok doc root = true -> is_node doc root N = true ->
  forall p,
    cbs (_createChangeHandler doc N (_createChangeHandler doc N s)) p =
    cbs (_createChangeHandler doc N s) p.
Proof.
  intros Hok HN p.
  set (s1 := _createChangeHandler doc N s).
  rewrite (createChangeHandler_unfold doc N s1).
  apply update_all_fixed.
  - intros P HP. unfold s1. rewrite createChangeHandler_unfold.
    apply update_all_consistent.
    + intros Q c HQ Hc.
      destruct (ancestors_nodes doc root Hok _ N Q HN HQ) as [HQn _].
      rewrite (child_length doc root Hok Q c HQn Hc). lia.
    + apply (ancestors_sorted doc root Hok). assumption.
    + assumption.
  - intros q. destruct (in_dec path_eq_dec q (forced doc N)) as [Hin | Hout].
    + rewrite write_all_in by assumption. unfold s1.
      rewrite (createChangeHandler_forced doc root Hok N HN s q Hin).
      rewrite (createChangeHandler_self doc root Hok N HN s). reflexivity.
    + apply write_all_out. assumption.
Qed.

Lemma X5_witness :
  structure_ok three_level tree_root = true /\
  is_node three_level tree_root child1 = true /\
  forall p,
    cbs (_createChangeHandler three_level child1
           (_createChangeHandler three_level child1 half_checked)) p =
    cbs (_createChangeHandler three_level child1 half_checked) p.
Proof.
  assert (H1 : structure_ok three_level tree_root = true) by reflexivity.
  assert (H2 : is_node three_level tree_root child1 = true) by reflexivity.
  split; [exact H1|]. split; [exact H2|].
  exact (X5_handler_idempotent three_level tree_root child1 half_checked H1 H2).
Defined.

Lemma in_forced (doc : elem) (N x : path) :
  In x (forced doc N) -> matches doc INPUT x = true.
Proof.
  unfold forced. destruct (closest doc LI N) as [li|]; [|intros []].
  destruct (querySelector doc (Sel UL) li) as [ul|]; [|intros []].
  intros H. apply in_sel in H. destruct H as [d [_ [_ Hm]]]. exact Hm.
Qed.

(** X6. For any document, [_setChildCheckboxes] writes checkboxes only,
    every checkbox it writes gets exactly [(isChecked, not indeterminate)],
    and of two calls in a row for the same checkbox the later one decides:
    the result is that of the later call alone. *)
Theorem X6_setChildCheckboxes_last_call_wins (doc : elem) (N : path)
    (v v' : bool) (s : page) :
  (forall q, matches doc INPUT q = false ->
             cbs (_setChildCheckboxes doc N v s) q = cbs s q) /\
  (forall q, cbs (_setChildCheckboxes doc N v s) q = cbs s q \/
             cbs (_setChildCheckboxes doc N v s) q
               = {| checked := v; indeterminate := false |}) /\
  (forall q, cbs (_setChildCheckboxes doc N v' (_setChildCheckboxes doc N v s)) q =
             cbs (_setChildCheckboxes doc N v' s) q).
Proof.
  rewrite !setChildCheckboxes_forced. split; [|split].
  - intros q Hq. apply write_all_out. intros Hin.
    apply in_forced in Hin. congruence.
  - intros q. destruct (in_dec path_eq_dec q (forced doc N)) as [Hin | Hout].
    + right. apply write_all_in. assumption.
    + left. apply write_all_out. assumption.
  - intros q.
    destruct (in_dec path_eq_dec q (forced doc N)) as [Hin | Hout].
    + rewrite !write_all_in by assumption. reflexivity.
    + rewrite !write_all_out by assumption. reflexivity.
Qed.

Lemma leaf_forces_nothing (doc : elem) (root N : path) :
  structure_ok doc root = true -> is_node doc root N = true ->
  _findChildCheckboxes doc N = [] -> forced doc N = [].
Proof.
  intros Hok HN Hleaf. destruct (forced doc N) as [|x l] eqn:E; [reflexivity|].
  exfalso.
  assert (Hx : In x (forced doc N)) by (rewrite E; left; reflexivity).
  apply (forced_descendant doc root Hok N x HN) in Hx.
  exact (descendant_has_children doc x N Hx Hleaf).
Qed.

(** X7. In a tree that meets the structural contract, the downward pass
    does nothing for a checkbox without children, the upward pass does
    nothing for a checkbox of a top-level item, and so the change handler
    of a top-level checkbox without children returns the page as it was. *)
Theorem X7_nothing_to_propagate (doc : elem) (root N : path) (v : bool) (s : page) :
  structure_ok doc root = true -> is_node doc root N = true ->
  (_findChildCheckboxes doc N = [] -> _setChildCheckboxes doc N v s = s) /\
  (_findParentCheckbox doc N = None -> _updateAncestorCheckboxes doc N s = s) /\
  (forall j a, N = j :: a :: root -> _findParentCheckbox doc N = None) /\
  (_findChildCheckboxes doc N = [] -> _findParentCheckbox doc N = None ->
   _createChangeHandler doc N s = s).
Proof.
  intros Hok HN.
  assert (Hdown : forall b t, _findChildCheckboxes doc N = [] ->
                              _setChildCheckboxes doc N b t = t).
  { intros b t Hleaf. rewrite setChildCheckboxes_forced.
    rewrite (leaf_forces_nothing doc root N Hok HN Hleaf). reflexivity. }
  assert (Hup : forall t, _findParentCheckbox doc N = None ->
                          _updateAncestorCheckboxes doc N t = t).
  { intros t Htop. unfold _updateAncestorCheckboxes. simpl. rewrite Htop. reflexivity. }
  split; [apply Hdown|]. split; [apply Hup|]. split.
  - intros j a E. subst N. apply (top_level_no_parent doc root Hok). assumption.
  - intros Hleaf Htop. unfold _createChangeHandler.
    rewrite Hdown by assumption. apply Hup. assumption.
Qed.

Lemma X7_witness :
  structure_ok two_level tree_root = true /\
  is_node two_level tree_root child2 = true /\
  _setChildCheckboxes two_level child2 true half_checked = half_checked.
Proof.
  assert (H1 : structure_ok two_level tree_root = true) by reflexivity.
  assert (H2 : is_node two_level tree_root child2 = true) by reflexivity.
  split; [exact H1|]. split; [exact H2|].
  exact (proj1 (X7_nothing_to_propagate two_level tree_root child2 true half_checked
                  H1 H2) eq_refl).
Defined.

Lemma update_all_unlisted (doc : elem) (L : list path) (s : page) (q : path) :
  (In q L -> _findChildCheckboxes doc q = []) ->
  cbs (update_all doc L s) q = cbs s q.
Proof.
  revert s. induction L as [|x L IH]; intros s H; [reflexivity|].
  rewrite update_all_cons, IH by (intros Hin; apply H; right; assumption).
  destruct (path_eq_dec q x) as [->|Hq].
  - rewrite updateParentState_leaf; [reflexivity|]. apply H. left. reflexivity.
  - apply updateParentState_other. assumption.
Qed.

(** X8. For any document, [_initializeState] never changes a checkbox that
    has no child checkboxes, nor anything that is not a checkbox strictly
    below the root it is given: the states of the leaves are taken as they
    are. *)
Theorem X8_initialization_leaves_leaves (doc : elem) (root q : path) (s : page) :
  _findChildCheckboxes doc q = [] \/ matches doc INPUT q = false \/
  within root q = false \/ q = root ->
  cbs (_initializeState doc root s) q = cbs s q.
Proof.
  intros H. rewrite initializeState_owners. apply update_all_unlisted.
  intros Hin. apply in_owners in Hin.
  destruct Hin as [k [above [i [Hul [-> Hi]]]]].
  unfold sortedUls in Hul.
  apply (Permutation_in _ (array_sort_perm _ _)) in Hul.
  apply in_sel in Hul. destruct Hul as [d [Hd [E _]]].
  destruct d as [|k' d]; [congruence|]. injection E as -> ->.
  destruct H as [H | [H | [H | H]]].
  - exact H.
  - congruence.
  - assert (Hw : within root (i :: d ++ root) = true)
      by (apply within_spec; exists (i :: d); reflexivity).
    congruence.
  - exfalso. apply (app_length_neq (i :: d) root); [discriminate | exact H].
Qed.

Lemma X8_witness :
  _findChildCheckboxes three_level grandchild1 = [] /\
  cbs (_initializeState three_level tree_root (assign_checked grandchild1 true blank))
      grandchild1
  = cbs (assign_checked grandchild1 true blank) grandchild1.
Proof.
  assert (H : _findChildCheckboxes three_level grandchild1 = []) by reflexivity.
  split; [exact H|].
  exact (X8_initialization_leaves_leaves three_level tree_root grandchild1
           (assign_checked grandchild1 true blank) (or_introl H)).
Defined.

Lemma update_all_agree (doc : elem) (L : list path) :
  forall s t,
    StronglySorted (fun a b => length b <= length a) L ->
    (forall N c, In N L -> In c (_findChildCheckboxes doc N) -> length N < length c) ->
    (forall N c, In N L -> In c (_findChildCheckboxes doc N) ->
                 In c L \/ cbs s c = cbs t c) ->
    (forall N, In N L -> _findChildCheckboxes doc N = [] -> cbs s N = cbs t N) ->
    forall N, In N L -> cbs (update_all doc L s) N = cbs (update_all doc L t) N.
Proof.
  induction L as [|x L IH]; intros s t Hs Hlen Hkids Hleaf N HN; [destruct HN|].
  apply StronglySorted_inv in Hs. destruct Hs as [Hs Hx].
  rewrite !update_all_cons.
  assert (Hxkids : forall c, In c (_findChildCheckboxes doc x) ->
                             ~ In c L /\ cbs s c = cbs t c).
  { intros c Hc.
    pose proof (Hlen x c (or_introl eq_refl) Hc) as Hl.
    assert (Hn : ~ In c L).
    { intros Hin. rewrite Forall_forall in Hx. specialize (Hx c Hin). lia. }
    split; [exact Hn|].
    destruct (Hkids x c (or_introl eq_refl) Hc) as [[-> | Hin] | E];
      [lia | contradiction | exact E]. }
  assert (Hxx : cbs (_updateParentState doc x s) x = cbs (_updateParentState doc x t) x).
  { destruct (_findChildCheckboxes doc x) as [|c cs] eqn:Hcs.
    - rewrite !updateParentState_leaf by assumption.
      apply Hleaf; [left; reflexivity | assumption].
    - rewrite !updateParentState_self by congruence. rewrite Hcs.
      apply rule_ext. intros y Hy. apply Hxkids. exact Hy. }
  destruct (in_dec path_eq_dec N L) as [Hin | Hout].
  - apply IH; try assumption.
    + intros M c HM. apply Hlen. right. assumption.
    + intros M c HM Hc.
      destruct (Hkids M c (or_intror HM) Hc) as [[<- | Hc'] | E].
      * right. exact Hxx.
      * left. exact Hc'.
      * destruct (path_eq_dec c x) as [->|Hcx]; [right; exact Hxx|].
        right. rewrite !updateParentState_other by assumption. exact E.
    + intros M HM HMleaf. destruct (path_eq_dec M x) as [->|HMx]; [exact Hxx|].
      rewrite !updateParentState_other by assumption.
      apply Hleaf; [right|]; assumption.
  - destruct HN as [<- | HN]; [|contradiction].
    rewrite !update_all_other by assumption. exact Hxx.
Qed.

(** X9. In a tree that meets the structural contract, what
    [_initializeState] leaves in the checkboxes is decided by the states
    of the checkboxes without children alone: two pages that agree on
    those agree on every node of the tree afterwards, whatever the parents
    held before. *)
Theorem X9_initialization_decided_by_leaves (doc : elem) (root : path) (s t : page) :
  structure_ok doc root = true ->
  (forall N, is_node doc root N = true -> _findChildCheckboxes doc N = [] ->
             cbs s N = cbs t N) ->
  forall N, is_node doc root N = true ->
            cbs (_initializeState doc root s) N = cbs (_initializeState doc root t) N.
Proof.
  intros Hok Hleaves N HN. rewrite !initializeState_owners.
  destruct (_findChildCheckboxes doc N) as [|c0 cs0] eqn:Hcs.
  - rewrite !update_all_unlisted by (intros _; exact Hcs).
    apply Hleaves; assumption.
  - apply update_all_agree.
    + apply owners_sorted, array_sort_sorted.
    + intros M c HM Hc. apply (owner_is_node doc root Hok) in HM.
      rewrite (child_length doc root Hok M c HM Hc). lia.
    + intros M c HM Hc. apply (owner_is_node doc root Hok) in HM.
      pose proof (child_is_node doc root Hok M c HM Hc) as Hcn.
      destruct (_findChildCheckboxes doc c) as [|y ys] eqn:E.
      * right. apply Hleaves; assumption.
      * left. apply (internal_node_owned doc root Hok); [assumption | congruence].
    + intros M HM. apply Hleaves. apply (owner_is_node doc root Hok). assumption.
    + apply (internal_node_owned doc root Hok); [assumption | congruence].
Qed.

Lemma X9_witness :
  structure_ok two_level tree_root = true /\
  (forall N, is_node two_level tree_root N = true ->
             _findChildCheckboxes two_level N = [] ->
             cbs (assign_checked top_box true blank) N = cbs blank N) /\
  cbs (_initializeState two_level tree_root (assign_checked top_box true blank)) top_box
  = cbs (_initializeState two_level tree_root blank) top_box.
Proof.
  assert (H1 : structure_ok two_level tree_root = true) by reflexivity.
  assert (H2 : forall N, is_node two_level tree_root N = true ->
                         _findChildCheckboxes two_level N = [] ->
                         cbs (assign_checked top_box true blank) N = cbs blank N).
  { intros N _ Hleaf. apply cbs_assign_checked_other. intros ->.
    vm_compute in Hleaf. discriminate. }
  split; [exact H1|]. split; [exact H2|].
  exact (X9_initialization_decided_by_leaves two_level tree_root
           (assign_checked top_box true blank) blank H1 H2 top_box eq_refl).
Defined.

Lemma rule_mixed (st : store) (cs : list path) :
  cs <> [] -> some_indeterminate st cs \/ partly_checked st cs ->
  rule st cs = {| checked := false; indeterminate := true |}.
Proof.
  intros Hne H. destruct (rule_meaning st cs Hne) as [_ Hi].
  apply Hi in H. pose proof (rule_exclusive st cs) as Hex.
  destruct (rule st cs) as [c i]. simpl in *. subst i.
  destruct c; [exfalso; apply Hex; auto | reflexivity].
Qed.

Section Siblings.

Variable doc : elem.
Variable root : path.
Hypothesis Hok : structure_ok doc root = true.

Variables N P : path.
Hypothesis HN : is_node doc root N = true.
Hypothesis HP : _findParentCheckbox doc N = Some P.

Lemma parent_facts :
  is_node doc root P = true /\ In N (_findChildCheckboxes doc P) /\
  length N = 2 + length P /\
  ancestors doc (S (length N)) N = P :: ancestors doc (length N) P /\
  ~ In P (ancestors doc (length N) P).
Proof.
  destruct (child_of_parent doc root Hok N P HN HP) as [HPn Hin].
  split; [assumption|]. split; [assumption|].
  split; [apply (child_length doc root Hok); assumption|].
  split; [simpl; rewrite HP; reflexivity|].
  intros H. destruct (ancestors_nodes doc root Hok _ P P HPn H) as [_ [Hl _]]. lia.
Qed.

(** The state of a child of the parent of [N] when the upward pass
    starts. *)
Lemma sibling_before_upward (v : bool) (s : page) (c : path) :
  In c (_findChildCheckboxes doc P) ->
  cbs (fold_left
         (fun s' x => write x {| checked := v; indeterminate := false |} s')
         (forced doc N) (assign_checked N v s)) c
  = if path_eqb c N
    then {| checked := v; indeterminate := indeterminate (cbs s N) |}
    else cbs s c.
Proof.
  intros Hc. destruct parent_facts as [HPn [_ [Hlen _]]].
  destruct (path_eqb_spec c N) as [->|Hne].
  - rewrite write_all_out by (apply (self_not_forced doc root Hok N HN)).
    apply cbs_assign_checked_self.
  - rewrite write_all_out.
    + apply cbs_assign_checked_other. assumption.
    + apply (child_not_forced doc root Hok N HN P c HPn Hc).
      * intros E. rewrite E in Hlen. lia.
      * intros Hin. destruct (forced_is_node doc root Hok N P HN Hin) as [_ Hl]. lia.
Qed.

Lemma parent_after_toggle (v : bool) (s : page) :
  cbs (onToggle doc N v s) P
  = rule (fun c => if path_eqb c N
                   then {| checked := v; indeterminate := indeterminate (cbs s N) |}
                   else cbs s c)
         (_findChildCheckboxes doc P).
Proof.
  destruct parent_facts as [HPn [Hin [_ [Hanc Hnot]]]].
  unfold onToggle. rewrite createChangeHandler_unfold, cbs_assign_checked_self.
  cbn [checked]. rewrite Hanc, update_all_cons.
  rewrite update_all_other by assumption.
  rewrite updateParentState_self by (intros E; rewrite E in Hin; destruct Hin).
  apply rule_ext. intros c Hc. apply sibling_before_upward. assumption.
Qed.

End Siblings.

(** X10. In a tree that meets the structural contract, when a checkbox
    that is not indeterminate is set to [v] and every other child of its
    parent already holds [(v, not indeterminate)], the handler leaves the
    parent at [(v, not indeterminate)]: ticking the last unticked child
    ticks the parent, clearing the last ticked child clears it. *)
Theorem X10_last_sibling_completes_parent (doc : elem) (root N P : path)
    (v : bool) (s : page) :
  structure_ok doc root = true -> is_node doc root N = true ->
  _findParentCheckbox doc N = Some P ->
  indeterminate (cbs s N) = false ->
  (forall c, In c (_findChildCheckboxes doc P) -> c <> N ->
             cbs s c = {| checked := v; indeterminate := false |}) ->
  cbs (onToggle doc N v s) P = {| checked := v; indeterminate := false |}.
Proof.
  intros Hok HN HP Hclear Hsib.
  rewrite (parent_after_toggle doc root Hok N P HN HP).
  destruct (parent_facts doc root Hok N P HN HP) as [_ [Hin _]].
  apply rule_uniform.
  - intros E. rewrite E in Hin. destruct Hin.
  - intros c Hc. destruct (path_eqb_spec c N) as [->|Hne].
    + rewrite Hclear. reflexivity.
    + apply Hsib; assumption.
Qed.

Lemma X10_witness :
  structure_ok two_level tree_root = true /\
  is_node two_level tree_root child2 = true /\
  _findParentCheckbox two_level child2 = Some top_box /\
  indeterminate (cbs half_checked child2) = false /\
  cbs (onToggle two_level child2 true half_checked) top_box = ticked.
Proof.
  assert (H1 : structure_ok two_level tree_root = true) by reflexivity.
  assert (H2 : is_node two_level tree_root child2 = true) by reflexivity.
  assert (H3 : _findParentCheckbox two_level child2 = Some top_box) by reflexivity.
  assert (H4 : indeterminate (cbs half_checked child2) = false) by reflexivity.
  assert (H5 : forall c, In c (_findChildCheckboxes two_level top_box) ->
                         c <> child2 -> cbs half_checked c = ticked).
  { intros c Hc Hne. vm_compute in Hc.
    destruct Hc as [<- | [<- | []]]; [reflexivity|].
    exfalso. apply Hne. reflexivity. }
  split; [exact H1|]. split; [exact H2|]. split; [exact H3|]. split; [exact H4|].
  exact (X10_last_sibling_completes_parent two_level tree_root child2 top_box
           true half_checked H1 H2 H3 H4 H5).
Defined.

Lemma ancestors_all_mixed (doc : elem) (root : path) :
  structure_ok doc root = true ->
  forall fuel c s,
    is_node doc root c = true -> indeterminate (cbs s c) = true ->
    forall A, In A (ancestors doc fuel c) ->
              cbs (update_all doc (ancestors doc fuel c) s) A
              = {| checked := false; indeterminate := true |}.
Proof.
  intros Hok. induction fuel as [|fuel IH]; intros c s Hc Hind A HA; [destruct HA|].
  simpl in HA |- *.
  destruct (_findParentCheckbox doc c) as [P0|] eqn:HP0; [|destruct HA].
  destruct (child_of_parent doc root Hok c P0 Hc HP0) as [HP0n Hin].
  rewrite update_all_cons.
  assert (Hmix : cbs (_updateParentState doc P0 s) P0
                 = {| checked := false; indeterminate := true |}).
  { rewrite updateParentState_self by (intros E; rewrite E in Hin; destruct Hin).
    apply rule_mixed; [intros E; rewrite E in Hin; destruct Hin|].
    left. exists c. auto. }
  destruct (in_dec path_eq_dec A (ancestors doc fuel P0)) as [Hrest | Hnot].
  - apply IH; try assumption. rewrite Hmix. reflexivity.
  - destruct HA as [<- | HA]; [|contradiction].
    rewrite update_all_other by assumption. exact Hmix.
Qed.

(** X11. In a tree that meets the structural contract, when a checkbox is
    set to [v] while another child of its parent is indeterminate or holds
    the opposite value, the handler leaves every ancestor of the checkbox,
    up to the top, indeterminate and not checked. *)
Theorem X11_difference_marks_every_ancestor (doc : elem) (root N P c : path)
    (v : bool) (s : page) :
  structure_ok doc root = true -> is_node doc root N = true ->
  _findParentCheckbox doc N = Some P ->
  In c (_findChildCheckboxes doc P) -> c <> N ->
  indeterminate (cbs s c) = true \/ checked (cbs s c) = negb v ->
  forall A, is_node doc root A = true -> descendant doc N A ->
            cbs (onToggle doc N v s) A = {| checked := false; indeterminate := true |}.
Proof.
  intros Hok HN HP Hc Hne Hdiff A HA Hd.
  destruct (parent_facts doc root Hok N P HN HP) as [HPn [Hin [_ [Hanc Hnot]]]].
  set (st := fun x => if path_eqb x N
                      then {| checked := v; indeterminate := indeterminate (cbs s N) |}
                      else cbs s x).
  assert (Hmix : rule st (_findChildCheckboxes doc P)
                 = {| checked := false; indeterminate := true |}).
  { apply rule_mixed; [intros E; rewrite E in Hin; destruct Hin|].
    assert (HstN : checked (st N) = v) by (unfold st; rewrite path_eqb_refl; reflexivity).
    assert (Hstc : st c = cbs s c) by (unfold st; rewrite path_eqb_neq by assumption; reflexivity).
    destruct Hdiff as [Hi | Hv].
    - left. exists c. rewrite Hstc. auto.
    - right. destruct v; simpl in Hv.
      + split; [exists N | exists c]; (split; [assumption|]); [exact HstN | congruence].
      + split; [exists c | exists N]; (split; [assumption|]); [congruence | exact HstN]. }
  pose proof (ancestors_complete doc root N Hok HN A HA N Hd (or_introl eq_refl)) as HAin.
  rewrite Hanc in HAin.
  destruct (in_dec path_eq_dec A (ancestors doc (length N) P)) as [Hrest | Hout].
  - unfold onToggle. rewrite createChangeHandler_unfold, cbs_assign_checked_self.
    cbn [checked]. rewrite Hanc, update_all_cons.
    apply (ancestors_all_mixed doc root Hok); try assumption.
    rewrite updateParentState_self by (intros E; rewrite E in Hin; destruct Hin).
    rewrite (rule_ext _ st).
    + rewrite Hmix. reflexivity.
    + intros x Hx. apply (sibling_before_upward doc root Hok N P HN HP). assumption.
  - destruct HAin as [<- | HAin]; [|contradiction].
    rewrite (parent_after_toggle doc root Hok N P HN HP). exact Hmix.
Qed.

Lemma X11_witness :
  structure_ok three_level tree_root = true /\
  is_node three_level tree_root grandchild1 = true /\
  _findParentCheckbox three_level grandchild1 = Some child1 /\
  In grandchild2 (_findChildCheckboxes three_level child1) /\
  grandchild2 <> grandchild1 /\
  (indeterminate (cbs blank grandchild2) = true \/
   checked (cbs blank grandchild2) = negb true) /\
  is_node three_level tree_root top_box = true /\
  descendant three_level grandchild1 top_box /\
  cbs (onToggle three_level grandchild1 true blank) top_box = mixed.
Proof.
  assert (H1 : structure_ok three_level tree_root = true) by reflexivity.
  assert (H2 : is_node three_level tree_root grandchild1 = true) by reflexivity.
  assert (H3 : _findParentCheckbox three_level grandchild1 = Some child1) by reflexivity.
  assert (H4 : In grandchild2 (_findChildCheckboxes three_level child1))
    by (vm_compute; right; left; reflexivity).
  assert (H5 : grandchild2 <> grandchild1) by discriminate.
  assert (H6 : indeterminate (cbs blank grandchild2) = true \/
               checked (cbs blank grandchild2) = negb true) by (right; reflexivity).
  assert (H7 : is_node three_level tree_root top_box = true) by reflexivity.
  assert (H8 : descendant three_level grandchild1 top_box).
  { apply (descendant_below three_level grandchild1 child1 top_box).
    - vm_compute. left. reflexivity.
    - apply descendant_child. vm_compute. left. reflexivity. }
  repeat (split; [assumption|]).
  exact (X11_difference_marks_every_ancestor three_level tree_root grandchild1 child1
           grandchild2 true blank H1 H2 H3 H4 H5 H6 top_box H7 H8).
Defined.

(* ================================================================== *)
(** ** Document order lists every element once                          *)
(* ================================================================== *)

Lemma map_NoDup_inj {A B : Type} (f : A -> B) (l : list A) :
  (forall a b, f a = f b -> a = b) -> NoDup l -> NoDup (map f l).
Proof.
  intros Hf. induction 1 as [|a l Ha Hl IH]; simpl; constructor; [|exact IH].
  intros Hin. apply in_map_iff in Hin. destruct Hin as [b [E Hb]].
  apply Hf in E. subst b. contradiction.
Qed.

Lemma descendants_from_NoDup (ks : list elem) :
  Forall (fun k => NoDup (rel_descendants k)) ks ->
  forall i, NoDup (descendants_from i ks).
Proof.
  induction 1 as [|k ks Hk Hks IH]; intros i; [constructor|].
  cbn [descendants_from]. rewrite <- app_comm_cons.
  assert (Hlast : forall d, In d (descendants_from (S i) ks) ->
                            exists d' j, d = d' ++ [S i + j]).
  { intros d Hd.
    apply (in_descendants_from ks) in Hd.
    - destruct Hd as [j [k' [_ [-> | [d' [_ [_ ->]]]]]]].
      + exists [], j. reflexivity.
      + exists d', j. reflexivity.
    - apply Forall_forall. intros x _ d0. apply in_rel_descendants. }
  constructor.
  - intros Hin. apply in_app_or in Hin. destruct Hin as [Hin | Hin].
    + apply in_map_iff in Hin. destruct Hin as [d' [E Hd']].
      apply in_rel_descendants in Hd'. destruct Hd' as [Hne _].
      destruct d' as [|a [|b d']]; try congruence; discriminate.
    + destruct (Hlast _ Hin) as [d' [j E]].
      change [i] with ([] ++ [i]) in E. apply app_inj_tail in E. lia.
  - apply NoDup_app.
    + apply map_NoDup_inj; [|assumption].
      intros a b E. apply app_inv_tail in E. exact E.
    + apply IH.
    + intros d Hd1 Hd2. apply in_map_iff in Hd1. destruct Hd1 as [d1 [<- _]].
      destruct (Hlast _ Hd2) as [d' [j E]]. apply app_inj_tail in E. lia.
Qed.

Lemma rel_descendants_NoDup (e : elem) : NoDup (rel_descendants e).
Proof.
  induction e as [t ks IH] using elem_induction.
  rewrite rel_descendants_unfold. apply descendants_from_NoDup. exact IH.
Qed.

Lemma querySelectorAll_NoDup (doc : elem) (t : tag) (p : path) :
  NoDup (querySelectorAll doc (Sel t) p).
Proof.
  cbn [querySelectorAll]. apply NoDup_filter. unfold descendants.
  destruct (node_at doc p) as [e|]; [|constructor].
  apply map_NoDup_inj; [|apply rel_descendants_NoDup].
  intros a b E. apply app_inv_tail in E. exact E.
Qed.

(* ================================================================== *)
(** ** Wiring: what the constructor registers and [destroy] removes     *)
(* ================================================================== *)

Section Wiring.

Variable doc : elem.
Variable resolve : string -> list path.

Lemma attach_all_cbs (cs : list path) :
  forall hs s,
    cbs (snd (fold_left attach cs (hs, s))) = cbs s /\
    log (snd (fold_left attach cs (hs, s))) = log s.
Proof.
  induction cs as [|c cs IH]; intros hs s; [split; reflexivity|].
  cbn [fold_left attach new_closure]. cbn [attach].
  match goal with |- context [fold_left attach cs (?h, ?p)] =>
    destruct (IH h p) as [H1 H2] end.
  rewrite H1, H2. split; reflexivity.
Qed.

Lemma remove_all_cbs (hs : list (path * handler)) :
  forall s,
    cbs (fold_left (fun s' kh => removeEventListener (fst kh) (snd kh) s') hs s)
      = cbs s /\
    log (fold_left (fun s' kh => removeEventListener (fst kh) (snd kh) s') hs s)
      = log s /\
    console (fold_left (fun s' kh => removeEventListener (fst kh) (snd kh) s') hs s)
      = console s.
Proof.
  induction hs as [|kh hs IH]; intros s; [repeat split|].
  cbn [fold_left]. destruct (IH (removeEventListener (fst kh) (snd kh) s))
    as [H1 [H2 H3]].
  rewrite H1, H2, H3. repeat split.
Qed.

Lemma in_map_set (k : path) (h : handler) (m : list (path * handler))
    (k' : path) (h' : handler) :
  NoDup (map fst m) ->
  (In (k', h') (map_set k h m) <->
   (k' = k /\ h' = h) \/ (k' <> k /\ In (k', h') m)).
Proof.
  induction m as [|[k0 h0] m IH]; intros Hnd.
  - simpl. split.
    + intros [E | []]. injection E as <- <-. left. auto.
    + intros [[-> ->] | [_ []]]. left. reflexivity.
  - simpl in Hnd. apply NoDup_cons_iff in Hnd. destruct Hnd as [Hk0 Hnd].
    cbn [map_set]. destruct (path_eqb_spec k0 k) as [->|Hne].
    + split.
      * intros [E | Hin].
        -- injection E as <- <-. left. auto.
        -- right. split; [|right; exact Hin].
           intros ->. apply Hk0. apply (in_map fst) in Hin. exact Hin.
      * intros [[-> ->] | [Hne [E | Hin]]].
        -- left. reflexivity.
        -- injection E as -> ->. congruence.
        -- right. exact Hin.
    + split.
      * intros [E | Hin].
        -- injection E as <- <-. right. split; [assumption | left; reflexivity].
        -- apply (IH Hnd) in Hin. destruct Hin as [H | [H1 H2]]; [left; exact H|].
           right. split; [assumption | right; assumption].
      * intros [[-> ->] | [Hne' [E | Hin]]].
        -- right. apply (IH Hnd). left. auto.
        -- left. exact E.
        -- right. apply (IH Hnd). right. auto.
Qed.

Lemma map_set_keys (k : path) (h : handler) (m : list (path * handler)) :
  NoDup (map fst m) -> NoDup (map fst (map_set k h m)).
Proof.
  induction m as [|[k0 h0] m IH]; intros Hnd.
  - simpl. constructor; [intros [] | constructor].
  - simpl in Hnd. apply NoDup_cons_iff in Hnd. destruct Hnd as [Hk0 Hnd].
    cbn [map_set]. destruct (path_eqb_spec k0 k) as [->|Hne].
    + simpl. constructor; assumption.
    + simpl. constructor; [|apply IH; assumption].
      intros Hin. apply in_map_iff in Hin. destruct Hin as [[k1 h1] [E Hin]].
      simpl in E. subst k1. apply (in_map_set k h m k0 h1 Hnd) in Hin.
      destruct Hin as [[E _] | [_ Hin]]; [congruence|].
      apply Hk0. apply (in_map fst) in Hin. exact Hin.
Qed.

(** Every entry of the map after [attach] has run over [cs] is an old
    entry whose checkbox was not met, or the closure made when its
    checkbox was met for the last time. *)
Lemma attach_all_map (cs : list path) :
  forall hs s,
    NoDup (map fst hs) ->
    NoDup (map fst (fst (fold_left attach cs (hs, s)))) /\
    forall k h,
      In (k, h) (fst (fold_left attach cs (hs, s))) ->
      (In (k, h) hs /\ ~ In k cs) \/
      (exists pre post, cs = pre ++ k :: post /\ ~ In k post /\
                        h = next_handler s + length pre).
Proof.
  induction cs as [|c cs IH]; intros hs s Hnd.
  - simpl. split; [assumption|]. intros k h H. left. auto.
  - cbn [fold_left attach new_closure]. cbn [attach].
    match goal with |- context [fold_left attach cs (?m, ?p)] =>
      destruct (IH m p (map_set_keys c (next_handler s) hs Hnd)) as [H1 H2] end.
    split; [exact H1|]. intros k h Hin.
    destruct (H2 k h Hin) as [[Hm Hk] | [pre [post [E [Hpost Hh]]]]].
    + apply (in_map_set c (next_handler s) hs k h Hnd) in Hm.
      destruct Hm as [[-> ->] | [Hne Hm]].
      * right. exists [], cs. split; [reflexivity|]. split; [exact Hk|].
        simpl. lia.
      * left. split; [exact Hm|]. intros [E | Hin']; [congruence | contradiction].
    + right. exists (c :: pre), post. split; [rewrite E; reflexivity|].
      split; [exact Hpost|]. cbn [next_handler addEventListener] in Hh.
      simpl. lia.
Qed.

Lemma init_all_map (rs : list path) :
  forall hs s,
    NoDup (map fst hs) ->
    NoDup (map fst (fst (_init doc rs (hs, s)))) /\
    forall k h,
      In (k, h) (fst (_init doc rs (hs, s))) ->
      (In (k, h) hs /\ ~ In k (flat_map (querySelectorAll doc (Sel INPUT)) rs)) \/
      (exists pre post,
          flat_map (querySelectorAll doc (Sel INPUT)) rs = pre ++ k :: post /\
          ~ In k post /\ h = next_handler s + length pre).
Proof.
  induction rs as [|r rs IH]; intros hs s Hnd.
  - simpl. split; [assumption|]. intros k h H. left. auto.
  - unfold _init. cbn [fold_left flat_map].
    destruct (attach_all_map (querySelectorAll doc (Sel INPUT) r) hs s Hnd)
      as [A1 A2].
    destruct (attach_all (querySelectorAll doc (Sel INPUT) r) hs s)
      as [_ [An _]].
    destruct (fold_left attach (querySelectorAll doc (Sel INPUT) r) (hs, s))
      as [hs1 s1] eqn:E. cbn [fst snd] in A1, A2, An.
    fold (_init doc rs (hs1, _initializeState doc r s1)).
    destruct (IH hs1 (_initializeState doc r s1) A1) as [H1 H2].
    split; [exact H1|]. intros k h Hin.
    assert (Hn : next_handler (_initializeState doc r s1)
                 = next_handler s + length (querySelectorAll doc (Sel INPUT) r)).
    { rewrite initializeState_owners.
      destruct (listeners_update_all doc (owners doc (sortedUls doc r)) s1)
        as [_ [U _]]. rewrite U. exact An. }
    destruct (H2 k h Hin) as [[Hm Hk] | [pre [post [Eq [Hpost Hh]]]]].
    + destruct (A2 k h Hm) as [[Hm0 Hk0] | [pre [post [Eq [Hpost Hh]]]]].
      * left. split; [exact Hm0|]. intros Hin'. apply in_app_or in Hin'. tauto.
      * right. exists pre, (post ++ flat_map (querySelectorAll doc (Sel INPUT)) rs).
        split; [rewrite Eq, <- app_assoc; reflexivity|].
        split; [|exact Hh]. intros Hin'. apply in_app_or in Hin'. tauto.
    + right. exists (querySelectorAll doc (Sel INPUT) r ++ pre), post.
      split; [rewrite Eq, <- app_assoc; reflexivity|].
      split; [exact Hpost|]. rewrite Hh, Hn, length_app. lia.
Qed.

End Wiring.

Section WiringProperties.

Variable doc : elem.
Variable resolve : string -> list path.

Lemma map_set_key_iff (k : path) (h : handler) (m : list (path * handler)) (k' : path) :
  In k' (map fst (map_set k h m)) <-> k' = k \/ In k' (map fst m).
Proof.
  induction m as [|[k0 h0] m IH]; simpl.
  - split; [intros [E | []]; left; congruence | intros [-> | []]; left; reflexivity].
  - destruct (path_eqb_spec k0 k) as [->|Hne]; simpl.
    + intuition congruence.
    + rewrite IH. tauto.
Qed.

Lemma attach_all_keys (cs : list path) :
  forall hs s k,
    In k (map fst (fst (fold_left attach cs (hs, s)))) <->
    In k (map fst hs) \/ In k cs.
Proof.
  induction cs as [|c cs IH]; intros hs s k.
  - simpl. tauto.
  - cbn [fold_left attach new_closure]. cbn [attach].
    rewrite IH, map_set_key_iff. simpl. split; intros H; intuition congruence.
Qed.

Lemma init_all_keys (rs : list path) :
  forall hs s k,
    In k (map fst (fst (_init doc rs (hs, s)))) <->
    In k (map fst hs) \/ In k (flat_map (querySelectorAll doc (Sel INPUT)) rs).
Proof.
  induction rs as [|r rs IH]; intros hs s k.
  - simpl. tauto.
  - unfold _init. cbn [fold_left flat_map].
    pose proof (attach_all_keys (querySelectorAll doc (Sel INPUT) r) hs s k) as A.
    destruct (fold_left attach (querySelectorAll doc (Sel INPUT) r) (hs, s))
      as [hs1 s1] eqn:E. cbn [fst] in A.
    fold (_init doc rs (hs1, _initializeState doc r s1)).
    rewrite IH, A, in_app_iff. tauto.
Qed.

Lemma constructor_registers (sel : selector_arg) (s : page) :
  _getElements resolve sel <> [] ->
  exists this hs s1,
    constructor doc resolve sel s = Ok (this, s1) /\
    roots this = _getElements resolve sel /\ _handlers this = Some hs /\
    listeners s1 =
      listeners s
      ++ attached (flat_map (querySelectorAll doc (Sel INPUT))
                            (_getElements resolve sel)) (next_handler s) /\
    console s1 = console s /\
    NoDup (map fst hs) /\
    (forall c, In c (map fst hs) <->
               In c (flat_map (querySelectorAll doc (Sel INPUT))
                              (_getElements resolve sel))) /\
    (NoDup (flat_map (querySelectorAll doc (Sel INPUT)) (_getElements resolve sel)) ->
     hs = attached (flat_map (querySelectorAll doc (Sel INPUT))
                             (_getElements resolve sel)) (next_handler s)).
Proof.
  intros Hne. unfold constructor.
  destruct (_getElements resolve sel) as [|r rs] eqn:Hrs; [congruence|].
  cbn [length Nat.eqb].
  destruct (init_all doc (r :: rs) [] s) as [H1 [_ [H3 H4]]].
  destruct (init_all_map doc (r :: rs) [] s (NoDup_nil _)) as [M1 _].
  pose proof (init_all_keys (r :: rs) [] s) as K.
  destruct (_init doc (r :: rs) ([], s)) as [hs s1] eqn:E.
  cbn [fst snd] in H1, H3, H4, M1, K.
  exists {| roots := r :: rs; _handlers := Some hs |}, hs, s1.
  split; [reflexivity|]. split; [reflexivity|]. split; [reflexivity|].
  split; [exact H1|]. split; [exact H3|]. split; [exact M1|]. split.
  - intros c. rewrite K. simpl. tauto.
  - intros Hnd. apply H4. exact Hnd.
Qed.

End WiringProperties.

(** X12. When the argument resolves to at least one root, the constructor
    returns an instance holding these roots; it reports nothing; it has
    registered, after the listeners already there, one fresh listener per
    checkbox found under each root in turn (a checkbox under two roots
    gets two); and [_handlers] holds exactly one entry for each of these
    checkboxes, all of them when no checkbox is under two roots. *)
Theorem X12_constructor_registers (doc : elem) (resolve : string -> list path)
    (sel : selector_arg) (s : page) :
  _getElements resolve sel <> [] ->
  exists this hs s1,
    constructor doc resolve sel s = Ok (this, s1) /\
    roots this = _getElements resolve sel /\ _handlers this = Some hs /\
    listeners s1 =
      listeners s
      ++ attached (flat_map (querySelectorAll doc (Sel INPUT))
                            (_getElements resolve sel)) (next_handler s) /\
    console s1 = console s /\
    NoDup (map fst hs) /\
    (forall c, In c (map fst hs) <->
               In c (flat_map (querySelectorAll doc (Sel INPUT))
                              (_getElements resolve sel))) /\
    (NoDup (flat_map (querySelectorAll doc (Sel INPUT)) (_getElements resolve sel)) ->
     hs = attached (flat_map (querySelectorAll doc (Sel INPUT))
                             (_getElements resolve sel)) (next_handler s)).
Proof. apply constructor_registers. Qed.

Lemma X12_witness :
  _getElements one_match (ByString ".tristate") <> [] /\
  exists this hs s1,
    constructor two_level one_match (ByString ".tristate") blank = Ok (this, s1) /\
    roots this = [tree_root] /\ _handlers this = Some hs /\
    listeners s1 = [(top_box, 0); (child1, 1); (child2, 2)].
Proof.
  assert (H : _getElements one_match (ByString ".tristate") <> [])
    by discriminate.
  split; [exact H|].
  destruct (X12_constructor_registers two_level one_match (ByString ".tristate") blank H)
    as [this [hs [s1 [H1 [H2 [H3 [H4 _]]]]]]].
  exists this, hs, s1.
  split; [exact H1|]. split; [exact H2|]. split; [exact H3|]. exact H4.
Defined.

Lemma dispatch_skip (doc : elem) (target : path) (ls : list (path * handler)) :
  forall s,
    ~ In target (map fst ls) ->
    fold_left (fun s' l => if path_eqb (fst l) target
                           then _createChangeHandler doc (fst l) s' else s') ls s = s.
Proof.
  induction ls as [|l ls IH]; intros s H; [reflexivity|]. simpl.
  rewrite path_eqb_neq by (intros E; apply H; left; exact E).
  apply IH. intros Hin. apply H. right. exact Hin.
Qed.

Lemma dispatch_single (doc : elem) (target : path) (ls : list (path * handler)) :
  forall s,
    NoDup (map fst ls) -> In target (map fst ls) ->
    fold_left (fun s' l => if path_eqb (fst l) target
                           then _createChangeHandler doc (fst l) s' else s') ls s
    = _createChangeHandler doc target s.
Proof.
  induction ls as [|l ls IH]; intros s Hnd Hin; [destruct Hin|].
  simpl in Hnd. apply NoDup_cons_iff in Hnd. destruct Hnd as [Hl Hnd]. simpl.
  destruct (path_eqb_spec (fst l) target) as [E | Hne].
  - rewrite E in *. apply dispatch_skip. exact Hl.
  - apply IH; [exact Hnd|]. destruct Hin as [E | Hin]; [congruence | exact Hin].
Qed.

(** X13. After the constructor has run on a page without listeners, over
    roots that share no checkbox, a 'change' on a checkbox under one of
    the roots runs the change handler of that checkbox exactly once, and
    a 'change' on any other element runs nothing. *)
Theorem X13_change_runs_the_handler_once (doc : elem) (resolve : string -> list path)
    (sel : selector_arg) (s : page) :
  _getElements resolve sel <> [] ->
  NoDup (flat_map (querySelectorAll doc (Sel INPUT)) (_getElements resolve sel)) ->
  listeners s = [] ->
  exists this s1,
    constructor doc resolve sel s = Ok (this, s1) /\
    forall c,
      (In c (flat_map (querySelectorAll doc (Sel INPUT)) (_getElements resolve sel)) ->
       dispatchChange doc c s1 = _createChangeHandler doc c s1) /\
      (~ In c (flat_map (querySelectorAll doc (Sel INPUT)) (_getElements resolve sel)) ->
       dispatchChange doc c s1 = s1).
Proof.
  intros Hne Hnd Hnone.
  destruct (constructor_registers doc resolve sel s Hne)
    as [this [hs [s1 [Hc [_ [_ [Hl _]]]]]]].
  exists this, s1. split; [exact Hc|]. intros c.
  rewrite Hnone in Hl. simpl in Hl.
  unfold dispatchChange. rewrite Hl. split; intros Hin.
  - apply dispatch_single; rewrite attached_fst; assumption.
  - apply dispatch_skip. rewrite attached_fst. assumption.
Qed.

Lemma X13_witness :
  _getElements one_match (ByString ".tristate") <> [] /\
  NoDup (flat_map (querySelectorAll two_level (Sel INPUT))
                  (_getElements one_match (ByString ".tristate"))) /\
  listeners blank = [] /\
  exists this s1,
    constructor two_level one_match (ByString ".tristate") blank = Ok (this, s1) /\
    dispatchChange two_level child1 s1 = _createChangeHandler two_level child1 s1.
Proof.
  assert (H1 : _getElements one_match (ByString ".tristate") <> []) by discriminate.
  assert (H2 : NoDup (flat_map (querySelectorAll two_level (Sel INPUT))
                               (_getElements one_match (ByString ".tristate")))).
  { cbn [_getElements one_match flat_map]. rewrite app_nil_r.
    apply querySelectorAll_NoDup. }
  assert (H3 : listeners blank = []) by reflexivity.
  split; [exact H1|]. split; [exact H2|]. split; [exact H3|].
  destruct (X13_change_runs_the_handler_once two_level one_match
              (ByString ".tristate") blank H1 H2 H3) as [this [s1 [Hc Hd]]].
  exists this, s1. split; [exact Hc|].
  apply (proj1 (Hd child1)). vm_compute. right. left. reflexivity.
Defined.

Lemma app_same_length {A : Type} (a b x y : list A) :
  length a = length b -> a ++ x = b ++ y -> a = b /\ x = y.
Proof.
  revert b. induction a as [|u a IH]; intros [|v b] Hl E; simpl in *;
    try discriminate.
  - auto.
  - injection E as -> E. destruct (IH b) as [-> ->]; [lia | exact E | auto].
Qed.

Section Teardown.

Variable doc : elem.
Variable resolve : string -> list path.

Lemma kept_listeners (hs : list (path * handler)) (old new : list (path * handler))
    (n : handler) :
  (forall l, In l old -> snd l < n) ->
  (forall l, In l hs -> n <= snd l) ->
  filter (fun l => negb (existsb (same_listener l) hs)) (old ++ new)
  = old ++ filter (fun l => negb (existsb (same_listener l) hs)) new.
Proof.
  intros Hold Hhs. rewrite filter_app. f_equal.
  apply forallb_filter_id. apply forallb_forall. intros l Hin.
  apply negb_true_iff. destruct (existsb _ _) eqn:Hex; [|reflexivity].
  apply existsb_exists in Hex. destruct Hex as [l' [Hl' Heq]].
  apply same_listener_eq in Heq. subst l'.
  specialize (Hold l Hin). specialize (Hhs l Hl'). lia.
Qed.

(** X14. When no checkbox lies under two of the roots, [destroy] after a
    successful construction takes off exactly the listeners the
    constructor registered: the listeners of the page are again those from
    before the construction, no checkbox state has changed, [_handlers] is
    empty, and a second [destroy] returns the same instance and page. *)
Theorem X14_destroy_undoes_registration (sel : selector_arg) (s : page) :
  _getElements resolve sel <> [] ->
  NoDup (flat_map (querySelectorAll doc (Sel INPUT)) (_getElements resolve sel)) ->
  (forall l, In l (listeners s) -> snd l < next_handler s) ->
  exists this s1 this' s2,
    constructor doc resolve sel s = Ok (this, s1) /\
    destroy this s1 = Ok (this', s2) /\
    listeners s2 = listeners s /\
    cbs s2 = cbs s1 /\ log s2 = log s1 /\ console s2 = console s1 /\
    roots this' = roots this /\ _handlers this' = Some [] /\
    destroy this' s2 = Ok (this', s2).
Proof.
  intros Hne Hnd Hold.
  destruct (constructor_registers doc resolve sel s Hne)
    as [this [hs [s1 [Hc [_ [Hh [Hl [_ [_ [_ Hall]]]]]]]]]].
  specialize (Hall Hnd).
  exists this, s1.
  exists {| roots := roots this; _handlers := Some [] |}.
  exists (fold_left (fun s' kh => removeEventListener (fst kh) (snd kh) s') hs s1).
  split; [exact Hc|]. unfold destroy at 1. rewrite Hh.
  split; [reflexivity|].
  destruct (remove_all_cbs hs s1) as [R1 [R2 R3]].
  split; [|repeat split; assumption].
  rewrite remove_all, Hl.
  rewrite (kept_listeners hs _ _ (next_handler s) Hold).
  - rewrite <- Hall, filter_nothing; [apply app_nil_r|].
    intros l Hin. apply negb_false_iff, existsb_exists.
    exists l. split; [assumption | apply same_listener_refl].
  - intros l Hin. rewrite Hall in Hin. apply attached_fresh in Hin. exact Hin.
Qed.

(** X15. When a checkbox lies under two of the roots, only the closure
    made for it last is kept in [_handlers]: after [destroy] the listener
    registered for it first is still on the page. *)
Theorem X15_shared_checkbox_keeps_a_listener (sel : selector_arg) (s : page)
    (l1 l2 l3 : list path) (c : path) :
  (forall l, In l (listeners s) -> snd l < next_handler s) ->
  flat_map (querySelectorAll doc (Sel INPUT)) (_getElements resolve sel)
    = l1 ++ c :: l2 ++ c :: l3 ->
  exists this s1 this' s2,
    constructor doc resolve sel s = Ok (this, s1) /\
    destroy this s1 = Ok (this', s2) /\
    In (c, next_handler s + length l1) (listeners s2).
Proof.
  intros Hold Hall.
  assert (Hne : _getElements resolve sel <> []).
  { intros E. rewrite E in Hall. simpl in Hall. destruct l1; discriminate. }
  unfold constructor.
  destruct (_getElements resolve sel) as [|r rs] eqn:Hrs; [congruence|].
  cbn [length Nat.eqb].
  destruct (init_all doc (r :: rs) [] s) as [H1 _].
  destruct (init_all_map doc (r :: rs) [] s (NoDup_nil _)) as [_ M].
  destruct (_init doc (r :: rs) ([], s)) as [hs s1] eqn:E.
  cbn [fst snd] in H1, M.
  exists {| roots := r :: rs; _handlers := Some hs |}, s1.
  exists {| roots := r :: rs; _handlers := Some [] |}.
  exists (fold_left (fun s' kh => removeEventListener (fst kh) (snd kh) s') hs s1).
  split; [reflexivity|]. split; [reflexivity|].
  rewrite remove_all, H1, Hall. apply filter_In. split.
  - apply in_or_app. right. rewrite attached_app. apply in_or_app. right.
    rewrite attached_cons. left. reflexivity.
  - apply negb_true_iff. destruct (existsb _ _) eqn:Hex; [|reflexivity].
    exfalso. apply existsb_exists in Hex. destruct Hex as [l' [Hl' Heq]].
    apply same_listener_eq in Heq. subst l'.
    destruct (M _ _ Hl') as [[[] _] | [pre [post [Eq [Hpost Hh]]]]].
    rewrite Hall in Eq.
    destruct (app_same_length l1 pre _ _ ltac:(lia) Eq) as [_ Etail].
    injection Etail as Etail. apply Hpost. rewrite <- Etail.
    apply in_or_app. right. left. reflexivity.
Qed.

End Teardown.

Lemma X14_witness :
  _getElements one_match (ByString ".tristate") <> [] /\
  NoDup (flat_map (querySelectorAll two_level (Sel INPUT))
                  (_getElements one_match (ByString ".tristate"))) /\
  (forall l, In l (listeners blank) -> snd l < next_handler blank) /\
  exists this s1 this' s2,
    constructor two_level one_match (ByString ".tristate") blank = Ok (this, s1) /\
    destroy this s1 = Ok (this', s2) /\
    listeners s2 = listeners blank.
Proof.
  assert (H1 : _getElements one_match (ByString ".tristate") <> []) by discriminate.
  assert (H2 : NoDup (flat_map (querySelectorAll two_level (Sel INPUT))
                               (_getElements one_match (ByString ".tristate")))).
  { cbn [_getElements one_match flat_map]. rewrite app_nil_r.
    apply querySelectorAll_NoDup. }
  assert (H3 : forall l, In l (listeners blank) -> snd l < next_handler blank)
    by (intros l []).
  split; [exact H1|]. split; [exact H2|]. split; [exact H3|].
  destruct (X14_destroy_undoes_registration two_level one_match
              (ByString ".tristate") blank H1 H2 H3)
    as [this [s1 [this' [s2 [Hc [Hd [Hl _]]]]]]].
  exists this, s1, this', s2. split; [exact Hc|]. split; [exact Hd|]. exact Hl.
Defined.

Lemma X15_witness :
  (forall l, In l (listeners blank) -> snd l < next_handler blank) /\
  flat_map (querySelectorAll two_level (Sel INPUT))
           (_getElements no_match (ByList [tree_root; [2; 0; 0]]))
    = [top_box] ++ child1 :: [child2] ++ child1 :: [child2] /\
  exists this s1 this' s2,
    constructor two_level no_match (ByList [tree_root; [2; 0; 0]]) blank
      = Ok (this, s1) /\
    destroy this s1 = Ok (this', s2) /\
    In (child1, 1) (listeners s2).
Proof.
  assert (H1 : forall l, In l (listeners blank) -> snd l < next_handler blank)
    by (intros l []).
  assert (H2 : flat_map (querySelectorAll two_level (Sel INPUT))
                        (_getElements no_match (ByList [tree_root; [2; 0; 0]]))
               = [top_box] ++ child1 :: [child2] ++ child1 :: [child2])
    by reflexivity.
  split; [exact H1|]. split; [exact H2|].
  exact (X15_shared_checkbox_keeps_a_listener two_level no_match
           (ByList [tree_root; [2; 0; 0]]) blank
           [top_box] [child2] [child2] child1 H1 H2).
Defined.

(* ================================================================== *)
(** ** Several roots                                                    *)
(* ================================================================== *)

Lemma within_both (r r' q : path) :
  within r q = true -> within r' q = true ->
  within r r' = true \/ within r' r = true.
Proof.
  rewrite !within_spec. intros [d ->] [d' E].
  apply app_eq_app in E. destruct E as [l [[-> ->] | [-> ->]]].
  - left. exists l. reflexivity.
  - right. exists l. reflexivity.
Qed.

Lemma initializeState_outside (doc : elem) (root q : path) (s : page) :
  within root q = false -> cbs (_initializeState doc root s) q = cbs s q.
Proof.
  intros H. rewrite initializeState_owners. apply update_all_other.
  intros Hin. apply in_owners in Hin.
  destruct Hin as [k [above [i [Hul [-> _]]]]].
  unfold sortedUls in Hul.
  apply (Permutation_in _ (array_sort_perm _ _)) in Hul.
  apply in_sel in Hul. destruct Hul as [d [Hd [E _]]].
  destruct d as [|k' d]; [congruence|]. injection E as -> ->.
  assert (Hw : within root (i :: d ++ root) = true)
    by (apply within_spec; exists (i :: d); reflexivity).
  congruence.
Qed.

Section Roots.

Variable doc : elem.

Lemma other_root_keeps_consistency (r r' : path) (s : page) :
  structure_ok doc r = true ->
  within r r' = false -> within r' r = false ->
  globally_consistent doc r (cbs s) ->
  globally_consistent doc r (cbs (_initializeState doc r' s)).
Proof.
  intros Hok H1 H2 Hcons N HN.
  assert (Hout : forall q, within r q = true -> within r' q = false).
  { intros q Hq. destruct (within r' q) eqn:E; [|reflexivity].
    destruct (within_both r r' q Hq E); congruence. }
  apply (consistent_ext doc (cbs s)).
  - symmetry. apply initializeState_outside, Hout.
    apply (is_node_parts doc r N) in HN. apply HN.
  - intros c Hc. symmetry. apply initializeState_outside, Hout.
    pose proof (child_is_node doc r Hok N c HN Hc) as Hcn.
    apply (is_node_parts doc r c) in Hcn. apply Hcn.
  - apply Hcons. exact HN.
Qed.

Lemma init_keeps_consistency (rs : list path) (r : path) :
  structure_ok doc r = true ->
  (forall r', In r' rs -> within r r' = false /\ within r' r = false) ->
  forall hs s,
    globally_consistent doc r (cbs s) ->
    globally_consistent doc r (cbs (snd (_init doc rs (hs, s)))).
Proof.
  intros Hok. induction rs as [|r0 rs IH]; intros Hapart hs s Hcons; [exact Hcons|].
  unfold _init. cbn [fold_left].
  destruct (attach_all_cbs (querySelectorAll doc (Sel INPUT) r0) hs s) as [A _].
  destruct (fold_left attach (querySelectorAll doc (Sel INPUT) r0) (hs, s))
    as [hs1 s1] eqn:E. cbn [snd] in A.
  fold (_init doc rs (hs1, _initializeState doc r0 s1)).
  apply IH.
  - intros r' Hr'. apply Hapart. right. exact Hr'.
  - destruct (Hapart r0 (or_introl eq_refl)) as [H1 H2].
    apply other_root_keeps_consistency; try assumption.
    rewrite A. exact Hcons.
Qed.

Lemma init_consistent (rs : list path) :
  (forall r, In r rs -> structure_ok doc r = true) ->
  (forall r r', In r rs -> In r' rs ->
                r = r' \/ (within r r' = false /\ within r' r = false)) ->
  forall hs s r,
    In r rs -> globally_consistent doc r (cbs (snd (_init doc rs (hs, s)))).
Proof.
  induction rs as [|r0 rs IH]; intros Hok Hapart hs s r Hr; [destruct Hr|].
  unfold _init. cbn [fold_left].
  destruct (fold_left attach (querySelectorAll doc (Sel INPUT) r0) (hs, s))
    as [hs1 s1] eqn:E.
  fold (_init doc rs (hs1, _initializeState doc r0 s1)).
  destruct (in_dec path_eq_dec r rs) as [Hin | Hout].
  - apply IH; try assumption.
    + intros x Hx. apply Hok. right. exact Hx.
    + intros x y Hx Hy. apply Hapart; right; assumption.
  - destruct Hr as [<- | Hr]; [|contradiction].
    apply init_keeps_consistency.
    + apply Hok. left. reflexivity.
    + intros r' Hr'.
      destruct (Hapart r0 r' (or_introl eq_refl) (or_intror Hr')) as [-> | H];
        [contradiction | exact H].
    + apply initializeState_consistent. apply Hok. left. reflexivity.
Qed.

End Roots.

(** X16. When every root meets the structural contract and no root lies
    inside another, the constructor leaves the tree of every root
    globally consistent: each node with immediate children satisfies the
    parent-from-children rule, whatever the checkboxes held before. *)
Theorem X16_constructor_initializes_every_tree (doc : elem)
    (resolve : string -> list path) (sel : selector_arg) (s : page) :
  _getElements resolve sel <> [] ->
  (forall r, In r (_getElements resolve sel) -> structure_ok doc r = true) ->
  (forall r r', In r (_getElements resolve sel) -> In r' (_getElements resolve sel) ->
                r = r' \/ (within r r' = false /\ within r' r = false)) ->
  exists this s1,
    constructor doc resolve sel s = Ok (this, s1) /\
    forall r, In r (roots this) -> globally_consistent doc r (cbs s1).
Proof.
  intros Hne Hok Hapart. unfold constructor.
  destruct (_getElements resolve sel) as [|r0 rs] eqn:Hrs; [congruence|].
  cbn [length Nat.eqb].
  pose proof (init_consistent doc (r0 :: rs) Hok Hapart [] s) as H.
  destruct (_init doc (r0 :: rs) ([], s)) as [hs s1] eqn:E. cbn [snd] in H.
  exists {| roots := r0 :: rs; _handlers := Some hs |}, s1.
  split; [reflexivity|]. exact H.
Qed.

Lemma X16_witness :
  _getElements both_trees (ByString ".tristate") <> [] /\
  (forall r, In r (_getElements both_trees (ByString ".tristate")) ->
             structure_ok two_trees r = true) /\
  exists this s1,
    constructor two_trees both_trees (ByString ".tristate")
                (assign_checked [0; 0; 2; 0; 0] true blank) = Ok (this, s1) /\
    forall r, In r (roots this) -> globally_consistent two_trees r (cbs s1).
Proof.
  assert (H1 : _getElements both_trees (ByString ".tristate") <> []) by discriminate.
  assert (H2 : forall r, In r (_getElements both_trees (ByString ".tristate")) ->
                         structure_ok two_trees r = true).
  { intros r [<- | [<- | []]]; reflexivity. }
  assert (H3 : forall r r', In r (_getElements both_trees (ByString ".tristate")) ->
                            In r' (_getElements both_trees (ByString ".tristate")) ->
                            r = r' \/ (within r r' = false /\ within r' r = false)).
  { intros r r' [<- | [<- | []]] [<- | [<- | []]];
      try (left; reflexivity); right; split; reflexivity. }
  split; [exact H1|]. split; [exact H2|].
  exact (X16_constructor_initializes_every_tree two_trees both_trees
           (ByString ".tristate") (assign_checked [0; 0; 2; 0; 0] true blank)
           H1 H2 H3).
Defined.

(* ================================================================== *)
(** ** Every write happens once                                         *)
(* ================================================================== *)

Lemma update_all_writes (doc : elem) (L : list path) :
  forall s,
    exists ups,
      log (update_all doc L s) = log s ++ ups /\
      map fst ups
      = filter (fun N => negb (length (_findChildCheckboxes doc N) =? 0)) L.
Proof.
  induction L as [|x L IH]; intros s.
  - exists []. rewrite app_nil_r. split; reflexivity.
  - rewrite update_all_cons.
    destruct (IH (_updateParentState doc x s)) as [ups [Hlog Hfst]].
    cbn [filter].
    destruct (_findChildCheckboxes doc x) as [|c cs] eqn:Hcs.
    + rewrite updateParentState_leaf in Hlog |- * by assumption.
      exists ups. split; [exact Hlog | exact Hfst].
    + rewrite updateParentState_write in Hlog |- * by congruence.
      exists ((x, rule (cbs s) (_findChildCheckboxes doc x)) :: ups).
      rewrite Hlog. cbn [log write map fst length Nat.eqb negb].
      rewrite <- app_assoc, Hfst. split; reflexivity.
Qed.

Section Once.

Variable doc : elem.
Variable root : path.
Hypothesis Hok : structure_ok doc root = true.

Lemma owners_NoDup (uls : list path) :
  (forall u, In u uls ->
             u <> root /\ within root u = true /\ matches doc UL u = true) ->
  NoDup uls -> NoDup (owners doc uls).
Proof.
  pose proof (structure_ok_list doc root Hok) as Hlist.
  induction uls as [|u uls IH]; intros Hin Hnd; [constructor|].
  apply NoDup_cons_iff in Hnd. destruct Hnd as [Hu Hnd].
  destruct (Hin u (or_introl eq_refl)) as [Hne [Hw Hm]].
  destruct (list_item doc root Hlist u Hw Hm Hne) as [k [l [-> [Hl Hwl]]]].
  destruct (item_checkbox doc root Hlist l Hwl Hl) as [i [Hq Hi]].
  unfold owners. cbn [flat_map parentElement]. rewrite Hq. cbn [app].
  fold (owners doc uls). constructor.
  - intros Hown. apply in_owners in Hown.
    destruct Hown as [k' [above [i' [Hul [E _]]]]]. injection E as <- <-.
    destruct (Hin (k' :: l) (or_intror Hul)) as [_ [_ Hm']].
    pose proof (item_sublist_unique doc root Hlist l k Hwl Hl Hm) as U1.
    pose proof (item_sublist_unique doc root Hlist l k' Hwl Hl Hm') as U2.
    rewrite U1 in U2. injection U2 as ->. contradiction.
  - apply IH; [|exact Hnd]. intros x Hx. apply Hin. right. exact Hx.
Qed.

Lemma sortedUls_NoDup : NoDup (sortedUls doc root).
Proof.
  unfold sortedUls.
  apply (Permutation_NoDup (Permutation_sym (array_sort_perm _ _))).
  apply querySelectorAll_NoDup.
Qed.

Lemma ancestors_NoDup (fuel : nat) :
  forall c, is_node doc root c = true -> NoDup (ancestors doc fuel c).
Proof.
  induction fuel as [|fuel IH]; intros c Hc; [constructor|]. simpl.
  destruct (_findParentCheckbox doc c) as [P0|] eqn:HP0; [|constructor].
  destruct (child_of_parent doc root Hok c P0 Hc HP0) as [HN0 _].
  constructor; [|apply IH; assumption].
  intros Hin. destruct (ancestors_nodes doc root Hok fuel P0 P0 HN0 Hin) as [_ [H _]].
  lia.
Qed.

End Once.

(** X17. In a tree that meets the structural contract, [_initializeState]
    writes every node that has immediate children exactly once and writes
    nothing else. *)
Theorem X17_initialization_writes_each_parent_once (doc : elem) (root : path)
    (s : page) :
  structure_ok doc root = true ->
  exists ups,
    log (_initializeState doc root s) = log s ++ ups /\
    NoDup (map fst ups) /\
    forall N, In N (map fst ups) <->
              is_node doc root N = true /\ _findChildCheckboxes doc N <> [].
Proof.
  intros Hok. rewrite initializeState_owners.
  destruct (update_all_writes doc (owners doc (sortedUls doc root)) s)
    as [ups [Hlog Hfst]].
  exists ups. split; [exact Hlog|]. rewrite Hfst. split.
  - apply NoDup_filter. apply (owners_NoDup doc root Hok).
    + intros u Hu. apply (in_sortedUls doc root). exact Hu.
    + apply sortedUls_NoDup.
  - intros N. rewrite filter_In. split.
    + intros [Hin Hne]. split; [apply (owner_is_node doc root Hok); exact Hin|].
      intros E. rewrite E in Hne. discriminate.
    + intros [HN Hne]. split; [apply (internal_node_owned doc root Hok); assumption|].
      destruct (_findChildCheckboxes doc N); [congruence | reflexivity].
Qed.

Lemma X17_witness :
  structure_ok three_level tree_root = true /\
  exists ups,
    log (_initializeState three_level tree_root blank) = log blank ++ ups /\
    NoDup (map fst ups) /\
    forall N, In N (map fst ups) <->
              is_node three_level tree_root N = true /\
              _findChildCheckboxes three_level N <> [].
Proof.
  assert (H : structure_ok three_level tree_root = true) by reflexivity.
  split; [exact H|].
  exact (X17_initialization_writes_each_parent_once three_level tree_root blank H).
Defined.

(** X18. In a tree that meets the structural contract, the change handler
    writes no checkbox twice: its writes go to pairwise different
    checkboxes. *)
Theorem X18_handler_writes_once (doc : elem) (root N : path) (s : page) :
  structure_ok doc root = true -> is_node doc root N = true ->
  exists written,
    log (_createChangeHandler doc N s) = log s ++ written /\
    NoDup (map fst written).
Proof.
  intros Hok HN. rewrite createChangeHandler_unfold.
  set (val := {| checked := checked (cbs s N); indeterminate := false |}).
  destruct (update_all_writes doc (ancestors doc (S (length N)) N)
              (fold_left (fun s' c => write c val s') (forced doc N) s))
    as [ups [Hlog Hfst]].
  exists (map (fun c => (c, val)) (forced doc N) ++ ups).
  rewrite Hlog, write_all_log, <- app_assoc. split; [reflexivity|].
  rewrite map_app, map_map, Hfst. cbn [fst]. rewrite map_id.
  apply NoDup_app.
  - unfold forced. destruct (closest doc LI N) as [li|]; [|constructor].
    destruct (querySelector doc (Sel UL) li); [|constructor].
    apply querySelectorAll_NoDup.
  - apply NoDup_filter. apply (ancestors_NoDup doc root Hok). assumption.
  - intros x Hx Hy. apply filter_In in Hy. destruct Hy as [Hy _].
    exact (forced_not_ancestor doc root Hok N HN x Hx Hy).
Qed.

Lemma X18_witness :
  structure_ok three_level tree_root = true /\
  is_node three_level tree_root child1 = true /\
  exists written,
    log (_createChangeHandler three_level child1 blank) = log blank ++ written /\
    NoDup (map fst written).
Proof.
  assert (H1 : structure_ok three_level tree_root = true) by reflexivity.
  assert (H2 : is_node three_level tree_root child1 = true) by reflexivity.
  split; [exact H1|]. split; [exact H2|].
  exact (X18_handler_writes_once three_level tree_root child1 blank H1 H2).
Defined.

(** X19. [_getElementDepth] of an element exceeds that of any of its
    ancestors by the number of levels between them, so the comparator of
    [_initializeState] orders two elements below a common ancestor by
    their distance from that ancestor, deeper first, and returns 0 exactly
    for equal distances. *)
Theorem X19_depth_counts_levels (d q p : path) :
  _getElementDepth (d ++ p) = length d + _getElementDepth p /\
  ((deepest_first (d ++ p) (q ++ p) < 0)%Z <-> length q < length d) /\
  (deepest_first (d ++ p) (q ++ p) = 0%Z <-> length q = length d) /\
  deepest_first (d ++ p) (q ++ p) = (- deepest_first (q ++ p) (d ++ p))%Z.
Proof.
  unfold deepest_first. rewrite !getElementDepth_length, !length_app.
  repeat split; intros; lia.
Qed.
